(** * verify-k8s-certs: the discovery-and-verification loop of [verify.go]

    A shallow embedding of [testTLS] and [discoverServices] together with
    the parts of the Go libraries they call: [unicode/utf8], [regexp] and
    [regexp/syntax], [time] ([Duration], [Time.Sub], [Duration.Seconds]),
    [strconv.Itoa], [float64] arithmetic and the three Prometheus
    collectors.  The network, the cluster API and the clock are an explicit
    [World]; the metric registry, the log and the network traffic are an
    explicit [State]; a panic is an explicit way for a call to end. *)

From Stdlib Require Import ZArith QArith Qabs Lqa List Ascii String Bool Lia.
From Stdlib Require Import DecimalString DecimalPos DecimalZ.
From stdpp Require Import gmap strings.

Local Open Scope string_scope.
Local Open Scope list_scope.
Local Open Scope Z_scope.

(** A call that yields a value or an [error]. *)
Inductive result (A : Type) : Type :=
| Ok (a : A)
| Err (err : string).
Arguments Ok {A} a.
Arguments Err {A} err.

(* ===================================================================== *)
(** * Package [unicode/utf8]                                              *)
(* ===================================================================== *)

Module utf8.
Local Open Scope N_scope.

(** A code point. *)
Definition rune : Type := N.

(** U+FFFD, what a byte that starts no valid encoding decodes to. *)
Definition RuneError : rune := 65533.

(** The bytes of a Go string. *)
Definition bytes (s : string) : list N :=
  map N_of_ascii (list_ascii_of_string s).

(** A continuation byte, [0x80..0xBF]. *)
Definition continuation (b : N) : bool := (128 <=? b) && (b <=? 191).

(** The second byte that the first byte of a three-byte encoding accepts:
    [0xE0] wants [0xA0..0xBF] (nothing overlong) and [0xED] wants
    [0x80..0x9F] (no surrogate). *)
Definition second3 (b0 b1 : N) : bool :=
  ((if b0 =? 224 then 160 else 128) <=? b1)
  && (b1 <=? (if b0 =? 237 then 159 else 191)).

(** The same for a four-byte encoding: [0xF0] wants [0x90..0xBF] and
    [0xF4] wants [0x80..0x8F] (nothing above U+10FFFF). *)
Definition second4 (b0 b1 : N) : bool :=
  ((if b0 =? 240 then 144 else 128) <=? b1)
  && (b1 <=? (if b0 =? 244 then 143 else 191)).

(** The code points of the encodings of two, three and four bytes; the
    masks and shifts of [DecodeRune] are written as arithmetic. *)
Definition rune2 (b0 b1 : N) : rune := (b0 - 192) * 64 + (b1 - 128).
Definition rune3 (b0 b1 b2 : N) : rune :=
  (b0 - 224) * 4096 + (b1 - 128) * 64 + (b2 - 128).
Definition rune4 (b0 b1 b2 b3 : N) : rune :=
  (b0 - 240) * 262144 + (b1 - 128) * 4096 + (b2 - 128) * 64 + (b3 - 128).

(** The runes of a byte slice as a loop of [DecodeRune] reads them: a
    byte below [0x80] is itself, the first byte of a well-formed encoding
    is read with its continuation bytes, and any other byte is
    [RuneError], of width one. *)
Fixpoint runes (p : list N) : list rune :=
  match p with
  | [] => []
  | b0 :: p1 =>
      let invalid := RuneError :: runes p1 in
      if b0 <? 128 then b0 :: runes p1
      else if b0 <? 194 then invalid
      else if b0 <? 224 then
        match p1 with
        | b1 :: p2 =>
            if continuation b1 then rune2 b0 b1 :: runes p2 else invalid
        | _ => invalid
        end
      else if b0 <? 240 then
        match p1 with
        | b1 :: b2 :: p3 =>
            if second3 b0 b1 && continuation b2
            then rune3 b0 b1 b2 :: runes p3 else invalid
        | _ => invalid
        end
      else if b0 <? 245 then
        match p1 with
        | b1 :: b2 :: b3 :: p4 =>
            if second4 b0 b1 && continuation b2 && continuation b3
            then rune4 b0 b1 b2 b3 :: runes p4 else invalid
        | _ => invalid
        end
      else invalid
  end.

(** [Valid]: the bytes are a sequence of well-formed encodings. *)
Fixpoint Valid (p : list N) : bool :=
  match p with
  | [] => true
  | b0 :: p1 =>
      if b0 <? 128 then Valid p1
      else if b0 <? 194 then false
      else if b0 <? 224 then
        match p1 with
        | b1 :: p2 => continuation b1 && Valid p2
        | _ => false
        end
      else if b0 <? 240 then
        match p1 with
        | b1 :: b2 :: p3 => second3 b0 b1 && continuation b2 && Valid p3
        | _ => false
        end
      else if b0 <? 245 then
        match p1 with
        | b1 :: b2 :: b3 :: p4 =>
            second4 b0 b1 && continuation b2 && continuation b3 && Valid p4
        | _ => false
        end
      else false
  end.

Definition ValidString (s : string) : bool := Valid (bytes s).

End utf8.

(* ===================================================================== *)
(** * [float64]                                                           *)
(* ===================================================================== *)

(** A [float64] is kept as the rational it denotes.  Every value the
    program computes is zero or lies between [1e-9] and [2^64] in
    magnitude, far from the subnormal numbers and from overflow, so that
    an operation is the exact operation followed by the rounding to 53
    significant bits, to nearest and to even on a tie. *)
Definition float64 : Type := Q.

Module math.

(** [num / den] scaled by [2^k]. *)
Definition scale (k : Z) (n d : positive) : Z * Z :=
  if 0 <=? k then (Zpos n * 2 ^ k, Zpos d)
  else (Zpos n, Zpos d * 2 ^ (- k)).

Definition unscale (k : Z) (m : Z) : Q :=
  if 0 <=? k then Qred (Qmake m (Z.to_pos (2 ^ k)))
  else inject_Z (m * 2 ^ (- k)).

(** The integer nearest to [num / den], the even one of the two when it
    is half-way. *)
Definition nearestEven (num den : Z) : Z :=
  let q := num / den in
  match 2 * (num mod den) ?= den with
  | Lt => q
  | Gt => q + 1
  | Eq => if Z.even q then q else q + 1
  end.

(** Has [n / d * 2^k] at least 53 bits? *)
Definition normal (k : Z) (n d : positive) : bool :=
  let (num, den) := scale k n d in 2 ^ 52 * den <=? num.

(** [n / d] rounded to 53 significant bits: scaled so that its integer
    part has exactly 53 bits, rounded to an integer, and scaled back. *)
Definition roundPos (n d : positive) : Q :=
  let k := 52 - (Z.log2 (Zpos n) - Z.log2 (Zpos d)) in
  let k := if normal k n d then k else k + 1 in
  let (num, den) := scale k n d in
  unscale k (nearestEven num den).

(** The scaling factor [2^k], as a rational. *)
Definition factor (k : Z) : Q :=
  if 0 <=? k then inject_Z (2 ^ k) else (/ inject_Z (2 ^ (- k)))%Q.

(** The relative error of a rounding is [2^-53] at most. *)
Definition epsilon : Q := 1 # 9007199254740992.

Definition round (q : Q) : float64 :=
  match Qnum q with
  | Z0 => 0%Q
  | Zpos n => roundPos n (Qden q)
  | Zneg n => Qopp (roundPos n (Qden q))
  end.

End math.

(** [float64(n)] of an integer, exact up to [2^53]. *)
Definition float64_of_int (n : Z) : float64 :=
  if Z.abs n <=? 2 ^ 53 then inject_Z n else math.round (inject_Z n).

Definition float64_add (x y : float64) : float64 := math.round (x + y)%Q.
Definition float64_div (x y : float64) : float64 := math.round (x / y)%Q.

Definition maxExactFloat : Z := 2 ^ 53.

(* ===================================================================== *)
(** * Package [regexp/syntax]: syntax trees and the pattern parser        *)
(* ===================================================================== *)

Module syntax.

(** A one-rune matcher: Go's [OpLiteral], [OpAnyCharNotNL] and
    [OpCharClass], the class as a list of ranges of code points. *)
Inductive CharClass : Type :=
| Literal (c : utf8.rune)
| AnyCharNotNL
| Ranges (negated : bool) (rs : list (utf8.rune * utf8.rune)).

(** The node kinds that the parser below produces.  Under the [Perl]
    flags that [regexp.Compile] uses, [^] is [OpBeginText] and [$] is
    [OpEndText]. *)
Inductive Regexp : Type :=
| NoMatch
| EmptyMatch
| Char (cls : CharClass)
| BeginText
| EndText
| Concat (r1 r2 : Regexp)
| Alternate (r1 r2 : Regexp)
| Star (r : Regexp)
| Plus (r : Regexp)
| Quest (r : Regexp).

(** The error codes that the parser below can raise. *)
Inductive ErrorCode : Type :=
| ErrMissingParen
| ErrUnexpectedParen
| ErrMissingRepeatArgument
| ErrInvalidRepeatOp
| ErrTrailingBackslash.

(** What the parser makes of a pattern: a tree, an error, or nothing when
    the pattern uses syntax that the parser does not cover (a bracket
    class, a counted repetition, a flag, a named group, a word boundary,
    a numeric or Unicode escape, a byte that is not ASCII). *)
Inductive ParseResult : Type :=
| Parsed (re : Regexp)
| Refused (code : ErrorCode)
| NotCovered.

(** One level of parenthesis nesting: the alternatives already closed by
    a [|] and the concatenation being built, both most recent first. *)
Record Frame : Type := mkFrame { alts : list Regexp; cat : list Regexp }.

Definition emptyFrame : Frame := mkFrame [] [].

(** [items] is most recent first. *)
Fixpoint concatOf (items : list Regexp) : Regexp :=
  match items with
  | [] => EmptyMatch
  | [r] => r
  | r :: earlier => Concat (concatOf earlier) r
  end.

Fixpoint alternateOf (branches : list Regexp) (last : Regexp) : Regexp :=
  match branches with
  | [] => last
  | r :: earlier => Alternate (alternateOf earlier r) last
  end.

Definition closeFrame (f : Frame) : Regexp :=
  alternateOf (alts f) (concatOf (cat f)).

Definition push (r : Regexp) (f : Frame) : Frame :=
  mkFrame (alts f) (r :: cat f).

Definition isAlnum (c : ascii) : bool :=
  let n := N_of_ascii c in
  ((48 <=? n) && (n <=? 57) || (65 <=? n) && (n <=? 90)
   || (97 <=? n) && (n <=? 122))%N%bool.

Definition isASCII (c : ascii) : bool := (N_of_ascii c <? 128)%N.

Definition literal (c : ascii) : Regexp := Char (Literal (N_of_ascii c)).

(** [0-9], [0-9A-Z_a-z] and the white space of Perl: tab, line feed,
    form feed, carriage return, space. *)
Definition digitRanges : list (utf8.rune * utf8.rune) := [(48, 57)]%N.
Definition wordRanges : list (utf8.rune * utf8.rune) :=
  [(48, 57); (65, 90); (95, 95); (97, 122)]%N.
Definition spaceRanges : list (utf8.rune * utf8.rune) :=
  [(9, 10); (12, 13); (32, 32)]%N.

(** The escapes of the fragment: [\d \D \w \W \s \S], [\A] and [\z],
    the C escapes, and an escaped punctuation byte standing for itself. *)
Definition escape (c : ascii) : option Regexp :=
  if negb (isASCII c) then None
  else if negb (isAlnum c) then Some (literal c)
  else match c with
       | "d"%char => Some (Char (Ranges false digitRanges))
       | "D"%char => Some (Char (Ranges true digitRanges))
       | "w"%char => Some (Char (Ranges false wordRanges))
       | "W"%char => Some (Char (Ranges true wordRanges))
       | "s"%char => Some (Char (Ranges false spaceRanges))
       | "S"%char => Some (Char (Ranges true spaceRanges))
       | "A"%char => Some BeginText
       | "z"%char => Some EndText
       | "a"%char => Some (Char (Literal 7%N))
       | "f"%char => Some (Char (Literal 12%N))
       | "n"%char => Some (Char (Literal 10%N))
       | "r"%char => Some (Char (Literal 13%N))
       | "t"%char => Some (Char (Literal 9%N))
       | "v"%char => Some (Char (Literal 11%N))
       | _ => None
       end.

(** Apply a repetition operator to the last item of the concatenation.
    Stacked operators ([a**]) are refused, and so is an operator with
    nothing before it in its group or alternative. *)
Definition applyRepeat (op : Regexp -> Regexp) (lastRepeat : bool)
    (cur : Frame) : ErrorCode + Frame :=
  if lastRepeat then inl ErrInvalidRepeatOp
  else match cat cur with
       | [] => inl ErrMissingRepeatArgument
       | r :: earlier => inr (mkFrame (alts cur) (op r :: earlier))
       end.

(** One left-to-right pass with a stack of open groups, as in
    [syntax.Parse]; the first error met is the one reported.  A [?] right
    after a repetition makes it non-greedy, which changes the match that is
    preferred and not whether there is one: it is skipped. *)
Fixpoint parse (s : list ascii) (cur : Frame) (stack : list Frame)
    (lastRepeat : bool) {struct s} : ParseResult :=
  match s with
  | [] =>
      match stack with
      | [] => Parsed (closeFrame cur)
      | _ :: _ => Refused ErrMissingParen
      end
  | c :: rest =>
      match c with
      | "("%char =>
          match rest with
          | "?"%char :: ":"%char :: rest' =>
              parse rest' emptyFrame (cur :: stack) false
          | "?"%char :: _ => NotCovered
          | _ => parse rest emptyFrame (cur :: stack) false
          end
      | ")"%char =>
          match stack with
          | [] => Refused ErrUnexpectedParen
          | parent :: stack' =>
              parse rest (push (closeFrame cur) parent) stack' false
          end
      | "|"%char =>
          parse rest (mkFrame (concatOf (cat cur) :: alts cur) []) stack false
      | "*"%char | "+"%char | "?"%char =>
          let op := match c with
                    | "*"%char => Star
                    | "+"%char => Plus
                    | _ => Quest
                    end in
          match applyRepeat op lastRepeat cur with
          | inl code => Refused code
          | inr cur' =>
              match rest with
              | "?"%char :: rest' => parse rest' cur' stack true
              | _ => parse rest cur' stack true
              end
          end
      | "."%char => parse rest (push (Char AnyCharNotNL) cur) stack false
      | "^"%char => parse rest (push BeginText cur) stack false
      | "$"%char => parse rest (push EndText cur) stack false
      | "\"%char =>
          match rest with
          | [] => Refused ErrTrailingBackslash
          | e :: rest' =>
              match escape e with
              | Some r => parse rest' (push r cur) stack false
              | None => NotCovered
              end
          end
      | "["%char | "{"%char => NotCovered
      | _ =>
          if isASCII c then parse rest (push (literal c) cur) stack false
          else NotCovered
      end
  end.

(** [syntax.Parse(s, syntax.Perl)], as far as this parser goes.  Go
    bounds the size and the nesting of very large expressions (since
    1.19); an expression of 500 bytes or more is not covered. *)
Definition Parse (s : string) : ParseResult :=
  if (500 <=? String.length s)%nat then NotCovered
  else parse (list_ascii_of_string s) emptyFrame [] false.

End syntax.

(* ===================================================================== *)
(** * Package [regexp]: compiling and matching                            *)
(* ===================================================================== *)

Module regexp.
Import syntax.

Definition newline : utf8.rune := 10%N.

Definition inRange (c : utf8.rune) (lohi : utf8.rune * utf8.rune) : bool :=
  (N.leb (fst lohi) c && N.leb c (snd lohi))%bool.

Definition inClass (cls : CharClass) (c : utf8.rune) : bool :=
  match cls with
  | Literal l => N.eqb l c
  | AnyCharNotNL => negb (N.eqb c newline)
  | Ranges negated rs => xorb negated (existsb (inRange c) rs)
  end.

(** ** Matching by derivatives *)

(** Does [r] match the empty string at a position that is the beginning
    of the text ([atStart]) and/or its end ([atEnd])? *)
Fixpoint nullable (atStart atEnd : bool) (r : syntax.Regexp) : bool :=
  match r with
  | NoMatch => false
  | EmptyMatch => true
  | Char _ => false
  | BeginText => atStart
  | EndText => atEnd
  | Concat r1 r2 => nullable atStart atEnd r1 && nullable atStart atEnd r2
  | Alternate r1 r2 => nullable atStart atEnd r1 || nullable atStart atEnd r2
  | Star _ => true
  | Plus r1 => nullable atStart atEnd r1
  | Quest _ => true
  end.

(** What is left of [r] after it has consumed the rune [c] found at a
    position that is ([atStart]) or is not the beginning of the text. *)
Fixpoint deriv (atStart : bool) (c : utf8.rune) (r : syntax.Regexp)
    : syntax.Regexp :=
  match r with
  | NoMatch | EmptyMatch | BeginText | EndText => NoMatch
  | Char cls => if inClass cls c then EmptyMatch else NoMatch
  | Concat r1 r2 =>
      if nullable atStart false r1
      then Alternate (Concat (deriv atStart c r1) r2) (deriv atStart c r2)
      else Concat (deriv atStart c r1) r2
  | Alternate r1 r2 => Alternate (deriv atStart c r1) (deriv atStart c r2)
  | Star r1 => Concat (deriv atStart c r1) (Star r1)
  | Plus r1 => Concat (deriv atStart c r1) (Star r1)
  | Quest r1 => deriv atStart c r1
  end.

(** Does [r] match some prefix of [s], where [s] is the rest of the text
    from the current position on? *)
Fixpoint matchPrefix (atStart : bool) (r : syntax.Regexp)
    (s : list utf8.rune) : bool :=
  match s with
  | [] => nullable atStart true r
  | c :: s' =>
      nullable atStart false r || matchPrefix false (deriv atStart c r) s'
  end.

(** Try every starting position, left to right. *)
Fixpoint search (atStart : bool) (r : syntax.Regexp) (s : list utf8.rune)
    : bool :=
  matchPrefix atStart r s
  || match s with
     | [] => false
     | _ :: s' => search false r s'
     end.

(** ** What a match is *)

(** [Matches t r i j]: [r] matches the runes of the text [t] from
    position [i] up to (not including) position [j]. *)
Inductive Matches (t : list utf8.rune) : syntax.Regexp -> nat -> nat -> Prop :=
| MEmpty i : (i <= length t)%nat -> Matches t EmptyMatch i i
| MChar cls i c :
    nth_error t i = Some c -> inClass cls c = true ->
    Matches t (Char cls) i (S i)
| MBeginText : Matches t BeginText 0 0
| MEndText : Matches t EndText (length t) (length t)
| MConcat r1 r2 i j k :
    Matches t r1 i j -> Matches t r2 j k -> Matches t (Concat r1 r2) i k
| MAltL r1 r2 i j : Matches t r1 i j -> Matches t (Alternate r1 r2) i j
| MAltR r1 r2 i j : Matches t r2 i j -> Matches t (Alternate r1 r2) i j
| MStarNil r i : (i <= length t)%nat -> Matches t (Star r) i i
| MStarCons r i j k :
    Matches t r i j -> Matches t (Star r) j k -> Matches t (Star r) i k
| MPlusOne r i j : Matches t r i j -> Matches t (Plus r) i j
| MPlusCons r i j k :
    Matches t r i j -> Matches t (Plus r) j k -> Matches t (Plus r) i k
| MQuestNone r i : (i <= length t)%nat -> Matches t (Quest r) i i
| MQuestSome r i j : Matches t r i j -> Matches t (Quest r) i j.

(** ** Compiled patterns *)

(** A compiled pattern: the program of a pattern that the parser of
    [syntax] covers, or, for any other pattern that Go compiles, what the
    rest of the package makes of it: the function from a text to whether
    the text contains a match. *)
Inductive Regexp : Type :=
| Program (re : syntax.Regexp)
| Foreign (contains : string -> bool).

(** The rest of the package, which this development does not look into:
    what [Compile] answers on a pattern that the parser does not cover.
    Every statement below holds whatever it answers. *)
Definition Rest : Type := string -> result (string -> bool).

Inductive Error : Type :=
| SyntaxError (code : syntax.ErrorCode)
| OtherError (msg : string).

Inductive CompileResult : Type :=
| Compiled (r : Regexp)
| CompileError (err : Error).

(** [regexp.Compile(expr)]. *)
Definition Compile (rest : Rest) (expr : string) : CompileResult :=
  match syntax.Parse expr with
  | Parsed re => Compiled (Program re)
  | Refused code => CompileError (SyntaxError code)
  | NotCovered =>
      match rest expr with
      | Ok contains => Compiled (Foreign contains)
      | Err msg => CompileError (OtherError msg)
      end
  end.

(** The method [Match] of a compiled pattern: it reports whether the byte
    slice [b] contains any match of the regular expression.  The text is
    read rune by rune. *)
Definition Match (r : Regexp) (b : string) : bool :=
  match r with
  | Program re => search true re (utf8.runes (utf8.bytes b))
  | Foreign contains => contains b
  end.

(** The pattern matches somewhere in the text. *)
Definition MatchesAnywhere (r : Regexp) (b : string) : Prop :=
  match r with
  | Program re => exists i j, Matches (utf8.runes (utf8.bytes b)) re i j
  | Foreign contains => contains b = true
  end.

(** The pattern [expr] matches somewhere in the text: it compiles, and
    what it compiles to matches there. *)
Definition PatternMatches (rest : Rest) (expr b : string) : Prop :=
  match Compile rest expr with
  | Compiled r => MatchesAnywhere r b
  | CompileError _ => False
  end.

End regexp.

(* ===================================================================== *)
(** * Package [time]                                                      *)
(* ===================================================================== *)

Module time.

(** A [Duration] is an [int64] count of nanoseconds. *)
Definition Duration : Type := Z.

Definition Second : Duration := 1000000000.
Definition minDuration : Duration := - 2 ^ 63.
Definition maxDuration : Duration := 2 ^ 63 - 1.

(** An instant.  Go keeps seconds and nanoseconds apart; the model keeps
    the instant as one unbounded count of nanoseconds since the Unix
    epoch.  No monotonic reading: a certificate's [NotAfter] has none, so
    [Sub] works on the wall clock. *)
Record Time : Type := mkTime { nanos : Z }.

Definition Unix (sec nsec : Z) : Time := mkTime (sec * Second + nsec).

Definition After (t u : Time) : bool := nanos u <? nanos t.
Definition Before (t u : Time) : bool := nanos t <? nanos u.

(** [t.Sub(u)] "returns the duration t-u.  If the result exceeds the
    maximum (or minimum) value that can be stored in a Duration, the
    maximum (or minimum) duration will be returned." *)
Definition Sub (t u : Time) : Duration :=
  let d := nanos t - nanos u in
  if d <? minDuration then minDuration
  else if maxDuration <? d then maxDuration
  else d.

(** [d.Seconds()]: [sec := d / Second; nsec := d % Second;
    return float64(sec) + float64(nsec)/1e9], with Go's truncated
    division and the two roundings of [float64]. *)
Definition Seconds (d : Duration) : float64 :=
  let sec := Z.quot d Second in
  let nsec := Z.rem d Second in
  float64_add (float64_of_int sec)
              (float64_div (float64_of_int nsec) (float64_of_int Second)).

End time.

(* ===================================================================== *)
(** * Integers and formatting                                             *)
(* ===================================================================== *)

(** Go's [int] on the 64-bit targets the image is built for: two's
    complement, wrapping silently. *)
Definition wrapInt (z : Z) : Z := (z + 2 ^ 63) mod 2 ^ 64 - 2 ^ 63.

Definition maxInt : Z := 2 ^ 63 - 1.

Module strconv.
(** [strconv.Itoa]: decimal, with a leading minus sign when negative. *)
Definition Itoa (i : Z) : string := NilZero.string_of_int (Z.to_int i).
End strconv.

(* ===================================================================== *)
(** * Data                                                                *)
(* ===================================================================== *)

(** The fields of [pkix.Name] and [x509.Certificate] that the prober
    reads.  The two strings of a name are the bytes found in the
    certificate: [crypto/x509] hands over a [T61String] as it is, so they
    need not be valid UTF-8. *)
Record Name : Type := mkName { CommonName : string; SerialNumber : string }.

Record Certificate : Type := mkCert { Issuer : Name; NotAfter : time.Time }.

(** A [v1.Service]: its name, its namespace and the numbers of its ports
    ([int32] each). *)
Record Service : Type :=
  mkService { GetName : string; GetNamespace : string; Ports : list Z }.

(** An established TLS connection: the chain the peer presented during the
    handshake and the error, if any, that a [Write] on it returns. *)
Record Conn : Type :=
  mkConn { PeerCertificates : list Certificate; WriteErr : option string }.

(** Everything outside the process.  Calls are numbered, so the same
    address may answer differently each time it is dialled, the service
    list may change between cycles and the clock moves.  [RegexpRest] is
    inside the process but outside this development: the part of Go's
    [regexp] package that is taken as it comes. *)
Record World : Type := mkWorld {
  InClusterConfig : option string;
  NewForConfig : option string;
  List_ : nat -> result (list Service);
  DialWithDialer : nat -> time.Duration -> string -> result Conn;
  Now : nat -> time.Time;
  RegexpRest : regexp.Rest
}.

(** The label values of one series of [expiredCertsGauge], in the order
    namespace, service, port, issuer, serialnumber. *)
Definition Labels : Type := (string * string * string * string * string)%type.

Inductive LogLine : Type :=
| CouldNotStart (fullhostname err : string)
| CouldNotSend (fullhostname err : string)
| ConnectionSuccessful (fullhostname : string) (certsExpiryDates : list (option time.Time))
| Scanning (services : nat)
| Skipping (svcName ns : string)
| Sleeping (d : time.Duration).

Inductive Event : Type :=
| EvList
| EvDial (timeout : time.Duration) (network addr : string) (insecureSkipVerify : bool)
| EvWrite (addr payload : string)
| EvClose (addr : string)
| EvNow
| EvExpirationSet (labels : Labels) (v : float64)
| EvDiscoveredSet (v : float64)
| EvHeartbeatInc
| EvErrorf (line : LogLine)
| EvInfof (line : LogLine)
| EvSleep (d : time.Duration).

(** The registry with its three collectors, the trace of what the process
    did (oldest first), and how many times each part of the world has been
    called. *)
Record State : Type := mkState {
  expiredCertsGauge : gmap Labels float64;
  discoveredCertsGauge : float64;
  hearthbeatCounter : Z;
  trace : list Event;
  lists : nat;
  dials : nat;
  clock : nat
}.

Definition initialState : State := mkState ∅ 0%Q 0 [] 0 0 0.

(* ===================================================================== *)
(** * A monad for the process: state and panics                           *)
(* ===================================================================== *)

(** Why the process died. *)
Inductive PanicCause : Type :=
| InClusterConfigFailed (err : string)
| NewForConfigFailed (err : string)
| RegexpCompileFailed (err : regexp.Error)
| ListFailed (err : string)
| InvalidLabelValue (val : string).

(** How a call ends: it returns, or it panics.  Nothing in [verify.go]
    recovers, so a panic goes up to the top of the goroutine and kills the
    process; on its way it runs the deferred calls. *)
Inductive Completion (A : Type) : Type :=
| Returns (a : A)
| Panics (cause : PanicCause).
Arguments Returns {A} a.
Arguments Panics {A} cause.

Definition M (A : Type) : Type := State -> Completion A * State.

Definition ret {A : Type} (a : A) : M A := fun s => (Returns a, s).

Definition panic {A : Type} (cause : PanicCause) : M A :=
  fun s => (Panics cause, s).

Definition bind {A B : Type} (m : M A) (k : A -> M B) : M B :=
  fun s =>
    match m s with
    | (Returns a, s') => k a s'
    | (Panics cause, s') => (Panics cause, s')
    end.

Notation "x <- m ;; k" := (bind m (fun x => k))
  (at level 100, m at next level, right associativity).
Notation "m ;;; k" := (bind m (fun _ => k))
  (at level 100, right associativity).

(** [defer deferred; body]: the deferred call runs when the body is
    done, whether it returned or panicked. *)
Definition defer {A : Type} (deferred : M unit) (body : M A) : M A :=
  fun s => let (completion, s') := body s in (completion, snd (deferred s')).

Definition emit (e : Event) : M unit :=
  fun s => (Returns tt,
            mkState (expiredCertsGauge s) (discoveredCertsGauge s)
                    (hearthbeatCounter s) (trace s ++ [e])
                    (lists s) (dials s) (clock s)).

Definition Errorf (l : LogLine) : M unit := emit (EvErrorf l).
Definition Infof (l : LogLine) : M unit := emit (EvInfof l).

(** ** The calls that reach outside the process *)

(** [tls.DialWithDialer(dialer, network, addr, conf)]: connect and
    handshake, both under the dialer's timeout. *)
Definition tls_DialWithDialer (w : World) (timeout : time.Duration)
    (network addr : string) (insecureSkipVerify : bool) : M (result Conn) :=
  fun s =>
    (Returns (DialWithDialer w (dials s) timeout addr),
     mkState (expiredCertsGauge s) (discoveredCertsGauge s)
             (hearthbeatCounter s)
             (trace s ++ [EvDial timeout network addr insecureSkipVerify])
             (lists s) (S (dials s)) (clock s)).

Definition conn_Write (addr : string) (conn : Conn) (payload : string)
    : M (option string) :=
  emit (EvWrite addr payload) ;;; ret (WriteErr conn).

Definition conn_Close (addr : string) : M unit := emit (EvClose addr).

Definition time_Now (w : World) : M time.Time :=
  fun s =>
    (Returns (Now w (clock s)),
     mkState (expiredCertsGauge s) (discoveredCertsGauge s)
             (hearthbeatCounter s) (trace s ++ [EvNow])
             (lists s) (dials s) (S (clock s))).

Definition time_Sleep (d : time.Duration) : M unit := emit (EvSleep d).

(** [clientset.CoreV1().Services("").List(...)]. *)
Definition listServices (w : World) : M (result (list Service)) :=
  fun s =>
    (Returns (List_ w (lists s)),
     mkState (expiredCertsGauge s) (discoveredCertsGauge s)
             (hearthbeatCounter s) (trace s ++ [EvList])
             (S (lists s)) (dials s) (clock s)).

(** ** The three collectors *)

(** The first of the label values that is not valid UTF-8, if any. *)
Definition invalidLabelValue (labels : Labels) : option string :=
  let '(namespace, service, port, issuer, serialnumber) := labels in
  List.find (fun val => negb (utf8.ValidString val))
            [namespace; service; port; issuer; serialnumber].

(** [expiredCertsGauge.WithLabelValues(...).Set(v)].  [WithLabelValues]
    "panics where GetMetricWithLabelValues would have returned an error",
    and that is when a label value is not valid UTF-8 (the number of
    values is the right one); otherwise the series with these label
    values is created if need be and holds [v] from now on. *)
Definition expiredCertsGauge_Set (labels : Labels) (v : float64) : M unit :=
  fun s =>
    match invalidLabelValue labels with
    | Some val => (Panics (InvalidLabelValue val), s)
    | None =>
        (Returns tt,
         mkState (<[labels := v]> (expiredCertsGauge s))
                 (discoveredCertsGauge s) (hearthbeatCounter s)
                 (trace s ++ [EvExpirationSet labels v])
                 (lists s) (dials s) (clock s))
    end.

Definition discoveredCertsGauge_Set (v : float64) : M unit :=
  fun s =>
    (Returns tt,
     mkState (expiredCertsGauge s) v (hearthbeatCounter s)
             (trace s ++ [EvDiscoveredSet v])
             (lists s) (dials s) (clock s)).

Definition hearthbeatCounter_Inc : M unit :=
  fun s =>
    (Returns tt,
     mkState (expiredCertsGauge s) (discoveredCertsGauge s)
             (hearthbeatCounter s + 1) (trace s ++ [EvHeartbeatInc])
             (lists s) (dials s) (clock s)).

(* ===================================================================== *)
(** * [testTLS]                                                           *)
(* ===================================================================== *)

(** [fmt.Sprintf("%s.%s.svc.cluster.local:%d", svc, namespace, port)]. *)
Definition fullhostnameOf (svc namespace : string) (port : Z) : string :=
  svc +:+ "." +:+ namespace +:+ ".svc.cluster.local:" +:+ strconv.Itoa port.

(** The label values of the series a certificate is published under. *)
Definition labelValues (namespace svc : string) (port : Z) (cert : Certificate)
    : Labels :=
  (namespace, svc, strconv.Itoa port,
   CommonName (Issuer cert), SerialNumber (Issuer cert)).

(** The body of [for _, cert := range certs]. *)
Fixpoint rangeCerts (w : World) (svc namespace : string) (port : Z)
    (certs : list Certificate)
    (certsExpiryDates : list (option time.Time)) (discoveredTLScerts : Z)
    : M (list (option time.Time) * Z) :=
  match certs with
  | [] => ret (certsExpiryDates, discoveredTLScerts)
  | cert :: certs' =>
      let discoveredTLScerts := wrapInt (discoveredTLScerts + 1) in
      let certsExpiryDates := certsExpiryDates ++ [Some (NotAfter cert)] in
      now <- time_Now w ;;
      let timeToExpiration := time.Sub (NotAfter cert) now in
      expiredCertsGauge_Set (labelValues namespace svc port cert)
                            (time.Seconds timeToExpiration) ;;;
      rangeCerts w svc namespace port certs' certsExpiryDates discoveredTLScerts
  end.

(** The payload ["ping\n"]. *)
Definition ping : string := "ping" +:+ String "010"%char "".

(** [testTLS(tlsTimeout, svc, namespace, port)].  The ten empty strings
    that [make([]string, 10)] puts in front of the expiry dates are the
    ten [None]. *)
Definition testTLS (w : World) (tlsTimeout : time.Duration)
    (svc namespace : string) (port : Z) : M (bool * Z) :=
  let fullhostname := fullhostnameOf svc namespace port in
  dialled <- tls_DialWithDialer w tlsTimeout "tcp" fullhostname true ;;
  match dialled with
  | Err err =>
      Errorf (CouldNotStart fullhostname err) ;;;
      ret (false, 0)
  | Ok conn =>
      defer (conn_Close fullhostname)
        (werr <- conn_Write fullhostname conn ping ;;
         match werr with
         | Some err =>
             Errorf (CouldNotSend fullhostname err) ;;;
             ret (false, 0)
         | None =>
             let certs := PeerCertificates conn in
             looped <- rangeCerts w svc namespace port certs
                                  (repeat None 10) 0 ;;
             Infof (ConnectionSuccessful fullhostname (fst looped)) ;;;
             ret (true, snd looped)
         end)
  end.

(* ===================================================================== *)
(** * [discoverServices]                                                  *)
(* ===================================================================== *)

(** The namespace filter, [skipNamespaceRegex != "" && r.Match([]byte(ns))]. *)
Definition shouldSkip (skipNamespaceRegex : string) (r : regexp.Regexp)
    (ns : string) : bool :=
  negb (String.eqb skipNamespaceRegex "") && regexp.Match r ns.

(** [for _, port := range ports]. *)
Fixpoint rangePorts (w : World) (tlsTimeout : time.Duration)
    (svcName ns : string) (ports : list Z) (discoveredTLScertificates : Z)
    : M Z :=
  match ports with
  | [] => ret discoveredTLScertificates
  | port :: ports' =>
      probed <- testTLS w tlsTimeout svcName ns port ;;
      let '(ok, certsNum) := probed in
      rangePorts w tlsTimeout svcName ns ports'
        (if ok then wrapInt (discoveredTLScertificates + certsNum)
         else discoveredTLScertificates)
  end.

(** [for _, svc := range services.Items]. *)
Fixpoint rangeServices (w : World) (tlsTimeout : time.Duration)
    (skipNamespaceRegex : string) (r : regexp.Regexp)
    (items : list Service) (discoveredTLScertificates : Z) : M Z :=
  match items with
  | [] => ret discoveredTLScertificates
  | svc :: items' =>
      let ports := Ports svc in
      let ns := GetNamespace svc in
      let svcName := GetName svc in
      if shouldSkip skipNamespaceRegex r ns
      then
        Infof (Skipping svcName ns) ;;;
        rangeServices w tlsTimeout skipNamespaceRegex r items'
                      discoveredTLScertificates
      else
        found <- rangePorts w tlsTimeout svcName ns ports
                            discoveredTLScertificates ;;
        rangeServices w tlsTimeout skipNamespaceRegex r items' found
  end.

(** One scan cycle, from the service list to the sleep. *)
Definition scanCycle (w : World) (discoverFrequency tlsTimeout : time.Duration)
    (skipNamespaceRegex : string) (r : regexp.Regexp)
    (items : list Service) : M unit :=
  Infof (Scanning (length items)) ;;;
  discoveredTLScertificates <-
    rangeServices w tlsTimeout skipNamespaceRegex r items 0 ;;
  discoveredCertsGauge_Set (float64_of_int discoveredTLScertificates) ;;;
  hearthbeatCounter_Inc ;;;
  Infof (Sleeping discoverFrequency) ;;;
  time_Sleep discoverFrequency.

(** One turn of the [for { ... }] of [discoverServices]. *)
Definition iteration (w : World) (discoverFrequency tlsTimeout : time.Duration)
    (skipNamespaceRegex : string) (r : regexp.Regexp) : M unit :=
  services <- listServices w ;;
  match services with
  | Err err => panic (ListFailed err)
  | Ok items =>
      scanCycle w discoverFrequency tlsTimeout skipNamespaceRegex r items
  end.

(** What has become of the process: it panicked, or it is still looping
    after the cycles it was watched for. *)
Inductive Outcome : Type :=
| Panicked (cause : PanicCause) (s : State)
| Running (s : State).

(** The [for { ... }] of [discoverServices], unrolled [cycles] times. *)
Fixpoint scanLoop (cycles : nat) (w : World)
    (discoverFrequency tlsTimeout : time.Duration)
    (skipNamespaceRegex : string) (r : regexp.Regexp) (s : State) : Outcome :=
  match cycles with
  | O => Running s
  | S cycles' =>
      match iteration w discoverFrequency tlsTimeout skipNamespaceRegex r s
      with
      | (Returns _, s') =>
          scanLoop cycles' w discoverFrequency tlsTimeout skipNamespaceRegex
                   r s'
      | (Panics cause, s') => Panicked cause s'
      end
  end.

(** [discoverServices(discoverFrequency, tlsTimeout, skipNamespaceRegex)],
    watched for [cycles] cycles.  When [regexp.Compile] fails on the empty
    pattern [r] is nil and never used; a pattern that matches nothing
    stands for it. *)
Definition discoverServices (cycles : nat) (w : World)
    (discoverFrequency tlsTimeout : time.Duration)
    (skipNamespaceRegex : string) (s : State) : Outcome :=
  match InClusterConfig w with
  | Some err => Panicked (InClusterConfigFailed err) s
  | None =>
      match NewForConfig w with
      | Some err => Panicked (NewForConfigFailed err) s
      | None =>
          match regexp.Compile (RegexpRest w) skipNamespaceRegex with
          | regexp.CompileError err =>
              if negb (String.eqb skipNamespaceRegex "")
              then Panicked (RegexpCompileFailed err) s
              else scanLoop cycles w discoverFrequency tlsTimeout
                            skipNamespaceRegex
                            (regexp.Program syntax.NoMatch) s
          | regexp.Compiled r =>
              scanLoop cycles w discoverFrequency tlsTimeout
                       skipNamespaceRegex r s
          end
      end
  end.

(* ===================================================================== *)
(** * The vocabulary of the statements                                   *)
(* ===================================================================== *)

(** The chain a probe obtains, if it obtains one: the [n]-th dial of the
    world must succeed and so must the write that follows. *)
Definition probedChain (w : World) (tlsTimeout : time.Duration) (n : nat)
    (svc namespace : string) (port : Z) : option (list Certificate) :=
  match DialWithDialer w n tlsTimeout (fullhostnameOf svc namespace port) with
  | Ok conn =>
      match WriteErr conn with
      | None => Some (PeerCertificates conn)
      | Some _ => None
      end
  | Err _ => None
  end.

(** The certificates of a chain that are published: those before the
    first one with a label value that is not valid UTF-8. *)
Fixpoint published (namespace svc : string) (port : Z)
    (certs : list Certificate) : list Certificate :=
  match certs with
  | [] => []
  | cert :: certs' =>
      match invalidLabelValue (labelValues namespace svc port cert) with
      | None => cert :: published namespace svc port certs'
      | Some _ => []
      end
  end.

(** The label value that stops the publication of a chain, if any. *)
Fixpoint refused (namespace svc : string) (port : Z)
    (certs : list Certificate) : option string :=
  match certs with
  | [] => None
  | cert :: certs' =>
      match invalidLabelValue (labelValues namespace svc port cert) with
      | None => refused namespace svc port certs'
      | Some val => Some val
      end
  end.

(** The series a chain is published to and the values they receive, when
    the clock is first read at tick [tick]. *)
Fixpoint certWrites (w : World) (namespace svc : string) (port : Z)
    (tick : nat) (certs : list Certificate) : list (Labels * float64) :=
  match certs with
  | [] => []
  | cert :: certs' =>
      (labelValues namespace svc port cert,
       time.Seconds (time.Sub (NotAfter cert) (Now w tick)))
      :: certWrites w namespace svc port (S tick) certs'
  end.

Definition setSeries (m : gmap Labels float64) (kv : Labels * float64)
    : gmap Labels float64 :=
  <[fst kv := snd kv]> m.

Definition writeEvents (kv : Labels * float64) : list Event :=
  [EvNow; EvExpirationSet (fst kv) (snd kv)].

(** The updates of [expiredCertsGauge] recorded in a trace, in order. *)
Definition expirationSets (evs : list Event) : list (Labels * float64) :=
  flat_map (fun e => match e with
                     | EvExpirationSet k v => [(k, v)]
                     | _ => []
                     end) evs.

(** The value most recently written under [k], if any. *)
Fixpoint lastWrite (k : Labels) (writes : list (Labels * float64))
    : option float64 :=
  match writes with
  | [] => None
  | (k', v) :: writes' =>
      match lastWrite k writes' with
      | Some v' => Some v'
      | None => if decide (k' = k) then Some v else None
      end
  end.

Definition inIntRange (z : Z) : Prop := - 2 ^ 63 <= z <= maxInt.

(** How far [Duration.Seconds] is from the exact number of seconds,
    relatively: two roundings, [2^-51] at most. *)
Definition tolerance : Q := 1 # 2251799813685248.

(** What [testTLS] returns, from the chain the probe obtained. *)
Definition probeResult (chain : option (list Certificate)) : bool * Z :=
  match chain with
  | Some certs => (true, wrapInt (Z.of_nat (length certs)))
  | None => (false, 0)
  end.

(** A target: service name, namespace, port. *)
Definition Target : Type := (string * string * Z)%type.

(** How the probe of a target ends, from the chain it obtained. *)
Definition probeCompletion (target : Target)
    (chain : option (list Certificate)) : Completion (bool * Z) :=
  let '(svc, ns, port) := target in
  match chain with
  | Some certs =>
      match refused ns svc port certs with
      | None => Returns (probeResult chain)
      | Some val => Panics (InvalidLabelValue val)
      end
  | None => Returns (probeResult chain)
  end.

Definition panicked {A : Type} (completion : Completion A) : bool :=
  match completion with
  | Returns _ => false
  | Panics _ => true
  end.

(** The events of the inside of a cycle: everything but the service
    listing, the two end-of-cycle metric updates and the sleep. *)
Definition withinCycle (e : Event) : bool :=
  match e with
  | EvList | EvDiscoveredSet _ | EvHeartbeatInc | EvSleep _ => false
  | _ => true
  end.

(** [Framed s s' n]: from [s] to [s'] the world was dialled [n] times, and
    nothing was done but probing and logging. *)
Definition Framed (s s' : State) (n : nat) : Prop :=
  dials s' = (dials s + n)%nat /\
  lists s' = lists s /\
  hearthbeatCounter s' = hearthbeatCounter s /\
  discoveredCertsGauge s' = discoveredCertsGauge s /\
  exists evs, trace s' = trace s ++ evs /\ forallb withinCycle evs = true.

(** The targets of a cycle, in probing order: every port of every service
    whose namespace the filter lets through. *)
Definition targetsOf (skipNamespaceRegex : string) (r : regexp.Regexp)
    (items : list Service) : list Target :=
  flat_map (fun svc =>
              if shouldSkip skipNamespaceRegex r (GetNamespace svc) then []
              else map (fun port => (GetName svc, GetNamespace svc, port))
                       (Ports svc))
           items.

(** The chains the probes of [targets] obtain when the first of them is
    the [n]-th dial: [None] for a probe that fails. *)
Fixpoint probeOutcomes (w : World) (tlsTimeout : time.Duration) (n : nat)
    (targets : list Target) : list (option (list Certificate)) :=
  match targets with
  | [] => []
  | (svc, ns, port) :: targets' =>
      probedChain w tlsTimeout n svc ns port
      :: probeOutcomes w tlsTimeout (S n) targets'
  end.

(** Every label value that the probes of [targets] publish is valid
    UTF-8, so that the registry takes them all. *)
Fixpoint labelsValid (targets : list Target)
    (outcomes : list (option (list Certificate))) : bool :=
  match targets, outcomes with
  | (svc, ns, port) :: targets', Some certs :: outcomes' =>
      match refused ns svc port certs with
      | None => labelsValid targets' outcomes'
      | Some _ => false
      end
  | _ :: targets', None :: outcomes' => labelsValid targets' outcomes'
  | _, _ => true
  end.

(** The names that the cluster lists and the issuer names that the
    network presents are all valid UTF-8. *)
Definition ValidNames (w : World) : Prop :=
  (forall n items svc,
     List_ w n = Ok items -> In svc items ->
     utf8.ValidString (GetName svc) = true /\
     utf8.ValidString (GetNamespace svc) = true) /\
  (forall n timeout addr conn cert,
     DialWithDialer w n timeout addr = Ok conn ->
     In cert (PeerCertificates conn) ->
     utf8.ValidString (CommonName (Issuer cert)) = true /\
     utf8.ValidString (SerialNumber (Issuer cert)) = true).

(** The chains of the probes that succeeded. *)
Definition successfulChains (outcomes : list (option (list Certificate)))
    : list (list Certificate) :=
  flat_map (fun o => match o with
                     | Some certs => [certs]
                     | None => []
                     end) outcomes.

(** The certificates of the successful probes, summed. *)
Definition certsFound (outcomes : list (option (list Certificate))) : Z :=
  fold_right Z.add 0
    (map (fun certs => Z.of_nat (length certs)) (successfulChains outcomes)).


(** The addresses dialled in a trace, in order. *)
Definition dialled (evs : list Event) : list string :=
  flat_map (fun e => match e with
                     | EvDial _ _ addr _ => [addr]
                     | _ => []
                     end) evs.

Definition addressOf (target : Target) : string :=
  let '(svc, ns, port) := target in fullhostnameOf svc ns port.

(** The lines logged in a trace, in order. *)
Definition logged (evs : list Event) : list Event :=
  List.filter (fun e => match e with
                        | EvErrorf _ | EvInfof _ => true
                        | _ => false
                        end) evs.

(** ** Patterns without operators *)

(** The bytes that the parser reads as operators. *)
Definition operatorBytes : list ascii :=
  ["("; ")"; "|"; "*"; "+"; "?"; "."; "^"; "$"; "\"; "["; "{"]%char.

(** An ASCII byte that stands for itself in a pattern. *)
Definition plainByte (c : ascii) : bool :=
  syntax.isASCII c && negb (existsb (Ascii.eqb c) operatorBytes).

(** Is the process still running, and the state it is in or died in. *)
Definition running (o : Outcome) : bool :=
  match o with
  | Running _ => true
  | Panicked _ _ => false
  end.

Definition ended (o : Outcome) : State :=
  match o with
  | Running s | Panicked _ s => s
  end.

(** ** The order of the observable actions *)

(** Where the process stands, as far as its trace and the world tell. *)
Inductive Phase : Type :=
| Idle
| Listed (items : list Service)
| Probing
| DialFailed (addr err : string)
| Connected (addr : string) (conn : Conn)
| WriteFailed (addr err : string)
| Reading (addr : string) (certs : list Certificate)
| Measuring (addr : string) (cert : Certificate) (certs : list Certificate)
| Closing (addr : string)
| Published
| Beaten
| Drowsy
| Dead
| Crashed.

(** A watcher of the trace: the phase, and how many listings and dials it
    has seen, which tell it what the world answered to each. *)
Record Watch : Type := mkWatch { phase : Phase; listed : nat; dialed : nat }.

Definition issuedBy (labels : Labels) (cert : Certificate) : bool :=
  let '(_, _, _, issuer, serialnumber) := labels in
  String.eqb issuer (CommonName (Issuer cert))
  && String.eqb serialnumber (SerialNumber (Issuer cert)).

(** The actions allowed in each phase and where they lead, for a process
    configured with [tlsTimeout] and [discoverFrequency] in the world [w];
    [None] is an action out of order.  [Dead] is the end of a process that
    panicked on a failed listing and [Crashed] of one that panicked while
    publishing a chain, its connection closed; nothing follows them. *)
Definition step (w : World) (discoverFrequency tlsTimeout : time.Duration)
    (m : Watch) (e : Event) : option Watch :=
  let to p := Some (mkWatch p (listed m) (dialed m)) in
  match phase m, e with
  | Idle, EvList =>
      Some (mkWatch (match List_ w (listed m) with
                     | Ok items => Listed items
                     | Err _ => Dead
                     end) (S (listed m)) (dialed m))
  | Listed items, EvInfof (Scanning n) =>
      if (n =? length items)%nat then to Probing else None
  | Probing, EvInfof (Skipping _ _) => to Probing
  | Probing, EvDial timeout network addr insecure =>
      if (timeout =? tlsTimeout) && String.eqb network "tcp" && insecure
      then Some (mkWatch (match DialWithDialer w (dialed m) timeout addr with
                          | Ok conn => Connected addr conn
                          | Err err => DialFailed addr err
                          end) (listed m) (S (dialed m)))
      else None
  | Probing, EvDiscoveredSet _ => to Published
  | DialFailed addr err, EvErrorf (CouldNotStart host err') =>
      if String.eqb host addr && String.eqb err' err then to Probing else None
  | Connected addr conn, EvWrite host payload =>
      if String.eqb host addr && String.eqb payload ping
      then to (match WriteErr conn with
               | Some err => WriteFailed addr err
               | None => Reading addr (PeerCertificates conn)
               end)
      else None
  | WriteFailed addr err, EvErrorf (CouldNotSend host err') =>
      if String.eqb host addr && String.eqb err' err
      then to (Closing addr) else None
  | Reading addr (cert :: certs), EvNow => to (Measuring addr cert certs)
  | Measuring addr cert certs, EvExpirationSet labels _ =>
      if issuedBy labels cert then to (Reading addr certs) else None
  | Measuring addr _ _, EvClose host =>
      if String.eqb host addr then to Crashed else None
  | Reading addr [], EvInfof (ConnectionSuccessful host _) =>
      if String.eqb host addr then to (Closing addr) else None
  | Closing addr, EvClose host =>
      if String.eqb host addr then to Probing else None
  | Published, EvHeartbeatInc => to Beaten
  | Beaten, EvInfof (Sleeping d) =>
      if d =? discoverFrequency then to Drowsy else None
  | Drowsy, EvSleep d => if d =? discoverFrequency then to Idle else None
  | _, _ => None
  end.

Fixpoint run (w : World) (discoverFrequency tlsTimeout : time.Duration)
    (m : Watch) (evs : list Event) : option Watch :=
  match evs with
  | [] => Some m
  | e :: evs' =>
      match step w discoverFrequency tlsTimeout m e with
      | Some m' => run w discoverFrequency tlsTimeout m' evs'
      | None => None
      end
  end.

(** The watcher of a process in state [s]. *)
Definition watching (p : Phase) (s : State) : Watch :=
  mkWatch p (lists s) (dials s).

(** From [s] to [s'] the process went through whole probes and skips
    only, each in order, and is ready for the next, or it panicked while
    publishing a chain and closed the connection. *)
Definition Watched (w : World) (discoverFrequency tlsTimeout : time.Duration)
    (crashed : bool) (s s' : State) : Prop :=
  exists evs,
    trace s' = trace s ++ evs /\
    run w discoverFrequency tlsTimeout (watching Probing s) evs
    = Some (watching (if crashed then Crashed else Probing) s').

(** From [s] to [s'] the expiration gauge changed by the updates in the
    trace and by nothing else. *)
Definition Replayed (s s' : State) : Prop :=
  exists evs,
    trace s' = trace s ++ evs /\
    expiredCertsGauge s'
    = fold_left setSeries (expirationSets evs) (expiredCertsGauge s).

(** Two runs that made the same listings, the same number of heartbeats
    and dialled the same addresses in the same order. *)
Definition SameSchedule (s1 s2 s1' s2' : State) : Prop :=
  hearthbeatCounter s1' = hearthbeatCounter s2' /\
  lists s1' = lists s2' /\
  exists evs1 evs2,
    trace s1' = trace s1 ++ evs1 /\
    trace s2' = trace s2 ++ evs2 /\
    dialled evs1 = dialled evs2.

(** ** A small cluster to run the model on *)

Definition leafCert : Certificate :=
  mkCert (mkName "intermediate-ca" "7") (time.Unix 1800000000 0).

Definition intermediateCert : Certificate :=
  mkCert (mkName "root-ca" "1") (time.Unix 1900000000 0).

Definition expiredCert : Certificate :=
  mkCert (mkName "old-ca" "3") (time.Unix 1700000000 0).

(** Not after 9999-12-31T23:59:59Z, the date RFC 5280 gives to a
    certificate with no well-defined expiration. *)
Definition foreverCert : Certificate :=
  mkCert (mkName "device-ca" "42") (time.Unix 253402300799 0).

(** A certificate whose issuer's common name is the Latin-1 bytes of
    [Société], as a [T61String] holds them: [0xE9] starts no UTF-8
    encoding here. *)
Definition latin1Cert : Certificate :=
  mkCert (mkName ("Soci" +:+ String "233"%char ("t" +:+ String "233"%char ""))
                 "9")
         (time.Unix 1800000000 0).

Definition exampleItems : list Service :=
  [mkService "api" "default" [443; 8080];
   mkService "kube-dns" "kube-system" [53];
   mkService "ledger" "payments" [443]].

(** Does the text contain a lower-case letter followed by [-system]? *)
Fixpoint lowerThenSystem (b : string) : bool :=
  match b with
  | EmptyString => false
  | String c rest =>
      ((97 <=? N_of_ascii c)%N && (N_of_ascii c <=? 122)%N
       && String.prefix "-system" rest)
      || lowerThenSystem rest
  end.

(** The rest of the package on the two patterns of the examples that
    the parser does not cover: a bracket class, and a bracket class that
    is not closed.  Its answer on any other pattern stands for nothing,
    and no example relies on it. *)
Definition exampleRest : regexp.Rest :=
  fun expr =>
    if String.eqb expr "[a-z]+-system" then Ok lowerThenSystem
    else if String.eqb expr "[a-z"
    then Err "error parsing regexp: missing closing ]: `[a-z`"
    else Err "not a pattern of the examples".

(** The API server answers; [api] serves TLS on 443 only; [ledger] presents
    an expired certificate; [vault] accepts the handshake and then
    resets the connection; [hsm] presents a certificate that never
    expires.  The clock stands at 2026-11-02T00:00:00Z. *)
Definition exampleWorld : World :=
  mkWorld None None
    (fun _ => Ok exampleItems)
    (fun _ _ addr =>
       if String.eqb addr "api.default.svc.cluster.local:443"
       then Ok (mkConn [leafCert; intermediateCert] None)
       else if String.eqb addr "ledger.payments.svc.cluster.local:443"
       then Ok (mkConn [expiredCert] None)
       else if String.eqb addr "vault.default.svc.cluster.local:8200"
       then Ok (mkConn [leafCert] (Some "connection reset by peer"))
       else if String.eqb addr "hsm.default.svc.cluster.local:443"
       then Ok (mkConn [foreverCert] None)
       else Err "connection refused")
    (fun _ => time.Unix 1793577600 0)
    exampleRest.

(** The same cluster seen from a place where no service can be reached. *)
Definition unreachableWorld : World :=
  mkWorld None None
    (List_ exampleWorld)
    (fun _ _ _ => Err "i/o timeout")
    (Now exampleWorld)
    exampleRest.

(** The same cluster when the API server stops answering in the third
    cycle. *)
Definition outageWorld : World :=
  mkWorld None None
    (fun n => if (n <? 2)%nat then Ok exampleItems
              else Err "etcdserver: request timed out")
    (DialWithDialer exampleWorld)
    (Now exampleWorld)
    exampleRest.

(** The same cluster once the service [legacy] has been added to it,
    which presents a chain whose second certificate was issued under a
    Latin-1 name. *)
Definition legacyItems : list Service :=
  exampleItems ++ [mkService "legacy" "default" [443]].

Definition legacyWorld : World :=
  mkWorld None None
    (fun _ => Ok legacyItems)
    (fun n timeout addr =>
       if String.eqb addr "legacy.default.svc.cluster.local:443"
       then Ok (mkConn [leafCert; latin1Cert; intermediateCert] None)
       else DialWithDialer exampleWorld n timeout addr)
    (Now exampleWorld)
    exampleRest.

Definition kubePrefix : regexp.Regexp :=
  Eval vm_compute in
    match regexp.Compile exampleRest "^kube-" with
    | regexp.Compiled re => re
    | _ => regexp.Program syntax.NoMatch
    end.

(* ===================================================================== *)
(** * The matcher finds exactly the matches                               *)
(* ===================================================================== *)

Section MatcherCorrect.
Import syntax regexp.
Local Open Scope nat_scope.

Variable t : list utf8.rune.

Lemma Matches_bounds r i j : Matches t r i j -> i <= j <= length t.
Proof.
  induction 1; try lia.
  assert (i < length t) by (apply nth_error_Some; congruence). lia.
Qed.

Lemma Star_of_Plus r i j : Matches t (Plus r) i j -> Matches t (Star r) i j.
Proof.
  intros H. remember (Plus r) as p eqn:Hp.
  induction H; inversion Hp; subst.
  - eapply MStarCons; [eassumption |].
    apply MStarNil. eapply Matches_bounds; eassumption.
  - eapply MStarCons; [eassumption | auto].
Qed.

Lemma Plus_of_Star r i j k :
  Matches t r i j -> Matches t (Star r) j k -> Matches t (Plus r) i k.
Proof.
  intros H1 H2. revert i H1. remember (Star r) as p eqn:Hp.
  induction H2; inversion Hp; subst; intros i0 H1.
  - now apply MPlusOne.
  - eapply MPlusCons; [exact H1 |]. now apply IHMatches2.
Qed.

(** A regexp that is nullable at a position matches the empty string
    there, and conversely. *)
Lemma nullable_Matches r i :
  i <= length t ->
  nullable (i =? 0) (i =? length t) r = true -> Matches t r i i.
Proof.
  intros Hi. induction r; simpl; intros H; try discriminate.
  - now constructor.
  - apply Nat.eqb_eq in H. subst. constructor.
  - apply Nat.eqb_eq in H. rewrite H. constructor.
  - apply andb_true_iff in H as [H1 H2]. econstructor; eauto.
  - apply orb_true_iff in H as [H1 | H2];
      [apply MAltL | apply MAltR]; auto.
  - now constructor.
  - apply MPlusOne; auto.
  - now constructor.
Qed.

Lemma Matches_nullable r i j :
  Matches t r i j -> i = j ->
  nullable (i =? 0) (i =? length t) r = true.
Proof.
  induction 1; simpl; intros E; subst; auto.
  - lia.
  - apply Nat.eqb_refl.
  - apply Matches_bounds in H, H0.
    assert (j = k) by lia. subst. rewrite IHMatches1, IHMatches2; auto.
  - rewrite IHMatches; auto.
  - rewrite IHMatches, orb_true_r; auto.
  - apply Matches_bounds in H, H0.
    assert (j = k) by lia. subst. auto.
Qed.

Lemma nullable_inside r i :
  i < length t ->
  nullable (i =? 0) false r = nullable (i =? 0) (i =? length t) r.
Proof.
  intros Hi. replace (i =? length t) with false; [reflexivity |].
  symmetry. apply Nat.eqb_neq. lia.
Qed.

(** The derivative matches what the regexp matches after the byte. *)
Lemma deriv_sound r : forall i j c,
  nth_error t i = Some c ->
  Matches t (deriv (i =? 0) c r) (S i) j -> Matches t r i j.
Proof.
  induction r; simpl; intros i j c Hc H; try (inversion H; fail).
  - destruct (inClass cls c) eqn:Hcls; inversion H; subst.
    econstructor; eassumption.
  - assert (Hi : i < length t) by (apply nth_error_Some; congruence).
    destruct (nullable (i =? 0) false r1) eqn:Hn.
    + inversion H as [| | | | | ? ? ? ? HL | ? ? ? ? HR | | | | | |]; subst.
      * inversion HL; subst. econstructor; eauto.
      * econstructor; [| eapply IHr2; eassumption].
        apply nullable_Matches; [lia |].
        now rewrite <- nullable_inside.
    + inversion H; subst. econstructor; eauto.
  - inversion H; subst; [apply MAltL | apply MAltR]; eauto.
  - inversion H; subst. eapply MStarCons; eauto.
  - inversion H; subst. eapply Plus_of_Star; eauto.
  - apply MQuestSome; eauto.
Qed.

Lemma deriv_complete r i j :
  Matches t r i j -> forall c, nth_error t i = Some c -> i < j ->
  Matches t (deriv (i =? 0) c r) (S i) j.
Proof.
  induction 1; simpl; intros c0 Hc Hlt; try lia.
  - assert (c0 = c) by congruence. subst. rewrite H0.
    constructor. apply Matches_bounds in H1 || idtac.
    assert (i < length t) by (apply nth_error_Some; congruence). lia.
  - assert (Hi : i < length t) by (apply nth_error_Some; congruence).
    destruct (Nat.eq_dec i j) as [-> | Hne].
    + rewrite (nullable_inside _ _ Hi).
      rewrite (Matches_nullable _ _ _ H eq_refl).
      apply MAltR. auto.
    + assert (Hij : i < j) by (apply Matches_bounds in H; lia).
      destruct (nullable (i =? 0) false r1).
      * apply MAltL. econstructor; eauto.
      * econstructor; eauto.
  - apply MAltL; auto.
  - apply MAltR; auto.
  - destruct (Nat.eq_dec i j) as [-> | Hne].
    + apply (IHMatches2 c0 Hc Hlt).
    + assert (Hij : i < j) by (apply Matches_bounds in H; lia).
      econstructor; eauto.
  - econstructor; eauto.
    apply MStarNil. apply Matches_bounds in H. lia.
  - destruct (Nat.eq_dec i j) as [-> | Hne].
    + apply (IHMatches2 c0 Hc Hlt).
    + assert (Hij : i < j) by (apply Matches_bounds in H; lia).
      econstructor; eauto. now apply Star_of_Plus.
  - auto.
Qed.

Lemma skipn_cons_inv {A : Type} (l : list A) : forall i c s,
  skipn i l = c :: s ->
  nth_error l i = Some c /\ skipn (S i) l = s /\ i < length l.
Proof.
  induction l as [| a l IH]; intros [| i] c s H; simpl in *;
    try discriminate.
  - inversion H; subst. repeat split; auto. lia.
  - destruct (IH _ _ _ H) as (H1 & H2 & H3). repeat split; auto. lia.
Qed.

Lemma skipn_nil_inv {A : Type} (l : list A) : forall i,
  skipn i l = [] -> length l <= i.
Proof.
  induction l as [| a l IH]; intros [| i] H; simpl in *;
    try discriminate; try lia.
  apply IH in H. lia.
Qed.

Lemma matchPrefix_spec : forall s i r,
  skipn i t = s -> i <= length t ->
  (matchPrefix (i =? 0) r s = true <-> exists j, Matches t r i j).
Proof.
  induction s as [| c s IH]; intros i r Hs Hi; simpl.
  - apply skipn_nil_inv in Hs. assert (i = length t) by lia.
    split.
    + intros H0. exists i. apply nullable_Matches; [lia |].
      replace (i =? length t) with true; [exact H0 |].
      symmetry. now apply Nat.eqb_eq.
    + intros [j Hj]. pose proof (Matches_bounds _ _ _ Hj).
      assert (i = j) by lia.
      pose proof (Matches_nullable _ _ _ Hj H1) as Hn.
      replace (i =? length t) with true in Hn; [exact Hn |].
      symmetry. now apply Nat.eqb_eq.
  - apply skipn_cons_inv in Hs as (Hc & Hs & Hlt).
    specialize (IH (S i) (deriv (i =? 0) c r) Hs Hlt). simpl in IH.
    rewrite orb_true_iff, IH. split.
    + intros [Hn | [j Hj]].
      * exists i. apply nullable_Matches; [lia |].
        now rewrite <- nullable_inside.
      * exists j. eapply deriv_sound; eassumption.
    + intros [j Hj]. destruct (Nat.eq_dec i j) as [<- | Hne].
      * left. rewrite nullable_inside by lia.
        eapply Matches_nullable; eauto.
      * right. exists j. apply deriv_complete; auto.
        apply Matches_bounds in Hj. lia.
Qed.

Lemma search_spec r : forall s i,
  skipn i t = s -> i <= length t ->
  (search (i =? 0) r s = true <->
   exists i' j, i <= i' /\ Matches t r i' j).
Proof.
  induction s as [| c s IH]; intros i Hs Hi; simpl;
    rewrite orb_true_iff, (matchPrefix_spec _ i r Hs Hi).
  - apply skipn_nil_inv in Hs. split.
    + intros [[j Hj] | Hf]; [| discriminate]. exists i, j. auto.
    + intros (i' & j & Hle & Hm). left.
      pose proof (Matches_bounds _ _ _ Hm).
      assert (i' = i) by lia. subst. eauto.
  - destruct (skipn_cons_inv _ _ _ _ Hs) as (Hc & Hs' & Hlt).
    specialize (IH (S i) Hs' Hlt). simpl in IH. rewrite IH. split.
    + intros [[j Hj] | (i' & j & Hle & Hm)].
      * exists i, j. auto.
      * exists i', j. split; [lia | auto].
    + intros (i' & j & Hle & Hm).
      destruct (Nat.eq_dec i i') as [<- | Hne].
      * left. eauto.
      * right. exists i', j. split; [lia | auto].
Qed.

End MatcherCorrect.


(** [Match] is true exactly when the pattern matches somewhere. *)
Lemma Match_spec (r : regexp.Regexp) (b : string) :
  regexp.Match r b = true <-> regexp.MatchesAnywhere r b.
Proof.
  destruct r as [re | contains]; [| reflexivity].
  unfold regexp.Match, regexp.MatchesAnywhere.
  rewrite (search_spec (utf8.runes (utf8.bytes b)) re _ 0%nat eq_refl)
    by (apply Nat.le_0_l).
  split.
  - intros (i & j & _ & H). eauto.
  - intros (i & j & H). exists i, j. split; [apply Nat.le_0_l | exact H].
Qed.

(** ** The parser and the matcher on a few patterns *)

Example Compile_anchored_prefix (rest : regexp.Rest) :
  regexp.Compile rest "^kube-" = regexp.Compiled kubePrefix.
Proof. reflexivity. Qed.

Example Compile_group_and_alternation (rest : regexp.Rest) :
  regexp.Compile rest "^(dev|qa)-.*$"
  = regexp.Compiled
      (regexp.Program
         (syntax.Concat
            (syntax.Concat
               (syntax.Concat
                  (syntax.Concat syntax.BeginText
                     (syntax.Alternate
                        (syntax.Concat
                           (syntax.Concat (syntax.literal "d")
                                          (syntax.literal "e"))
                           (syntax.literal "v"))
                        (syntax.Concat (syntax.literal "q")
                                       (syntax.literal "a"))))
                  (syntax.literal "-"))
               (syntax.Star (syntax.Char syntax.AnyCharNotNL)))
            syntax.EndText)).
Proof. reflexivity. Qed.

Example Compile_lazy_repetition (rest : regexp.Rest) :
  regexp.Compile rest "a+?"
  = regexp.Compiled (regexp.Program (syntax.Plus (syntax.literal "a"))).
Proof. reflexivity. Qed.

Example Compile_stacked_repetition (rest : regexp.Rest) :
  regexp.Compile rest "a**"
  = regexp.CompileError (regexp.SyntaxError syntax.ErrInvalidRepeatOp).
Proof. reflexivity. Qed.

Example Compile_repetition_of_nothing (rest : regexp.Rest) :
  regexp.Compile rest "kube|*"
  = regexp.CompileError (regexp.SyntaxError syntax.ErrMissingRepeatArgument).
Proof. reflexivity. Qed.

Example Compile_unclosed_group (rest : regexp.Rest) :
  regexp.Compile rest "^(kube-"
  = regexp.CompileError (regexp.SyntaxError syntax.ErrMissingParen).
Proof. reflexivity. Qed.

Example Compile_unopened_group (rest : regexp.Rest) :
  regexp.Compile rest "kube-)"
  = regexp.CompileError (regexp.SyntaxError syntax.ErrUnexpectedParen).
Proof. reflexivity. Qed.

Example Compile_trailing_backslash (rest : regexp.Rest) :
  regexp.Compile rest "kube\"
  = regexp.CompileError (regexp.SyntaxError syntax.ErrTrailingBackslash).
Proof. reflexivity. Qed.

(** A bracket class is for the rest of the package: it compiles when the
    rest compiles it and fails when the rest fails. *)
Example Compile_bracket_class (rest : regexp.Rest) :
  regexp.Compile rest "^[a-z]+$"
  = match rest "^[a-z]+$" with
    | Ok contains => regexp.Compiled (regexp.Foreign contains)
    | Err msg => regexp.CompileError (regexp.OtherError msg)
    end.
Proof. reflexivity. Qed.

Example Match_empty_pattern_everywhere :
  regexp.Match (regexp.Program syntax.EmptyMatch) "payments" = true.
Proof. reflexivity. Qed.

Example Match_infix (rest : regexp.Rest) :
  match regexp.Compile rest "-sys" with
  | regexp.Compiled re => regexp.Match re "kube-system"
  | _ => false
  end = true.
Proof. reflexivity. Qed.

Example Match_end_of_text (rest : regexp.Rest) :
  match regexp.Compile rest "kube$" with
  | regexp.Compiled re =>
      (regexp.Match re "kube-system", regexp.Match re "my-kube")
  | _ => (true, false)
  end = (false, true).
Proof. reflexivity. Qed.

(** The dot takes a whole rune, two bytes here, and a byte that is not
    UTF-8 as one rune. *)
Example Match_dot_takes_a_rune (rest : regexp.Rest) :
  match regexp.Compile rest "^.$" with
  | regexp.Compiled re =>
      (regexp.Match re (String "195" (String "169" "")),
       regexp.Match re (String "255" ""),
       regexp.Match re "ab")
  | _ => (false, false, true)
  end = (true, true, false).
Proof. reflexivity. Qed.

(* ===================================================================== *)
(** * Rounding                                                            *)
(* ===================================================================== *)

Section Rounding.
Import math.

(** The integer chosen is within one half of the quotient. *)
Lemma nearestEven_near num den :
  0 < den ->
  2 * (nearestEven num den * den) <= 2 * num + den /\
  2 * num <= 2 * (nearestEven num den * den) + den.
Proof.
  intros Hden. unfold nearestEven.
  pose proof (Z.div_mod num den ltac:(lia)) as Hdm.
  pose proof (Z.mod_pos_bound num den Hden) as Hr.
  destruct (Z.compare_spec (2 * (num mod den)) den) as [He | Hl | Hg];
    [destruct (Z.even (num / den)) |..]; nia.
Qed.

Lemma nearestEven_grows num den bound :
  0 < den -> bound * den <= num -> bound <= nearestEven num den.
Proof.
  intros Hden Hb. unfold nearestEven.
  assert (bound <= num / den) by (apply Z.div_le_lower_bound; lia).
  destruct (2 * (num mod den) ?= den); [destruct (Z.even (num / den)) |..];
    lia.
Qed.

Lemma inject_Z_nonzero z : z <> 0 -> ~ (inject_Z z == 0)%Q.
Proof. unfold Qeq. cbn. lia. Qed.

Lemma factor_pos k : (0 < factor k)%Q.
Proof.
  unfold factor. destruct (Z.leb_spec 0 k) as [Hk | Hk].
  - rewrite <- (Zlt_Qlt 0). apply Z.pow_pos_nonneg; lia.
  - apply Qinv_lt_0_compat. rewrite <- (Zlt_Qlt 0).
    apply Z.pow_pos_nonneg; lia.
Qed.

Lemma scale_den k n d : 0 < snd (scale k n d).
Proof.
  unfold scale. destruct (Z.leb_spec 0 k) as [Hk | Hk]; cbn [snd]; [lia |].
  assert (0 < 2 ^ (- k)) by (apply Z.pow_pos_nonneg; lia). lia.
Qed.

Lemma scale_factor k n d :
  (inject_Z (fst (scale k n d))
   == inject_Z (Zpos n) / inject_Z (Zpos d) * factor k
      * inject_Z (snd (scale k n d)))%Q.
Proof.
  unfold scale, factor. destruct (Z.leb_spec 0 k) as [Hk | Hk]; cbn [fst snd].
  - rewrite inject_Z_mult. field. discriminate.
  - assert (H0 : 0 < 2 ^ (- k)) by (apply Z.pow_pos_nonneg; lia).
    rewrite inject_Z_mult. field.
    split; [apply inject_Z_nonzero; lia | discriminate].
Qed.

Lemma unscale_factor k m : (unscale k m * factor k == inject_Z m)%Q.
Proof.
  unfold unscale, factor. destruct (Z.leb_spec 0 k) as [Hk | Hk].
  - assert (H0 : 0 < 2 ^ k) by (apply Z.pow_pos_nonneg; lia).
    rewrite Qred_correct, Qmake_Qdiv, Z2Pos.id by exact H0.
    field. apply inject_Z_nonzero. lia.
  - assert (H0 : 0 < 2 ^ (- k)) by (apply Z.pow_pos_nonneg; lia).
    rewrite inject_Z_mult. field. apply inject_Z_nonzero. lia.
Qed.

(** The scaling chosen by [roundPos] leaves at least 53 bits. *)
Lemma normal_next n d :
  let k := 52 - (Z.log2 (Zpos n) - Z.log2 (Zpos d)) in
  normal (k + 1) n d = true.
Proof.
  intros k. subst k.
  pose proof (Z.log2_spec (Zpos n) ltac:(lia)) as [Hn _].
  pose proof (Z.log2_spec (Zpos d) ltac:(lia)) as [_ Hd].
  pose proof (Z.log2_nonneg (Zpos n)) as Ha.
  pose proof (Z.log2_nonneg (Zpos d)) as Hb.
  set (a := Z.log2 (Zpos n)) in *. set (b := Z.log2 (Zpos d)) in *.
  unfold normal, scale.
  destruct (Z.leb_spec 0 (52 - (a - b) + 1)) as [Hk | Hk]; apply Z.leb_le.
  - assert (E : 2 ^ a * 2 ^ (52 - (a - b) + 1) = 2 ^ 52 * 2 ^ Z.succ b).
    { rewrite <- !Z.pow_add_r by lia. f_equal. lia. }
    assert (0 < 2 ^ (52 - (a - b) + 1)) by (apply Z.pow_pos_nonneg; lia).
    nia.
  - assert (E : 2 ^ 52 * 2 ^ Z.succ b * 2 ^ (- (52 - (a - b) + 1)) = 2 ^ a).
    { rewrite <- !Z.pow_add_r by lia. f_equal. lia. }
    assert (0 < 2 ^ (- (52 - (a - b) + 1))) by (apply Z.pow_pos_nonneg; lia).
    nia.
Qed.

(** Replace a rational expression by one that [ring] finds equal. *)
Ltac qreplace a b :=
  let E := fresh "E" in
  assert (E : Qeq a b) by ring; rewrite E; clear E.

Lemma Qmult_le_cancel (a b c : Q) :
  (0 < c -> a * c <= b * c -> a <= b)%Q.
Proof. intros Hc H. apply (Qmult_le_r _ _ c Hc). exact H. Qed.

Lemma roundPos_near n d :
  let x := (inject_Z (Zpos n) / inject_Z (Zpos d))%Q in
  (x - x * epsilon <= roundPos n d <= x + x * epsilon)%Q.
Proof.
  intros x. unfold roundPos.
  set (k0 := 52 - (Z.log2 (Zpos n) - Z.log2 (Zpos d))).
  set (k := if normal k0 n d then k0 else k0 + 1).
  assert (Hnormal : normal k n d = true).
  { subst k. destruct (normal k0 n d) eqn:E; [exact E | apply normal_next]. }
  pose proof (scale_factor k n d) as Hs.
  pose proof (scale_den k n d) as Hden.
  unfold normal in Hnormal.
  destruct (scale k n d) as [num den]. cbn [fst snd] in Hs, Hden.
  apply Z.leb_le in Hnormal.
  pose proof (nearestEven_near num den Hden) as [Hhi Hlo].
  pose proof (unscale_factor k (nearestEven num den)) as Hu.
  pose proof (factor_pos k) as Hf.
  set (m := nearestEven num den) in *.
  set (R := unscale k m) in *. set (f := factor k) in *.
  fold x in Hs.
  rewrite Zle_Qle, inject_Z_plus, !inject_Z_mult in Hlo, Hhi.
  rewrite Zle_Qle, inject_Z_mult in Hnormal.
  rewrite Zlt_Qlt in Hden.
  change (inject_Z (2 ^ 52)) with (4503599627370496 # 1)%Q in Hnormal.
  change (inject_Z 2) with (2 # 1)%Q in Hlo, Hhi.
  change (inject_Z 0) with 0%Q in Hden.
  set (D := inject_Z den) in *. set (N := inject_Z num) in *.
  set (mq := inject_Z m) in *.
  assert (Hx : (0 < x)%Q).
  { subst x. apply Qlt_shift_div_l; [reflexivity |].
    rewrite Qmult_0_l. reflexivity. }
  clearbody R f x D N mq. unfold epsilon.
  rewrite Hs in Hnormal, Hlo, Hhi. rewrite <- Hu in Hlo, Hhi.
  assert (HA : ((4503599627370496 # 1) <= x * f)%Q)
    by (apply (Qmult_le_cancel _ _ D Hden); exact Hnormal).
  assert (HB : ((2 # 1) * (R * f) <= (2 # 1) * (x * f) + 1)%Q).
  { apply (Qmult_le_cancel _ _ D Hden).
    qreplace ((2 # 1) * (R * f) * D)%Q ((2 # 1) * (R * f * D))%Q.
    qreplace (((2 # 1) * (x * f) + 1) * D)%Q
             ((2 # 1) * (x * f * D) + D)%Q.
    exact Hhi. }
  assert (HC : ((2 # 1) * (x * f) <= (2 # 1) * (R * f) + 1)%Q).
  { apply (Qmult_le_cancel _ _ D Hden).
    qreplace ((2 # 1) * (x * f) * D)%Q ((2 # 1) * (x * f * D))%Q.
    qreplace (((2 # 1) * (R * f) + 1) * D)%Q
             ((2 # 1) * (R * f * D) + D)%Q.
    exact Hlo. }
  split; apply (Qmult_le_cancel _ _ f Hf).
  - qreplace ((x - x * (1 # 9007199254740992)) * f)%Q
             (x * f - x * f * (1 # 9007199254740992))%Q.
    lra.
  - qreplace ((x + x * (1 # 9007199254740992)) * f)%Q
             (x * f + x * f * (1 # 9007199254740992))%Q.
    lra.
Qed.

Lemma Q_as_quotient (q : Q) :
  (q == inject_Z (Qnum q) / inject_Z (Zpos (Qden q)))%Q.
Proof. destruct q as [n d]. cbn [Qnum Qden]. apply Qmake_Qdiv. Qed.

(** A rounded value is within [2^-53] of the exact one, relatively. *)
Lemma math_round_near (q : Q) :
  (Qabs (math.round q - q) <= Qabs q * math.epsilon)%Q.
Proof.
  pose proof (Q_as_quotient q) as Hq. unfold round.
  destruct q as [[| n | n] d]; cbn [Qnum Qden] in *.
  - rewrite Hq. now vm_compute.
  - pose proof (roundPos_near n d) as [Hlo Hhi]. cbn zeta in Hlo, Hhi.
    rewrite <- Hq in Hlo, Hhi.
    assert (Hpos : (0 < Z.pos n # d)%Q) by reflexivity.
    rewrite (Qabs_pos (Z.pos n # d)) by lra.
    apply Qabs_Qle_condition. unfold epsilon in *. split; lra.
  - pose proof (roundPos_near n d) as [Hlo Hhi]. cbn zeta in Hlo, Hhi.
    assert (Hneg : (Z.neg n # d == - (Z.pos n # d))%Q) by reflexivity.
    rewrite <- (Q_as_quotient (Z.pos n # d)) in Hlo, Hhi.
    assert (Hpos : (0 < Z.pos n # d)%Q) by reflexivity.
    rewrite (Qabs_neg (Z.neg n # d)) by (rewrite Hneg; lra).
    apply Qabs_Qle_condition. rewrite Hneg. unfold epsilon in *.
    split; lra.
Qed.

Lemma float64_of_int_near (n : Z) :
  (Qabs (float64_of_int n - inject_Z n) <= Qabs (inject_Z n) * epsilon)%Q.
Proof.
  unfold float64_of_int. destruct (Z.abs n <=? 2 ^ 53).
  - qreplace (inject_Z n - inject_Z n)%Q 0%Q.
    cbn [Qabs Z.abs Qnum Qden].
    apply Qmult_le_0_compat; [apply Qabs_nonneg | discriminate].
  - apply math_round_near.
Qed.

Lemma float64_of_int_exact (n : Z) :
  Z.abs n <= 2 ^ 53 -> float64_of_int n = inject_Z n.
Proof.
  intros H. unfold float64_of_int.
  now replace (Z.abs n <=? 2 ^ 53) with true by (symmetry; now apply Z.leb_le).
Qed.

End Rounding.

(* ===================================================================== *)
(** * Durations                                                           *)
(* ===================================================================== *)

(** Two roundings of a sum whose terms have the same sign. *)
Lemma near_sum (S F S' F' v : Q) :
  (0 <= S /\ 0 <= F \/ S <= 0 /\ F <= 0)%Q ->
  (Qabs (S' - S) <= Qabs S * math.epsilon)%Q ->
  (Qabs (F' - F) <= Qabs F * math.epsilon)%Q ->
  (Qabs (v - (S' + F')) <= Qabs (S' + F') * math.epsilon)%Q ->
  (Qabs (v - (S + F)) <= Qabs (S + F) * tolerance)%Q.
Proof.
  unfold math.epsilon, tolerance.
  intros [[HS HF] | [HS HF]] H1 H2 H3.
  - rewrite (Qabs_pos S) in H1 by exact HS.
    rewrite (Qabs_pos F) in H2 by exact HF.
    apply Qabs_Qle_condition in H1, H2.
    rewrite (Qabs_pos (S' + F')) in H3 by lra.
    apply Qabs_Qle_condition in H3.
    rewrite (Qabs_pos (S + F)) by lra.
    apply Qabs_Qle_condition. split; lra.
  - rewrite (Qabs_neg S) in H1 by exact HS.
    rewrite (Qabs_neg F) in H2 by exact HF.
    apply Qabs_Qle_condition in H1, H2.
    rewrite (Qabs_neg (S' + F')) in H3 by lra.
    apply Qabs_Qle_condition in H3.
    rewrite (Qabs_neg (S + F)) by lra.
    apply Qabs_Qle_condition. split; lra.
Qed.

(** [Seconds] is the duration in seconds up to the rounding of
    [float64]. *)
Lemma Seconds_near (d : time.Duration) :
  (Qabs (time.Seconds d - inject_Z d / inject_Z time.Second)
   <= Qabs (inject_Z d / inject_Z time.Second) * tolerance)%Q.
Proof.
  unfold time.Seconds, float64_add, float64_div.
  set (sec := Z.quot d time.Second). set (nsec := Z.rem d time.Second).
  assert (Hd : d = time.Second * sec + nsec)
    by apply (Z.quot_rem' d time.Second).
  assert (Hsign : 0 <= sec /\ 0 <= nsec < time.Second
                  \/ sec <= 0 /\ - time.Second < nsec <= 0).
  { unfold time.Second in *. destruct (Z.le_gt_cases 0 d) as [Hpos | Hneg].
    - left. split; [apply Z.quot_pos; lia |].
      apply Z.rem_bound_pos_pos; lia.
    - right. split.
      + pose proof (Z.mul_quot_ge d 1000000000 ltac:(lia) ltac:(lia)).
        fold sec in H. lia.
      + apply Z.rem_bound_pos_neg; lia. }
  rewrite (float64_of_int_exact nsec)
    by (unfold time.Second in Hsign; lia).
  rewrite (float64_of_int_exact time.Second) by (unfold time.Second; lia).
  assert (Hx : (inject_Z d / inject_Z time.Second
                == inject_Z sec + inject_Z nsec / inject_Z time.Second)%Q).
  { rewrite Hd at 1. rewrite inject_Z_plus, inject_Z_mult.
    unfold time.Second. field. }
  rewrite Hx.
  apply (near_sum (inject_Z sec) (inject_Z nsec / inject_Z time.Second)
                  (float64_of_int sec)
                  (math.round (inject_Z nsec / inject_Z time.Second))).
  - assert (Hdiv : forall z, (inject_Z z / inject_Z time.Second
                              == inject_Z z * (1 # 1000000000))%Q)
      by (intros z; unfold time.Second; field).
    rewrite Hdiv.
    destruct Hsign as [[Hs [Hn _]] | [Hs [_ Hn]]]; [left | right];
      rewrite Zle_Qle in Hs, Hn; change (inject_Z 0) with 0%Q in Hs, Hn;
      split; lra.
  - apply float64_of_int_near.
  - apply math_round_near.
  - apply math_round_near.
Qed.

Lemma seconds_pos (d : Z) : 0 < d -> (0 < inject_Z d / inject_Z time.Second)%Q.
Proof.
  intros H. apply Qlt_shift_div_l; [reflexivity |].
  rewrite Qmult_0_l. now rewrite <- (Zlt_Qlt 0).
Qed.

Lemma Seconds_pos (d : time.Duration) : 0 < d -> (0 < time.Seconds d)%Q.
Proof.
  intros H. pose proof (Seconds_near d) as Hn.
  pose proof (seconds_pos d H) as Hx.
  rewrite (Qabs_pos (inject_Z d / inject_Z time.Second)) in Hn by lra.
  apply Qabs_Qle_condition in Hn. unfold tolerance in Hn. lra.
Qed.

Lemma Seconds_neg (d : time.Duration) : d < 0 -> (time.Seconds d < 0)%Q.
Proof.
  intros H. pose proof (Seconds_near d) as Hn.
  pose proof (seconds_pos (- d) ltac:(lia)) as Hx.
  assert (E : (inject_Z (- d) / inject_Z time.Second
               == - (inject_Z d / inject_Z time.Second))%Q)
    by (rewrite inject_Z_opp; unfold time.Second; field).
  rewrite E in Hx.
  rewrite (Qabs_neg (inject_Z d / inject_Z time.Second)) in Hn by lra.
  apply Qabs_Qle_condition in Hn. unfold tolerance in Hn. lra.
Qed.

Lemma Sub_exact (t u : time.Time) :
  time.minDuration <= time.nanos t - time.nanos u <= time.maxDuration ->
  time.Sub t u = time.nanos t - time.nanos u.
Proof.
  intros [Hlo Hhi]. unfold time.Sub.
  destruct (Z.ltb_spec (time.nanos t - time.nanos u) time.minDuration);
    [lia |].
  destruct (Z.ltb_spec time.maxDuration (time.nanos t - time.nanos u));
    [lia | reflexivity].
Qed.

Lemma Sub_above (t u : time.Time) :
  time.maxDuration < time.nanos t - time.nanos u ->
  time.Sub t u = time.maxDuration.
Proof.
  intros H. unfold time.Sub, time.minDuration, time.maxDuration in *.
  destruct (Z.ltb_spec (time.nanos t - time.nanos u) (- 2 ^ 63)); [lia |].
  destruct (Z.ltb_spec (2 ^ 63 - 1) (time.nanos t - time.nanos u));
    [reflexivity | lia].
Qed.

Lemma Sub_below (t u : time.Time) :
  time.nanos t - time.nanos u < time.minDuration ->
  time.Sub t u = time.minDuration.
Proof.
  intros H. unfold time.Sub.
  destruct (Z.ltb_spec (time.nanos t - time.nanos u) time.minDuration);
    [reflexivity | lia].
Qed.

Lemma Sub_pos (t u : time.Time) : time.After t u = true -> 0 < time.Sub t u.
Proof.
  unfold time.After, time.Sub, time.minDuration, time.maxDuration.
  intros H. apply Z.ltb_lt in H.
  destruct (Z.ltb_spec (time.nanos t - time.nanos u) (- 2 ^ 63)); [lia |].
  destruct (Z.ltb_spec (2 ^ 63 - 1) (time.nanos t - time.nanos u)); lia.
Qed.

Lemma Sub_neg (t u : time.Time) : time.Before t u = true -> time.Sub t u < 0.
Proof.
  unfold time.Before, time.Sub, time.minDuration, time.maxDuration.
  intros H. apply Z.ltb_lt in H.
  destruct (Z.ltb_spec (time.nanos t - time.nanos u) (- 2 ^ 63)); [lia |].
  destruct (Z.ltb_spec (2 ^ 63 - 1) (time.nanos t - time.nanos u)); lia.
Qed.

(* ===================================================================== *)
(** * What one probe does                                                 *)
(* ===================================================================== *)

Lemma wrapInt_id z : inIntRange z -> wrapInt z = z.
Proof.
  unfold inIntRange, maxInt, wrapInt. intros H.
  rewrite Z.mod_small; lia.
Qed.

Lemma wrapInt_range z : inIntRange (wrapInt z).
Proof.
  unfold inIntRange, maxInt, wrapInt.
  pose proof (Z.mod_pos_bound (z + 2 ^ 63) (2 ^ 64) ltac:(lia)). lia.
Qed.

Lemma wrapInt_add_l a b : wrapInt (wrapInt a + b) = wrapInt (a + b).
Proof.
  unfold wrapInt. f_equal.
  replace ((a + 2 ^ 63) mod 2 ^ 64 - 2 ^ 63 + b + 2 ^ 63)
    with ((a + 2 ^ 63) mod 2 ^ 64 + b) by lia.
  replace (a + b + 2 ^ 63) with ((a + 2 ^ 63) + b) by lia.
  now rewrite Zplus_mod_idemp_l.
Qed.

Lemma wrapInt_add_r a b : wrapInt (a + wrapInt b) = wrapInt (a + b).
Proof. rewrite (Z.add_comm a), wrapInt_add_l. f_equal. lia. Qed.

Lemma bind_unfold {A B : Type} (m : M A) (k : A -> M B) (s : State) :
  bind m k s
  = match fst (m s) with
    | Returns a => k a (snd (m s))
    | Panics cause => (Panics cause, snd (m s))
    end.
Proof. unfold bind. now destruct (m s) as [[a | cause] s']. Qed.

(** A chain that is not refused is published whole. *)
Lemma published_all namespace svc port : forall certs,
  refused namespace svc port certs = None ->
  published namespace svc port certs = certs.
Proof.
  induction certs as [| cert certs IH]; [reflexivity |].
  cbn [published refused].
  destruct (invalidLabelValue (labelValues namespace svc port cert));
    [discriminate |].
  intros H. now rewrite IH.
Qed.

(** What is refused is a label value of the chain, and it is not valid
    UTF-8. *)
Lemma invalidLabelValue_invalid labels val :
  invalidLabelValue labels = Some val -> utf8.ValidString val = false.
Proof.
  destruct labels as [[[[a b] c] d] e]. unfold invalidLabelValue.
  intros H. apply find_some in H as [_ H]. now apply negb_true_iff.
Qed.

Lemma refused_invalid namespace svc port : forall certs val,
  refused namespace svc port certs = Some val ->
  utf8.ValidString val = false /\
  exists cert, In cert certs /\
    invalidLabelValue (labelValues namespace svc port cert) = Some val.
Proof.
  induction certs as [| cert certs IH]; intros val H; [discriminate |].
  cbn [refused] in H.
  destruct (invalidLabelValue (labelValues namespace svc port cert))
    as [val' |] eqn:E.
  - inversion H; subst. split; [eapply invalidLabelValue_invalid, E |].
    exists cert. split; [now left | exact E].
  - destruct (IH val H) as (Hv & c & Hin & Hc). split; [exact Hv |].
    exists c. split; [now right | exact Hc].
Qed.

Lemma expiredCertsGauge_Set_refused labels v s val :
  invalidLabelValue labels = Some val ->
  expiredCertsGauge_Set labels v s = (Panics (InvalidLabelValue val), s).
Proof. intros H. unfold expiredCertsGauge_Set. now rewrite H. Qed.

Lemma expiredCertsGauge_Set_accepted labels v s :
  invalidLabelValue labels = None ->
  expiredCertsGauge_Set labels v s =
  (Returns tt,
   mkState (<[labels := v]> (expiredCertsGauge s))
           (discoveredCertsGauge s) (hearthbeatCounter s)
           (trace s ++ [EvExpirationSet labels v])
           (lists s) (dials s) (clock s)).
Proof. intros H. unfold expiredCertsGauge_Set. now rewrite H. Qed.

(** The loop over a chain: it publishes the certificates up to the first
    label value that the registry refuses, and panics there, having read
    the clock once more; or it publishes them all and returns. *)
Lemma rangeCerts_spec w svc namespace port : forall certs dates n s,
  rangeCerts w svc namespace port certs dates n s =
  (match refused namespace svc port certs with
   | None =>
       Returns (dates ++ map (fun c => Some (NotAfter c)) certs,
                match certs with
                | [] => n
                | _ :: _ => wrapInt (n + Z.of_nat (length certs))
                end)
   | Some val => Panics (InvalidLabelValue val)
   end,
   mkState
     (fold_left setSeries
        (certWrites w namespace svc port (clock s)
           (published namespace svc port certs))
        (expiredCertsGauge s))
     (discoveredCertsGauge s) (hearthbeatCounter s)
     (trace s
      ++ flat_map writeEvents
           (certWrites w namespace svc port (clock s)
              (published namespace svc port certs))
      ++ match refused namespace svc port certs with
         | None => []
         | Some _ => [EvNow]
         end)
     (lists s) (dials s)
     (clock s + length (published namespace svc port certs)
      + match refused namespace svc port certs with
        | None => 0
        | Some _ => 1
        end)%nat).
Proof.
  induction certs as [| cert certs IH]; intros dates n s.
  - cbn. unfold ret. destruct s; cbn.
    now rewrite !app_nil_r, !Nat.add_0_r.
  - cbn [rangeCerts published refused].
    rewrite bind_unfold. cbn [time_Now fst snd].
    rewrite bind_unfold.
    destruct (invalidLabelValue (labelValues namespace svc port cert))
      as [val |] eqn:E.
    + rewrite (expiredCertsGauge_Set_refused _ _ _ _ E). cbn [fst snd].
      cbn [certWrites fold_left flat_map app length]. f_equal. f_equal. lia.
    + rewrite (expiredCertsGauge_Set_accepted _ _ _ E). cbn [fst snd].
      rewrite IH.
      cbn [clock trace expiredCertsGauge discoveredCertsGauge
           hearthbeatCounter lists dials certWrites fold_left
           flat_map map length writeEvents setSeries fst snd].
      f_equal.
      * destruct (refused namespace svc port certs); [reflexivity |].
        f_equal. f_equal.
        -- now rewrite <- app_assoc.
        -- destruct certs; [f_equal; lia |].
           rewrite wrapInt_add_l. f_equal. cbn [length]. lia.
      * f_equal.
        -- rewrite <- !app_assoc. reflexivity.
        -- lia.
Qed.

(** The three ways a probe can go. *)
Lemma testTLS_dial_failed w tlsTimeout svc namespace port s err :
  DialWithDialer w (dials s) tlsTimeout (fullhostnameOf svc namespace port)
    = Err err ->
  testTLS w tlsTimeout svc namespace port s =
  (Returns (false, 0),
   mkState (expiredCertsGauge s) (discoveredCertsGauge s)
     (hearthbeatCounter s)
     (trace s
      ++ [EvDial tlsTimeout "tcp" (fullhostnameOf svc namespace port) true;
          EvErrorf (CouldNotStart (fullhostnameOf svc namespace port) err)])
     (lists s) (S (dials s)) (clock s)).
Proof.
  intros H. unfold testTLS. rewrite bind_unfold.
  cbn [tls_DialWithDialer fst snd]. rewrite H.
  cbn. now rewrite <- app_assoc.
Qed.

Lemma testTLS_write_failed w tlsTimeout svc namespace port s conn err :
  DialWithDialer w (dials s) tlsTimeout (fullhostnameOf svc namespace port)
    = Ok conn ->
  WriteErr conn = Some err ->
  testTLS w tlsTimeout svc namespace port s =
  (Returns (false, 0),
   mkState (expiredCertsGauge s) (discoveredCertsGauge s)
     (hearthbeatCounter s)
     (trace s
      ++ [EvDial tlsTimeout "tcp" (fullhostnameOf svc namespace port) true;
          EvWrite (fullhostnameOf svc namespace port) ping;
          EvErrorf (CouldNotSend (fullhostnameOf svc namespace port) err);
          EvClose (fullhostnameOf svc namespace port)])
     (lists s) (S (dials s)) (clock s)).
Proof.
  intros H Hw. unfold testTLS. rewrite bind_unfold.
  cbn [tls_DialWithDialer fst snd]. rewrite H.
  unfold defer, conn_Write. rewrite !bind_unfold.
  cbn [emit ret fst snd]. rewrite Hw. cbn.
  now rewrite <- !app_assoc.
Qed.

(** The handshake and the write succeeded: the chain is published as far
    as the registry takes it, and the connection is closed whether the
    probe returns or panics. *)
Lemma testTLS_handshaken w tlsTimeout svc namespace port s conn :
  DialWithDialer w (dials s) tlsTimeout (fullhostnameOf svc namespace port)
    = Ok conn ->
  WriteErr conn = None ->
  testTLS w tlsTimeout svc namespace port s =
  (match refused namespace svc port (PeerCertificates conn) with
   | None => Returns (true, wrapInt (Z.of_nat (length (PeerCertificates conn))))
   | Some val => Panics (InvalidLabelValue val)
   end,
   mkState
     (fold_left setSeries
        (certWrites w namespace svc port (clock s)
           (published namespace svc port (PeerCertificates conn)))
        (expiredCertsGauge s))
     (discoveredCertsGauge s) (hearthbeatCounter s)
     (trace s
      ++ [EvDial tlsTimeout "tcp" (fullhostnameOf svc namespace port) true;
          EvWrite (fullhostnameOf svc namespace port) ping]
      ++ flat_map writeEvents
           (certWrites w namespace svc port (clock s)
              (published namespace svc port (PeerCertificates conn)))
      ++ match refused namespace svc port (PeerCertificates conn) with
         | None =>
             [EvInfof (ConnectionSuccessful
                         (fullhostnameOf svc namespace port)
                         (repeat None 10
                          ++ map (fun c => Some (NotAfter c))
                               (PeerCertificates conn)))]
         | Some _ => [EvNow]
         end
      ++ [EvClose (fullhostnameOf svc namespace port)])
     (lists s) (S (dials s))
     (clock s
      + length (published namespace svc port (PeerCertificates conn))
      + match refused namespace svc port (PeerCertificates conn) with
        | None => 0
        | Some _ => 1
        end)%nat).
Proof.
  intros H Hw. unfold testTLS. rewrite bind_unfold.
  cbn [tls_DialWithDialer fst snd]. rewrite H.
  unfold defer, conn_Write. rewrite !bind_unfold.
  cbn [emit ret fst snd]. rewrite Hw, bind_unfold, rangeCerts_spec.
  cbn [clock trace expiredCertsGauge discoveredCertsGauge hearthbeatCounter
       lists dials fst snd].
  destruct (refused namespace svc port (PeerCertificates conn)) as [val |].
  - cbn [conn_Close emit fst snd clock trace expiredCertsGauge
         discoveredCertsGauge hearthbeatCounter lists dials].
    f_equal. f_equal. rewrite <- !app_assoc. reflexivity.
  - rewrite bind_unfold.
    cbn [Infof conn_Close emit ret fst snd clock trace expiredCertsGauge
         discoveredCertsGauge hearthbeatCounter lists dials].
    f_equal.
    + f_equal. destruct (PeerCertificates conn); reflexivity.
    + f_equal. rewrite <- !app_assoc. reflexivity.
Qed.

Lemma testTLS_succeeded w tlsTimeout svc namespace port s conn :
  DialWithDialer w (dials s) tlsTimeout (fullhostnameOf svc namespace port)
    = Ok conn ->
  WriteErr conn = None ->
  refused namespace svc port (PeerCertificates conn) = None ->
  testTLS w tlsTimeout svc namespace port s =
  (Returns (true, wrapInt (Z.of_nat (length (PeerCertificates conn)))),
   mkState
     (fold_left setSeries
        (certWrites w namespace svc port (clock s) (PeerCertificates conn))
        (expiredCertsGauge s))
     (discoveredCertsGauge s) (hearthbeatCounter s)
     (trace s
      ++ [EvDial tlsTimeout "tcp" (fullhostnameOf svc namespace port) true;
          EvWrite (fullhostnameOf svc namespace port) ping]
      ++ flat_map writeEvents
           (certWrites w namespace svc port (clock s) (PeerCertificates conn))
      ++ [EvInfof (ConnectionSuccessful (fullhostnameOf svc namespace port)
                     (repeat None 10
                      ++ map (fun c => Some (NotAfter c))
                           (PeerCertificates conn)));
          EvClose (fullhostnameOf svc namespace port)])
     (lists s) (S (dials s)) (clock s + length (PeerCertificates conn))%nat).
Proof.
  intros H Hw Hr. rewrite (testTLS_handshaken _ _ _ _ _ _ _ H Hw), Hr.
  rewrite (published_all _ _ _ _ Hr). f_equal. f_equal. lia.
Qed.

(** Case analysis on the probe in the goal: the write failed, the
    handshake and the write succeeded, the dial failed. *)
Ltac probe_cases Hd Hw :=
  match goal with
  | |- context [testTLS ?w ?t ?svc ?ns ?port ?s] =>
      let conn := fresh "conn" in
      let err := fresh "err" in
      destruct (DialWithDialer w (dials s) t (fullhostnameOf svc ns port))
        as [conn | err] eqn:Hd;
      [ destruct (WriteErr conn) as [err |] eqn:Hw;
        [ rewrite (testTLS_write_failed _ _ _ _ _ _ _ _ Hd Hw)
        | rewrite (testTLS_handshaken _ _ _ _ _ _ _ Hd Hw) ]
      | rewrite (testTLS_dial_failed _ _ _ _ _ _ _ Hd) ]
  end.

Lemma Framed_refl s : Framed s s 0.
Proof.
  unfold Framed. repeat split; try lia.
  exists []. now rewrite app_nil_r.
Qed.

Lemma Framed_trans s1 s2 s3 n m :
  Framed s1 s2 n -> Framed s2 s3 m -> Framed s1 s3 (n + m).
Proof.
  intros (Hd1 & Hl1 & Hh1 & Hg1 & evs1 & Ht1 & Hf1)
         (Hd2 & Hl2 & Hh2 & Hg2 & evs2 & Ht2 & Hf2).
  unfold Framed. repeat split; try congruence; try lia.
  exists (evs1 ++ evs2). split.
  - now rewrite Ht2, Ht1, <- app_assoc.
  - now rewrite forallb_app, Hf1, Hf2.
Qed.

Lemma forallb_withinCycle_writes ws :
  forallb withinCycle (flat_map writeEvents ws) = true.
Proof. induction ws as [| kv ws IH]; simpl; auto. Qed.

(** How a probe ends, and that it does nothing but dial once, probe and
    log, however it ends. *)
Lemma testTLS_frame w tlsTimeout svc namespace port s :
  fst (testTLS w tlsTimeout svc namespace port s)
    = probeCompletion (svc, namespace, port)
        (probedChain w tlsTimeout (dials s) svc namespace port) /\
  Framed s (snd (testTLS w tlsTimeout svc namespace port s)) 1.
Proof.
  unfold probedChain, probeCompletion, Framed.
  probe_cases Hd Hw; cbn [fst snd dials lists hearthbeatCounter
                          discoveredCertsGauge trace probeResult];
    (split; [reflexivity |]); repeat split; try lia;
    eexists; (split; [reflexivity |]); try reflexivity.
  cbn [app forallb withinCycle andb].
  rewrite forallb_app, forallb_withinCycle_writes.
  destruct (refused _ _ _ _); reflexivity.
Qed.

(* ===================================================================== *)
(** * What one scan cycle does                                            *)
(* ===================================================================== *)

Lemma probeOutcomes_app w tlsTimeout : forall ts1 ts2 n,
  probeOutcomes w tlsTimeout n (ts1 ++ ts2) =
  probeOutcomes w tlsTimeout n ts1
  ++ probeOutcomes w tlsTimeout (n + length ts1)%nat ts2.
Proof.
  induction ts1 as [| [[svc ns] port] ts1 IH]; intros ts2 n; simpl.
  - now rewrite Nat.add_0_r.
  - rewrite IH. do 3 f_equal. lia.
Qed.

Lemma length_probeOutcomes w tlsTimeout : forall targets n,
  length (probeOutcomes w tlsTimeout n targets) = length targets.
Proof.
  induction targets as [| [[svc ns] port] targets IH]; intros n; simpl;
    [reflexivity | now rewrite IH].
Qed.

Lemma labelsValid_cons target targets chain outcomes :
  labelsValid (target :: targets) (chain :: outcomes) = true ->
  probeCompletion target chain = Returns (probeResult chain) /\
  labelsValid targets outcomes = true.
Proof.
  destruct target as [[svc ns] port]. cbn [labelsValid probeCompletion].
  destruct chain as [certs |]; [| auto].
  destruct (refused ns svc port certs); [discriminate | auto].
Qed.

Lemma labelsValid_app : forall ts1 os1 ts2 os2,
  length ts1 = length os1 ->
  labelsValid (ts1 ++ ts2) (os1 ++ os2) = true ->
  labelsValid ts1 os1 = true /\ labelsValid ts2 os2 = true.
Proof.
  induction ts1 as [| [[svc ns] port] ts1 IH];
    intros [| [certs |] os1] ts2 os2 Hlen H; try discriminate; auto;
    cbn [app labelsValid] in *.
  - destruct (refused ns svc port certs); [discriminate |].
    apply IH; [simpl in Hlen; lia | exact H].
  - apply IH; [simpl in Hlen; lia | exact H].
Qed.

Lemma certsFound_cons o os :
  certsFound (o :: os)
  = match o with
    | Some certs => Z.of_nat (length certs)
    | None => 0
    end + certsFound os.
Proof. destruct o; reflexivity. Qed.

Lemma certsFound_app os1 os2 :
  certsFound (os1 ++ os2) = certsFound os1 + certsFound os2.
Proof.
  induction os1 as [| o os1 IH]; [reflexivity |].
  cbn [app]. rewrite !certsFound_cons, IH. lia.
Qed.

Lemma certsFound_nonneg os : 0 <= certsFound os.
Proof.
  induction os as [| o os IH]; [reflexivity |].
  rewrite certsFound_cons. destruct o; lia.
Qed.

Lemma rangePorts_spec w tlsTimeout svcName ns : forall ports acc s,
  inIntRange acc ->
  labelsValid (map (fun port => (svcName, ns, port)) ports)
    (probeOutcomes w tlsTimeout (dials s)
       (map (fun port => (svcName, ns, port)) ports)) = true ->
  fst (rangePorts w tlsTimeout svcName ns ports acc s)
    = Returns
        (wrapInt (acc + certsFound
                          (probeOutcomes w tlsTimeout (dials s)
                             (map (fun port => (svcName, ns, port)) ports))))
  /\
  Framed s (snd (rangePorts w tlsTimeout svcName ns ports acc s))
         (length ports).
Proof.
  induction ports as [| port ports IH]; intros acc s Hacc Hvalid.
  - simpl. split; [| apply Framed_refl].
    rewrite Z.add_0_r. f_equal. symmetry. now apply wrapInt_id.
  - cbn [rangePorts]. rewrite bind_unfold.
    cbn [map probeOutcomes] in Hvalid.
    apply labelsValid_cons in Hvalid as [Hthis Hvalid].
    destruct (testTLS_frame w tlsTimeout svcName ns port s) as [Hres Hfr].
    rewrite Hthis in Hres.
    destruct (testTLS w tlsTimeout svcName ns port s) as [completion s1].
    cbn [fst snd] in Hres, Hfr |- *. subst completion.
    destruct (probeResult (probedChain w tlsTimeout (dials s) svcName ns port))
      as [ok certsNum] eqn:Hprobe.
    assert (Hd : dials s1 = S (dials s)) by (destruct Hfr as [-> _]; lia).
    set (acc' := if ok then wrapInt (acc + certsNum) else acc).
    assert (Hacc' : inIntRange acc').
    { subst acc'. destruct ok; [apply wrapInt_range | exact Hacc]. }
    rewrite <- Hd in Hvalid.
    destruct (IH acc' s1 Hacc' Hvalid) as [IHres IHfr].
    split.
    + rewrite IHres, Hd. cbn [map probeOutcomes].
      rewrite certsFound_cons. subst acc'. f_equal.
      destruct (probedChain w tlsTimeout (dials s) svcName ns port);
        simpl in Hprobe; inversion Hprobe; subst; simpl.
      * rewrite wrapInt_add_r, wrapInt_add_l. f_equal. lia.
      * reflexivity.
    + replace (length (port :: ports)) with (1 + length ports)%nat
        by reflexivity.
      eapply Framed_trans; eassumption.
Qed.

Lemma Framed_emit_within s e n s' :
  withinCycle e = true ->
  Framed (snd (emit e s)) s' n -> Framed s s' n.
Proof.
  intros He (Hd & Hl & Hh & Hg & evs & Ht & Hf). unfold Framed.
  simpl in *. repeat split; auto.
  exists (e :: evs). split.
  - now rewrite Ht, <- app_assoc.
  - simpl. now rewrite He, Hf.
Qed.

Lemma rangeServices_spec w tlsTimeout skipNamespaceRegex r :
  forall items acc s,
  inIntRange acc ->
  labelsValid (targetsOf skipNamespaceRegex r items)
    (probeOutcomes w tlsTimeout (dials s)
       (targetsOf skipNamespaceRegex r items)) = true ->
  fst (rangeServices w tlsTimeout skipNamespaceRegex r items acc s)
    = Returns
        (wrapInt (acc + certsFound
                          (probeOutcomes w tlsTimeout (dials s)
                             (targetsOf skipNamespaceRegex r items))))
  /\
  Framed s (snd (rangeServices w tlsTimeout skipNamespaceRegex r items acc s))
         (length (targetsOf skipNamespaceRegex r items)).
Proof.
  induction items as [| svc items IH]; intros acc s Hacc Hvalid.
  - simpl. split; [| apply Framed_refl].
    rewrite Z.add_0_r. f_equal. symmetry. now apply wrapInt_id.
  - cbn [rangeServices targetsOf flat_map] in Hvalid |- *.
    fold (targetsOf skipNamespaceRegex r items) in Hvalid |- *.
    destruct (shouldSkip skipNamespaceRegex r (GetNamespace svc)).
    + rewrite bind_unfold. unfold Infof. cbn [emit fst].
      destruct (IH acc (snd (emit (EvInfof (Skipping (GetName svc)
                                             (GetNamespace svc))) s))
                   Hacc Hvalid)
        as [IHres IHfr].
      split.
      * rewrite IHres. reflexivity.
      * eapply (Framed_emit_within s (EvInfof (Skipping (GetName svc)
                                                (GetNamespace svc))));
          [reflexivity | exact IHfr].
    + rewrite bind_unfold.
      rewrite probeOutcomes_app in Hvalid.
      apply labelsValid_app in Hvalid as [Hports Hrest];
        [| now rewrite length_probeOutcomes].
      destruct (rangePorts_spec w tlsTimeout (GetName svc) (GetNamespace svc)
                  (Ports svc) acc s Hacc Hports) as [Hres Hfr].
      destruct (rangePorts w tlsTimeout (GetName svc) (GetNamespace svc)
                  (Ports svc) acc s) as [completion s1].
      cbn [fst snd] in Hres, Hfr |- *. subst completion.
      set (found := wrapInt _).
      assert (Hfound : inIntRange found) by apply wrapInt_range.
      assert (Hd : dials s1 = (dials s + length (Ports svc))%nat)
        by (now destruct Hfr as [-> _]).
      rewrite length_map, <- Hd in Hrest.
      destruct (IH found s1 Hfound Hrest) as [IHres IHfr].
      split.
      * rewrite IHres. subst found.
        rewrite probeOutcomes_app, certsFound_app, wrapInt_add_l,
          length_map, Hd.
        f_equal. f_equal. lia.
      * rewrite length_app, length_map.
        eapply Framed_trans; eassumption.
Qed.

(** A cycle is the loop over the services and, when that returns, the two
    updates, the log line and the sleep. *)
Lemma scanCycle_unfold w discoverFrequency tlsTimeout skipNamespaceRegex r
    items s :
  scanCycle w discoverFrequency tlsTimeout skipNamespaceRegex r items s
  = let s0 := snd (emit (EvInfof (Scanning (length items))) s) in
    let looped := rangeServices w tlsTimeout skipNamespaceRegex r items 0 s0 in
    match fst looped with
    | Returns found =>
        (Returns tt,
         mkState (expiredCertsGauge (snd looped)) (float64_of_int found)
                 (hearthbeatCounter (snd looped) + 1)
                 (trace (snd looped)
                  ++ [EvDiscoveredSet (float64_of_int found);
                      EvHeartbeatInc;
                      EvInfof (Sleeping discoverFrequency);
                      EvSleep discoverFrequency])
                 (lists (snd looped)) (dials (snd looped))
                 (clock (snd looped)))
    | Panics cause => (Panics cause, snd looped)
    end.
Proof.
  unfold scanCycle. rewrite bind_unfold. unfold Infof at 1.
  cbn [emit fst snd]. cbn zeta. rewrite bind_unfold.
  destruct (rangeServices _ _ _ _ _ _ _) as [[found | cause] s1];
    [| reflexivity].
  cbn [fst snd]. rewrite !bind_unfold.
  cbn [discoveredCertsGauge_Set hearthbeatCounter_Inc Infof time_Sleep emit
       fst snd expiredCertsGauge discoveredCertsGauge hearthbeatCounter
       trace lists dials clock].
  unfold time_Sleep, emit.
  cbn [expiredCertsGauge discoveredCertsGauge hearthbeatCounter
       trace lists dials clock].
  f_equal. f_equal. now rewrite <- !app_assoc.
Qed.

(** The end of a cycle: the total is published, the heartbeat advances by
    one, and between the listing and these two updates nothing but probes
    and log lines happened. *)
Lemma scanCycle_spec w discoverFrequency tlsTimeout skipNamespaceRegex r
    items s :
  let targets := targetsOf skipNamespaceRegex r items in
  let outcomes := probeOutcomes w tlsTimeout (dials s) targets in
  let cycle := scanCycle w discoverFrequency tlsTimeout skipNamespaceRegex
                         r items s in
  let s' := snd cycle in
  labelsValid targets outcomes = true ->
  fst cycle = Returns tt /\
  hearthbeatCounter s' = hearthbeatCounter s + 1 /\
  discoveredCertsGauge s' = float64_of_int (wrapInt (certsFound outcomes)) /\
  lists s' = lists s /\
  dials s' = (dials s + length targets)%nat /\
  exists evs,
    trace s' =
      trace s ++ evs
      ++ [EvDiscoveredSet (float64_of_int (wrapInt (certsFound outcomes)));
          EvHeartbeatInc;
          EvInfof (Sleeping discoverFrequency);
          EvSleep discoverFrequency] /\
    forallb withinCycle evs = true.
Proof.
  intros targets outcomes cycle s' Hvalid. subst s' cycle.
  rewrite scanCycle_unfold. cbn zeta.
  set (s0 := snd (emit (EvInfof (Scanning (length items))) s)).
  assert (H0 : inIntRange 0) by (unfold inIntRange, maxInt; lia).
  destruct (rangeServices_spec w tlsTimeout skipNamespaceRegex r items 0 s0
              H0 Hvalid) as [Hres Hfr].
  destruct (rangeServices w tlsTimeout skipNamespaceRegex r items 0 s0)
    as [completion s1].
  cbn [fst snd] in Hres, Hfr |- *. subst completion.
  change (dials s0) with (dials s). rewrite Z.add_0_l.
  fold targets. fold outcomes.
  apply (Framed_emit_within s (EvInfof (Scanning (length items)))) in Hfr;
    [| reflexivity].
  destruct Hfr as (Hd & Hl & Hh & Hg & evs & Ht & Hf).
  cbn [fst snd hearthbeatCounter discoveredCertsGauge lists dials trace].
  split; [reflexivity |].
  split; [congruence |]. split; [reflexivity |].
  split; [congruence |]. split; [exact Hd |].
  exists evs. split; [| exact Hf].
  rewrite Ht, <- !app_assoc. reflexivity.
Qed.

(** A panic inside a cycle is the registry refusing a label value. *)
Lemma testTLS_panics w tlsTimeout svc namespace port s cause :
  fst (testTLS w tlsTimeout svc namespace port s) = Panics cause ->
  exists val, cause = InvalidLabelValue val /\ utf8.ValidString val = false.
Proof.
  destruct (testTLS_frame w tlsTimeout svc namespace port s) as [-> _].
  unfold probeCompletion.
  destruct (probedChain _ _ _ _ _ _) as [certs |]; [| discriminate].
  destruct (refused namespace svc port certs) as [val |] eqn:Hr;
    [| discriminate].
  intros [= <-]. exists val. split; [reflexivity |].
  now apply refused_invalid in Hr as [Hv _].
Qed.

Lemma rangePorts_panics w tlsTimeout svcName ns cause : forall ports acc s,
  fst (rangePorts w tlsTimeout svcName ns ports acc s) = Panics cause ->
  exists val, cause = InvalidLabelValue val /\ utf8.ValidString val = false.
Proof.
  induction ports as [| port ports IH]; intros acc s H; [discriminate |].
  cbn [rangePorts] in H. rewrite bind_unfold in H.
  pose proof (testTLS_panics w tlsTimeout svcName ns port s) as Hp.
  destruct (testTLS w tlsTimeout svcName ns port s) as [[[ok n] | c] s1];
    cbn [fst snd] in H, Hp.
  - eapply IH, H.
  - inversion H; subst. now apply Hp.
Qed.

Lemma rangeServices_panics w tlsTimeout skipNamespaceRegex r cause :
  forall items acc s,
  fst (rangeServices w tlsTimeout skipNamespaceRegex r items acc s)
    = Panics cause ->
  exists val, cause = InvalidLabelValue val /\ utf8.ValidString val = false.
Proof.
  induction items as [| svc items IH]; intros acc s H; [discriminate |].
  cbn [rangeServices] in H.
  destruct (shouldSkip skipNamespaceRegex r (GetNamespace svc)).
  - rewrite bind_unfold in H. cbn [Infof emit fst snd] in H.
    eapply IH, H.
  - rewrite bind_unfold in H.
    pose proof (rangePorts_panics w tlsTimeout (GetName svc)
                  (GetNamespace svc) cause (Ports svc) acc s) as Hp.
    destruct (rangePorts _ _ _ _ _ _ _) as [[found | c] s1];
      cbn [fst snd] in H, Hp.
    + eapply IH, H.
    + inversion H; subst. now apply Hp.
Qed.


(** A cycle that reaches its end published valid label values only. *)
Lemma labelsValid_app_intro : forall ts1 os1 ts2 os2,
  length ts1 = length os1 ->
  labelsValid ts1 os1 = true -> labelsValid ts2 os2 = true ->
  labelsValid (ts1 ++ ts2) (os1 ++ os2) = true.
Proof.
  induction ts1 as [| [[svc ns] port] ts1 IH];
    intros [| [certs |] os1] ts2 os2 Hlen H1 H2; try discriminate; auto;
    cbn [app labelsValid] in *.
  - destruct (refused ns svc port certs); [discriminate |].
    apply IH; [simpl in Hlen; lia | exact H1 | exact H2].
  - apply IH; [simpl in Hlen; lia | exact H1 | exact H2].
Qed.

Lemma rangePorts_returns w tlsTimeout svcName ns : forall ports acc s found,
  fst (rangePorts w tlsTimeout svcName ns ports acc s) = Returns found ->
  labelsValid (map (fun port => (svcName, ns, port)) ports)
    (probeOutcomes w tlsTimeout (dials s)
       (map (fun port => (svcName, ns, port)) ports)) = true.
Proof.
  induction ports as [| port ports IH]; intros acc s found H;
    [reflexivity |].
  cbn [rangePorts] in H. rewrite bind_unfold in H.
  destruct (testTLS_frame w tlsTimeout svcName ns port s) as [Hres Hfr].
  destruct (testTLS w tlsTimeout svcName ns port s)
    as [[[ok certsNum] | cause] s1]; cbn [fst snd] in H, Hres, Hfr;
    [| discriminate].
  assert (Hd : dials s1 = S (dials s)) by (destruct Hfr as [-> _]; lia).
  apply IH in H. rewrite Hd in H.
  cbn [map probeOutcomes labelsValid].
  unfold probeCompletion in Hres.
  destruct (probedChain w tlsTimeout (dials s) svcName ns port)
    as [certs |]; [| exact H].
  destruct (refused ns svcName port certs); [discriminate | exact H].
Qed.

Lemma rangeServices_returns w tlsTimeout skipNamespaceRegex r :
  forall items acc s found,
  inIntRange acc ->
  fst (rangeServices w tlsTimeout skipNamespaceRegex r items acc s)
    = Returns found ->
  labelsValid (targetsOf skipNamespaceRegex r items)
    (probeOutcomes w tlsTimeout (dials s)
       (targetsOf skipNamespaceRegex r items)) = true.
Proof.
  induction items as [| svc items IH]; intros acc s found Hacc H;
    [reflexivity |].
  cbn [rangeServices targetsOf flat_map] in H |- *.
  fold (targetsOf skipNamespaceRegex r items).
  destruct (shouldSkip skipNamespaceRegex r (GetNamespace svc)).
  - rewrite bind_unfold in H. cbn [Infof emit fst snd] in H.
    apply IH in H; [exact H | exact Hacc].
  - rewrite bind_unfold in H.
    pose proof (rangePorts_returns w tlsTimeout (GetName svc)
                  (GetNamespace svc) (Ports svc) acc s) as Hports.
    pose proof (rangePorts_spec w tlsTimeout (GetName svc)
                  (GetNamespace svc) (Ports svc) acc s Hacc) as Hspec.
    destruct (rangePorts w tlsTimeout (GetName svc) (GetNamespace svc)
                (Ports svc) acc s) as [[found1 | cause] s1];
      cbn [fst snd] in H, Hports, Hspec; [| discriminate].
    specialize (Hports found1 eq_refl).
    destruct (Hspec Hports) as [Hres Hfr].
    assert (Hd : dials s1 = (dials s + length (Ports svc))%nat)
      by (now destruct Hfr as [-> _]).
    apply IH in H; [| inversion Hres; apply wrapInt_range].
    rewrite probeOutcomes_app, length_map, <- Hd.
    apply labelsValid_app_intro;
      [now rewrite length_probeOutcomes | exact Hports | exact H].
Qed.

Lemma scanCycle_returns w discoverFrequency tlsTimeout skipNamespaceRegex r
    items s :
  fst (scanCycle w discoverFrequency tlsTimeout skipNamespaceRegex r items s)
    = Returns tt ->
  labelsValid (targetsOf skipNamespaceRegex r items)
    (probeOutcomes w tlsTimeout (dials s)
       (targetsOf skipNamespaceRegex r items)) = true.
Proof.
  rewrite scanCycle_unfold. cbn zeta. intros H.
  pose proof (rangeServices_returns w tlsTimeout skipNamespaceRegex r items
                0 (snd (emit (EvInfof (Scanning (length items))) s)))
    as Hr.
  destruct (rangeServices _ _ _ _ _ _ _) as [[found | cause] s1];
    cbn [fst snd] in H, Hr; [| discriminate].
  apply (Hr found); [unfold inIntRange, maxInt; lia | reflexivity].
Qed.

(* ===================================================================== *)
(** * Label values that the registry takes                                *)
(* ===================================================================== *)

Lemma Valid_digits (d : Decimal.uint) :
  utf8.ValidString (NilEmpty.string_of_uint d) = true.
Proof. induction d; cbn; auto. Qed.

(** The decimal form of a port is ASCII. *)
Lemma Itoa_valid (port : Z) : utf8.ValidString (strconv.Itoa port) = true.
Proof.
  unfold strconv.Itoa.
  destruct (Z.to_int port) as [d | d]; cbn [NilZero.string_of_int].
  - destruct d; try apply (Valid_digits (_ d)); reflexivity.
  - change (utf8.ValidString (String "-" ?s)) with (utf8.ValidString s).
    destruct d; try apply (Valid_digits (_ d)); reflexivity.
Qed.

Lemma invalidLabelValue_None namespace svc port cert :
  utf8.ValidString namespace = true ->
  utf8.ValidString svc = true ->
  utf8.ValidString (CommonName (Issuer cert)) = true ->
  utf8.ValidString (SerialNumber (Issuer cert)) = true ->
  invalidLabelValue (labelValues namespace svc port cert) = None.
Proof.
  intros Hn Hs Hc Hr. unfold invalidLabelValue, labelValues.
  cbn [List.find]. now rewrite Hn, Hs, Itoa_valid, Hc, Hr.
Qed.

Lemma refused_None namespace svc port certs :
  utf8.ValidString namespace = true ->
  utf8.ValidString svc = true ->
  (forall cert, In cert certs ->
     utf8.ValidString (CommonName (Issuer cert)) = true /\
     utf8.ValidString (SerialNumber (Issuer cert)) = true) ->
  refused namespace svc port certs = None.
Proof.
  intros Hn Hs. induction certs as [| cert certs IH]; intros H;
    [reflexivity |].
  cbn [refused]. destruct (H cert (or_introl eq_refl)) as [Hc Hr].
  rewrite (invalidLabelValue_None _ _ _ _ Hn Hs Hc Hr).
  apply IH. intros c Hin. apply H. now right.
Qed.

Lemma targetsOf_In skipNamespaceRegex r items svc ns port :
  In (svc, ns, port) (targetsOf skipNamespaceRegex r items) ->
  exists item, In item items /\ GetName item = svc /\ GetNamespace item = ns
               /\ In port (Ports item)
               /\ shouldSkip skipNamespaceRegex r ns = false.
Proof.
  unfold targetsOf. intros H. apply in_flat_map in H as (item & Hin & H).
  destruct (shouldSkip skipNamespaceRegex r (GetNamespace item)) eqn:Hskip;
    [destruct H |].
  apply in_map_iff in H as (p & [= <- <- <-] & Hp).
  exists item. auto.
Qed.

Lemma labelsValid_of_names w tlsTimeout : forall targets n,
  (forall timeout addr conn cert m,
     DialWithDialer w m timeout addr = Ok conn ->
     In cert (PeerCertificates conn) ->
     utf8.ValidString (CommonName (Issuer cert)) = true /\
     utf8.ValidString (SerialNumber (Issuer cert)) = true) ->
  (forall svc ns port, In (svc, ns, port) targets ->
     utf8.ValidString svc = true /\ utf8.ValidString ns = true) ->
  labelsValid targets (probeOutcomes w tlsTimeout n targets) = true.
Proof.
  induction targets as [| [[svc ns] port] targets IH]; intros n Hnet Hnames;
    [reflexivity |].
  cbn [probeOutcomes labelsValid].
  assert (Hrest : labelsValid targets
                    (probeOutcomes w tlsTimeout (S n) targets) = true).
  { apply IH; [exact Hnet |]. intros s0 n0 p0 Hin. eapply Hnames.
    right. exact Hin. }
  destruct (Hnames svc ns port (or_introl eq_refl)) as [Hs Hn].
  unfold probedChain.
  destruct (DialWithDialer w n tlsTimeout (fullhostnameOf svc ns port))
    as [conn | err] eqn:Hd; [| exact Hrest].
  destruct (WriteErr conn); [exact Hrest |].
  rewrite (refused_None ns svc port (PeerCertificates conn) Hn Hs);
    [exact Hrest |].
  intros cert Hin. eapply Hnet; eassumption.
Qed.

(** In a world of valid names every cycle publishes valid label values. *)
Lemma ValidNames_labelsValid w tlsTimeout skipNamespaceRegex r items n m :
  ValidNames w ->
  List_ w n = Ok items ->
  labelsValid (targetsOf skipNamespaceRegex r items)
    (probeOutcomes w tlsTimeout m (targetsOf skipNamespaceRegex r items))
  = true.
Proof.
  intros [Hlist Hnet] Hitems. apply labelsValid_of_names.
  - intros timeout addr conn cert k Hd Hin. eapply Hnet; eassumption.
  - intros svc ns port Hin.
    apply targetsOf_In in Hin as (item & Hitem & <- & <- & _).
    eapply Hlist; eassumption.
Qed.

(* ===================================================================== *)
(** * The scan cycle (C2)                                                 *)
(* ===================================================================== *)



(* ===================================================================== *)
(** * The loop and its fatal errors (C7, C8)                              *)
(* ===================================================================== *)

Lemma scanLoop_step cycles w discoverFrequency tlsTimeout skipNamespaceRegex
    r s :
  scanLoop (S cycles) w discoverFrequency tlsTimeout skipNamespaceRegex r s =
  match List_ w (lists s) with
  | Err err => Panicked (ListFailed err) (snd (listServices w s))
  | Ok items =>
      let cycle := scanCycle w discoverFrequency tlsTimeout
                             skipNamespaceRegex r items
                             (snd (listServices w s)) in
      match fst cycle with
      | Returns _ =>
          scanLoop cycles w discoverFrequency tlsTimeout skipNamespaceRegex
                   r (snd cycle)
      | Panics cause => Panicked cause (snd cycle)
      end
  end.
Proof.
  cbn [scanLoop]. unfold iteration. rewrite bind_unfold.
  cbn [listServices fst snd].
  destruct (List_ w (lists s)) as [items | err]; [| reflexivity].
  cbn zeta. now destruct (scanCycle _ _ _ _ _ _ _) as [[[] | cause] s'].
Qed.

(** A cycle that reaches its end, seen from the loop. *)
Lemma scanLoop_cycle cycles w discoverFrequency tlsTimeout skipNamespaceRegex
    r s items :
  List_ w (lists s) = Ok items ->
  labelsValid (targetsOf skipNamespaceRegex r items)
    (probeOutcomes w tlsTimeout (dials s)
       (targetsOf skipNamespaceRegex r items)) = true ->
  scanLoop (S cycles) w discoverFrequency tlsTimeout skipNamespaceRegex r s
  = scanLoop cycles w discoverFrequency tlsTimeout skipNamespaceRegex r
      (snd (scanCycle w discoverFrequency tlsTimeout skipNamespaceRegex r
                      items (snd (listServices w s)))).
Proof.
  intros Hitems Hvalid. rewrite scanLoop_step, Hitems. cbn zeta.
  destruct (scanCycle_spec w discoverFrequency tlsTimeout skipNamespaceRegex
              r items (snd (listServices w s)) Hvalid) as [-> _].
  reflexivity.
Qed.

Lemma running_ended (o : Outcome) : running o = true -> o = Running (ended o).
Proof. destruct o; [discriminate | reflexivity]. Qed.

(** Watching the loop for [n + m] cycles is watching it for [n] cycles
    and then, if it still runs, for [m] more from where it stands: the
    state is all that a cycle hands to the next. *)
Lemma scanLoop_add w discoverFrequency tlsTimeout skipNamespaceRegex r :
  forall n m s,
  scanLoop (n + m) w discoverFrequency tlsTimeout skipNamespaceRegex r s
  = match scanLoop n w discoverFrequency tlsTimeout skipNamespaceRegex r s
    with
    | Running s' =>
        scanLoop m w discoverFrequency tlsTimeout skipNamespaceRegex r s'
    | stopped => stopped
    end.
Proof.
  induction n as [| n IH]; intros m s; [reflexivity |].
  cbn [Nat.add]. rewrite !scanLoop_step.
  destruct (List_ w (lists s)); [| reflexivity].
  cbn zeta. destruct (fst (scanCycle _ _ _ _ _ _ _)); [apply IH | reflexivity].
Qed.

(** The service listings in a stretch of the trace. *)
Lemma no_list_within_cycle : forall evs,
  forallb withinCycle evs = true ->
  length (List.filter (fun e => match e with EvList => true | _ => false end)
                      evs) = 0%nat.
Proof.
  induction evs as [| [] evs IH]; cbn [forallb withinCycle andb List.filter];
    intros H; try discriminate; auto.
Qed.

(** A process still running after [k] cycles has listed the services [k]
    times, with success, and has advanced the heartbeat [k] times. *)
Lemma scanLoop_running w discoverFrequency tlsTimeout skipNamespaceRegex r :
  forall k s sk,
  scanLoop k w discoverFrequency tlsTimeout skipNamespaceRegex r s
    = Running sk ->
  hearthbeatCounter sk = hearthbeatCounter s + Z.of_nat k /\
  lists sk = (lists s + k)%nat /\
  (forall i, (i < k)%nat ->
             exists items, List_ w (lists s + i)%nat = Ok items) /\
  exists evs,
    trace sk = trace s ++ evs /\
    length (List.filter (fun e => match e with EvList => true | _ => false end)
                        evs) = k.
Proof.
  induction k as [| k IH]; intros s sk H.
  - inversion H; subst. split; [lia |]. split; [lia |].
    split; [intros i Hi; lia |]. exists []. now rewrite app_nil_r.
  - rewrite scanLoop_step in H.
    destruct (List_ w (lists s)) as [items | err] eqn:Hitems;
      [| discriminate].
    cbn zeta in H. set (s1 := snd (listServices w s)) in *.
    destruct (fst (scanCycle w discoverFrequency tlsTimeout
                             skipNamespaceRegex r items s1))
      as [[] | cause] eqn:Hend; [| discriminate].
    destruct (scanCycle_spec w discoverFrequency tlsTimeout
                skipNamespaceRegex r items s1
                (scanCycle_returns _ _ _ _ _ _ _ Hend))
      as (_ & Hh & _ & Hl & _ & evs & Ht & Hf).
    apply IH in H as (Hh' & Hl' & Hok & evs' & Ht' & Hc').
    rewrite Hh in Hh'. rewrite Hl in Hl', Hok. rewrite Ht in Ht'.
    subst s1. cbn [listServices snd hearthbeatCounter lists trace]
      in Hh', Hl', Hok, Ht'.
    split; [lia |]. split; [lia |]. split.
    + intros [| i] Hi.
      * exists items. now rewrite Nat.add_0_r.
      * replace (lists s + S i)%nat with (S (lists s) + i)%nat by lia.
        apply Hok. lia.
    + eexists. split; [rewrite Ht', <- !app_assoc; reflexivity |].
      rewrite !List.filter_app, !length_app, (no_list_within_cycle _ Hf).
      cbn [List.filter length]. lia.
Qed.

(** C7.  When the listing of services fails at the start of a cycle, the
    process having completed [k] cycles until then, the process panics
    with that error: the heartbeat has advanced once for each of the [k]
    completed cycles only, the failed query was made once and not again,
    and it is the last thing the process did, so that nothing was probed
    with a partial list. *)
Theorem list_failure_is_fatal
    (w : World) (discoverFrequency tlsTimeout : time.Duration)
    (skipNamespaceRegex : string) (r : regexp.Regexp) :
  forall (k cycles : nat) (s sk : State) (err : string),
  scanLoop k w discoverFrequency tlsTimeout skipNamespaceRegex r s
    = Running sk ->
  List_ w (lists s + k)%nat = Err err ->
  (k < cycles)%nat ->
  exists s' evs,
    scanLoop cycles w discoverFrequency tlsTimeout skipNamespaceRegex r s
      = Panicked (ListFailed err) s' /\
    hearthbeatCounter s' = hearthbeatCounter s + Z.of_nat k /\
    lists s' = (lists s + k + 1)%nat /\
    trace s' = trace s ++ evs ++ [EvList] /\
    length (List.filter (fun e => match e with EvList => true | _ => false end)
                        (evs ++ [EvList])) = S k.
Proof.
  intros k cycles s sk err Hrun Hfail Hlt.
  destruct (scanLoop_running _ _ _ _ _ _ _ _ Hrun)
    as (Hh & Hl & _ & evs & Ht & Hc).
  replace cycles with (k + S (cycles - k - 1))%nat by lia.
  rewrite scanLoop_add, Hrun, scanLoop_step, Hl, Hfail.
  exists (snd (listServices w sk)), evs.
  cbn [listServices snd hearthbeatCounter lists trace].
  split; [reflexivity |]. split; [exact Hh |]. split; [lia |].
  split; [now rewrite Ht, <- app_assoc |].
  rewrite List.filter_app, length_app, Hc. cbn [List.filter length]. lia.
Qed.

(** The names of the example cluster are ASCII. *)
Lemma exampleWorld_dials_valid n timeout addr conn cert :
  DialWithDialer exampleWorld n timeout addr = Ok conn ->
  In cert (PeerCertificates conn) ->
  utf8.ValidString (CommonName (Issuer cert)) = true /\
  utf8.ValidString (SerialNumber (Issuer cert)) = true.
Proof.
  cbn [exampleWorld DialWithDialer]. intros Hd Hin.
  repeat match type of Hd with
         | (if ?b then _ else _) = _ => destruct b
         end;
    inversion Hd; subst; cbn [PeerCertificates In] in Hin;
    repeat (destruct Hin as [<- | Hin]; [split; reflexivity |]);
    destruct Hin.
Qed.

Lemma exampleItems_valid svc :
  In svc exampleItems ->
  utf8.ValidString (GetName svc) = true /\
  utf8.ValidString (GetNamespace svc) = true.
Proof.
  intros Hin. cbn [exampleItems In] in Hin.
  repeat (destruct Hin as [<- | Hin]; [split; reflexivity |]).
  destruct Hin.
Qed.

Lemma ValidNames_exampleWorld : ValidNames exampleWorld.
Proof.
  split.
  - intros n items svc [= <-]. apply exampleItems_valid.
  - apply exampleWorld_dials_valid.
Qed.

Lemma ValidNames_unreachableWorld : ValidNames unreachableWorld.
Proof.
  split.
  - intros n items svc [= <-]. apply exampleItems_valid.
  - intros n timeout addr conn cert Hd. discriminate Hd.
Qed.

Lemma ValidNames_outageWorld : ValidNames outageWorld.
Proof.
  split.
  - intros n items svc. cbn [outageWorld List_].
    destruct (n <? 2)%nat; [| discriminate].
    intros [= <-]. apply exampleItems_valid.
  - apply exampleWorld_dials_valid.
Qed.

Lemma list_failure_is_fatal_witness :
  exists s',
    scanLoop 5 outageWorld 7200000000000 400000000 "^kube-" kubePrefix
             initialState
      = Panicked (ListFailed "etcdserver: request timed out") s' /\
    hearthbeatCounter s' = 2 /\ lists s' = 3%nat.
Proof.
  destruct (list_failure_is_fatal outageWorld 7200000000000 400000000
              "^kube-" kubePrefix 2 5 initialState
              (ended (scanLoop 2 outageWorld 7200000000000 400000000
                               "^kube-" kubePrefix initialState))
              "etcdserver: request timed out"
              (running_ended
                 (scanLoop 2 outageWorld 7200000000000 400000000 "^kube-"
                           kubePrefix initialState)
                 ltac:(vm_compute; reflexivity))
              eq_refl ltac:(lia))
    as (s' & evs & Hloop & Hh & Hl & _).
  exists s'. split; [exact Hloop |]. split; [exact Hh | exact Hl].
Defined.

(** [regexp.Compile] accepts the empty pattern: the nil [r] of
    [discoverServices] cannot arise from it. *)
Lemma Compile_empty (rest : regexp.Rest) :
  regexp.Compile rest ""
  = regexp.Compiled (regexp.Program syntax.EmptyMatch).
Proof. reflexivity. Qed.

(** The loop dies of a failed listing or of a label value that the
    registry refuses, and of nothing else. *)
Lemma scanLoop_panics w discoverFrequency tlsTimeout skipNamespaceRegex r :
  forall cycles s cause s',
  scanLoop cycles w discoverFrequency tlsTimeout skipNamespaceRegex r s
    = Panicked cause s' ->
  (exists err, cause = ListFailed err) \/
  (exists val, cause = InvalidLabelValue val).
Proof.
  induction cycles as [| cycles IH]; intros s cause s' H; [discriminate |].
  rewrite scanLoop_step in H.
  destruct (List_ w (lists s)) as [items | err];
    [| inversion H; left; eauto].
  cbn zeta in H. rewrite scanCycle_unfold in H. cbn zeta in H.
  pose proof (rangeServices_panics w tlsTimeout skipNamespaceRegex r cause
                items 0
                (snd (emit (EvInfof (Scanning (length items)))
                           (snd (listServices w s))))) as Hs.
  destruct (rangeServices _ _ _ _ _ _ _) as [[found | c] s1];
    cbn [fst snd] in H, Hs.
  - eapply IH, H.
  - inversion H; subst. right.
    destruct (Hs eq_refl) as (val & -> & _). eauto.
Qed.

(** C8.  A skip pattern that is not empty and does not compile kills the
    process at its start, whatever else the world does: it panics before
    any cycle has run, in the state it started in, and when the cluster
    configuration and the client were obtained the panic is the compile
    error.  Conversely a panic on a compile error, for any pattern and
    however long the process is watched, is a panic of the start (the
    state is untouched, so no cycle ran) and its pattern is not empty; and
    the empty pattern compiles. *)
Theorem bad_skip_pattern_is_fatal_at_start
    (w : World) (discoverFrequency tlsTimeout : time.Duration)
    (skipNamespaceRegex : string) (err : regexp.Error) :
  skipNamespaceRegex <> "" ->
  regexp.Compile (RegexpRest w) skipNamespaceRegex = regexp.CompileError err ->
  (forall cycles s,
     exists cause,
       discoverServices cycles w discoverFrequency tlsTimeout
                        skipNamespaceRegex s = Panicked cause s /\
       (InClusterConfig w = None -> NewForConfig w = None ->
        cause = RegexpCompileFailed err)) /\
  (forall cycles w' pattern s err' s',
     discoverServices cycles w' discoverFrequency tlsTimeout pattern s
       = Panicked (RegexpCompileFailed err') s' ->
     s' = s /\ pattern <> "" /\
     regexp.Compile (RegexpRest w') pattern = regexp.CompileError err') /\
  (forall w', exists r, regexp.Compile (RegexpRest w') "" = regexp.Compiled r).
Proof.
  intros Hne Hc. split; [| split].
  - intros cycles s. unfold discoverServices. rewrite Hc.
    assert (Hb : negb (String.eqb skipNamespaceRegex "") = true).
    { apply negb_true_iff, String.eqb_neq, Hne. }
    rewrite Hb.
    destruct (InClusterConfig w) as [e1 |];
      [exists (InClusterConfigFailed e1); split; [reflexivity | discriminate] |].
    destruct (NewForConfig w) as [e2 |];
      [exists (NewForConfigFailed e2); split;
       [reflexivity | intros _; discriminate] |].
    exists (RegexpCompileFailed err). split; reflexivity || auto.
  - intros cycles w' pattern s err' s' H. unfold discoverServices in H.
    destruct (InClusterConfig w'); [discriminate |].
    destruct (NewForConfig w'); [discriminate |].
    destruct (regexp.Compile (RegexpRest w') pattern) as [re | err0] eqn:Hp.
    + apply scanLoop_panics in H as [[e He] | [v Hv]]; discriminate.
    + destruct (String.eqb pattern "") eqn:Hb; cbn [negb] in H.
      * apply scanLoop_panics in H as [[e He] | [v Hv]]; discriminate.
      * inversion H; subst. repeat split.
        now apply String.eqb_neq.
  - intros w'. eexists. apply Compile_empty.
Qed.

Lemma bad_skip_pattern_is_fatal_at_start_witness :
  discoverServices 3 exampleWorld 7200000000000 400000000 "^(kube-"
                   initialState
  = Panicked (RegexpCompileFailed (regexp.SyntaxError syntax.ErrMissingParen))
             initialState /\
  discoverServices 3 exampleWorld 7200000000000 400000000 "[a-z"
                   initialState
  = Panicked (RegexpCompileFailed
                (regexp.OtherError
                   "error parsing regexp: missing closing ]: `[a-z`"))
             initialState.
Proof.
  split.
  - destruct (bad_skip_pattern_is_fatal_at_start exampleWorld 7200000000000
                400000000 "^(kube-"
                (regexp.SyntaxError syntax.ErrMissingParen)
                ltac:(discriminate) eq_refl) as [Hstart _].
    destruct (Hstart 3%nat initialState) as (cause & Hrun & Hcause).
    rewrite Hrun. f_equal. apply Hcause; reflexivity.
  - destruct (bad_skip_pattern_is_fatal_at_start exampleWorld 7200000000000
                400000000 "[a-z"
                (regexp.OtherError
                   "error parsing regexp: missing closing ]: `[a-z`")
                ltac:(discriminate) eq_refl) as [Hstart _].
    destruct (Hstart 3%nat initialState) as (cause & Hrun & Hcause).
    rewrite Hrun. f_equal. apply Hcause; reflexivity.
Defined.

(* ===================================================================== *)
(** * Traces of a probe                                                   *)
(* ===================================================================== *)

Lemma expirationSets_app evs1 evs2 :
  expirationSets (evs1 ++ evs2) = expirationSets evs1 ++ expirationSets evs2.
Proof. apply flat_map_app. Qed.

Lemma expirationSets_writes ws : expirationSets (flat_map writeEvents ws) = ws.
Proof.
  induction ws as [| [k v] ws IH]; [reflexivity |].
  cbn [flat_map writeEvents app fst snd].
  change (expirationSets (EvNow :: EvExpirationSet k v :: ?l))
    with ((k, v) :: expirationSets l).
  unfold expirationSets at 1. cbn [flat_map app].
  fold (expirationSets (flat_map writeEvents ws)). now rewrite IH.
Qed.

Lemma certWrites_lookup w namespace svc port : forall certs tick i cert,
  certs !! i = Some cert ->
  certWrites w namespace svc port tick certs !! i
  = Some (labelValues namespace svc port cert,
          time.Seconds (time.Sub (NotAfter cert) (Now w (tick + i)%nat))).
Proof.
  induction certs as [| c certs IH]; intros tick [| i] cert H;
    try discriminate.
  - inversion H; subst. cbn. now rewrite Nat.add_0_r.
  - etrans; [exact (IH (S tick) i cert H) |].
    do 5 f_equal. lia.
Qed.

Lemma certWrites_keys w namespace svc port : forall certs tick,
  map fst (certWrites w namespace svc port tick certs)
  = map (labelValues namespace svc port) certs.
Proof.
  induction certs as [| c certs IH]; intros tick; [reflexivity |].
  cbn. now rewrite IH.
Qed.


(** The updates in the trace of a probe whose handshake and write
    succeeded: those of the certificates that are published. *)
Lemma testTLS_handshaken_sets w tlsTimeout svc namespace port s conn :
  DialWithDialer w (dials s) tlsTimeout (fullhostnameOf svc namespace port)
    = Ok conn ->
  WriteErr conn = None ->
  exists evs,
    trace (snd (testTLS w tlsTimeout svc namespace port s)) = trace s ++ evs /\
    expirationSets evs
    = certWrites w namespace svc port (clock s)
        (published namespace svc port (PeerCertificates conn)).
Proof.
  intros Hd Hw. rewrite (testTLS_handshaken _ _ _ _ _ _ _ Hd Hw).
  cbn [snd trace]. eexists. split; [reflexivity |].
  rewrite !expirationSets_app, expirationSets_writes.
  destruct (refused _ _ _ _); cbn; now rewrite app_nil_r.
Qed.


(** After a run of updates each series holds the value written last, and
    a series that was not written keeps the value it had. *)
Lemma fold_setSeries_lookup (k : Labels) : forall ws (m : gmap Labels float64),
  fold_left setSeries ws m !! k
  = match lastWrite k ws with
    | Some v => Some v
    | None => m !! k
    end.
Proof.
  induction ws as [| [k' v] ws IH]; intros m; [reflexivity |].
  cbn [fold_left lastWrite]. rewrite IH. unfold setSeries. cbn [fst snd].
  destruct (lastWrite k ws); [reflexivity |].
  destruct (decide (k' = k)) as [-> | Hne].
  - apply lookup_insert_eq.
  - now apply lookup_insert_ne.
Qed.

(* ===================================================================== *)
(** * The probe (C1, C6, C10)                                             *)
(* ===================================================================== *)

(** C1, as the code has it.  When the handshake succeeds and the write of
    the payload then fails, the probe logs the failure, closes the
    connection and reports failure with no certificate: the chain it had
    obtained is dropped and no series is updated. *)
Theorem write_failure_fails_the_probe
    (w : World) (tlsTimeout : time.Duration) (svc namespace : string)
    (port : Z) (s : State) (conn : Conn) (err : string) :
  DialWithDialer w (dials s) tlsTimeout
    (svc +:+ "." +:+ namespace +:+ ".svc.cluster.local:" +:+ strconv.Itoa port)
    = Ok conn ->
  WriteErr conn = Some err ->
  let fullhostname := fullhostnameOf svc namespace port in
  let probed := testTLS w tlsTimeout svc namespace port s in
  fst probed = Returns (false, 0) /\
  expiredCertsGauge (snd probed) = expiredCertsGauge s /\
  trace (snd probed)
  = trace s ++ [EvDial tlsTimeout "tcp" fullhostname true;
                EvWrite fullhostname ping;
                EvErrorf (CouldNotSend fullhostname err);
                EvClose fullhostname].
Proof.
  intros Hd Hw fullhostname probed. subst probed.
  rewrite (testTLS_write_failed w tlsTimeout svc namespace port s conn err
             Hd Hw).
  repeat split.
Qed.

Lemma write_failure_fails_the_probe_witness :
  fst (testTLS exampleWorld 400000000 "vault" "default" 8200 initialState)
  = Returns (false, 0).
Proof.
  exact (proj1 (write_failure_fails_the_probe exampleWorld 400000000
                  "vault" "default" 8200 initialState
                  (mkConn [leafCert] (Some "connection reset by peer"))
                  "connection reset by peer" eq_refl eq_refl)).
Defined.

(** The handshake with [vault] yields a chain of one certificate, the
    write fails, and the probe returns [(false, 0)], not the chain; the
    registry stays empty. *)
Lemma write_failure_drops_the_chain :
  let probed :=
    testTLS exampleWorld 400000000 "vault" "default" 8200 initialState in
  DialWithDialer exampleWorld 0 400000000
                 "vault.default.svc.cluster.local:8200"
    = Ok (mkConn [leafCert] (Some "connection reset by peer")) /\
  fst probed = Returns (false, 0) /\
  fst probed <> Returns (true, Z.of_nat (length [leafCert])) /\
  expiredCertsGauge (snd probed) = ∅.
Proof. repeat split. discriminate. Qed.



(** C10.  The first thing a probe of (service, namespace, port) does is
    dial, over TCP and with the timeout it was given, the address
    [<service>.<namespace>.svc.cluster.local:<port>], the port in decimal;
    it dials nothing else, however it ends. *)
Theorem probe_dials_the_cluster_dns_name
    (w : World) (tlsTimeout : time.Duration) (svc namespace : string)
    (port : Z) (s : State) :
  exists evs,
    trace (snd (testTLS w tlsTimeout svc namespace port s))
    = trace s
      ++ EvDial tlsTimeout "tcp"
           (svc +:+ "." +:+ namespace +:+ ".svc.cluster.local:"
            +:+ strconv.Itoa port) true
         :: evs /\
    (forall timeout network addr insecure,
       ~ In (EvDial timeout network addr insecure) evs) /\
    fullhostnameOf "api" "default" 443 = "api.default.svc.cluster.local:443".
Proof.
  assert (Hw : forall ws timeout network addr insecure,
            ~ In (EvDial timeout network addr insecure)
                 (flat_map writeEvents ws)).
  { induction ws as [| kv ws IH]; intros timeout network addr insecure;
      cbn [flat_map writeEvents app In]; [tauto |].
    intros [H | [H | H]]; try discriminate. eapply IH, H. }
  probe_cases Hd He; cbn [snd trace];
    (eexists; split; [reflexivity |]; split; [| reflexivity]);
    intros timeout network addr insecure.
  - intros [H | [H | [H | []]]]; discriminate.
  - intros [H | H]; [discriminate |].
    apply in_app_or in H as [H | H]; [eapply Hw, H |].
    apply in_app_or in H as [H | [H | []]]; [| discriminate].
    destruct (refused _ _ _ _); destruct H as [H | []]; discriminate.
  - intros [H | []]; discriminate.
Qed.

(* ===================================================================== *)
(** * The namespace filter (C3)                                           *)
(* ===================================================================== *)

(** C3.  With the empty pattern the filter lets every namespace through,
    whatever the compiled pattern is; with a pattern that is not empty and
    compiles, whichever pattern it is and whatever bytes the namespace
    holds, it skips the namespace exactly when the pattern matches
    somewhere in it.  The pattern [^kube-] always compiles, skips
    [kube-system] and lets [payments] through.  (A pattern that is not
    empty and does not compile leaves no filter to speak of: the process
    dies before it lists a service.) *)
Theorem shouldSkip_spec :
  (forall r ns, shouldSkip "" r ns = false) /\
  (forall w pattern r ns,
     pattern <> "" ->
     regexp.Compile (RegexpRest w) pattern = regexp.Compiled r ->
     (shouldSkip pattern r ns = true
      <-> regexp.PatternMatches (RegexpRest w) pattern ns)) /\
  (forall w,
     exists r,
       regexp.Compile (RegexpRest w) "^kube-" = regexp.Compiled r /\
       shouldSkip "^kube-" r "kube-system" = true /\
       shouldSkip "^kube-" r "payments" = false).
Proof.
  split; [reflexivity |]. split.
  - intros w pattern r ns Hne Hc. unfold shouldSkip, regexp.PatternMatches.
    assert (Hb : negb (String.eqb pattern "") = true).
    { apply negb_true_iff, String.eqb_neq, Hne. }
    rewrite Hb, Hc. cbn [andb]. apply Match_spec.
  - intros w. exists kubePrefix. repeat split.
Qed.

Lemma shouldSkip_spec_witness :
  regexp.PatternMatches exampleRest "^kube-" "kube-system" /\
  regexp.PatternMatches exampleRest "[a-z]+-system" "kube-system".
Proof.
  split.
  - exact (proj1 (proj1 (proj2 shouldSkip_spec) exampleWorld "^kube-"
                    kubePrefix "kube-system" ltac:(discriminate) eq_refl)
                 eq_refl).
  - exact (proj1 (proj1 (proj2 shouldSkip_spec) exampleWorld "[a-z]+-system"
                    (regexp.Foreign lowerThenSystem) "kube-system"
                    ltac:(discriminate) eq_refl)
                 eq_refl).
Defined.

(* ===================================================================== *)
(** * The expiration gauge (C4, C5)                                       *)
(* ===================================================================== *)

Lemma labelValues_of_issuer namespace svc port certs :
  map (labelValues namespace svc port) certs
  = map (fun issuer => (namespace, svc, strconv.Itoa port,
                        CommonName issuer, SerialNumber issuer))
        (map Issuer certs).
Proof. rewrite map_map. reflexivity. Qed.

(** What is published of a chain depends on its issuers only. *)
Lemma published_of_issuer namespace svc port : forall certs1 certs2,
  map Issuer certs1 = map Issuer certs2 ->
  map Issuer (published namespace svc port certs1)
  = map Issuer (published namespace svc port certs2).
Proof.
  induction certs1 as [| c1 certs1 IH]; intros [| c2 certs2] H;
    try discriminate; [reflexivity |].
  cbn [map] in H. injection H as Hc Hrest.
  cbn [published]. unfold labelValues. rewrite Hc.
  destruct (invalidLabelValue _); [reflexivity |].
  cbn [map]. now rewrite Hc, (IH certs2 Hrest).
Qed.

(** C4.  Two probes of the same (namespace, service, port) that complete
    the handshake and the write, in any two states and worlds, so in two
    different cycles, against chains with the same issuers, update series
    with the same label values in the same order; for namespace
    [default], service [api] and port 443 the labels are [default], [api],
    [443] and the issuer's common name and serial number.  After a probe
    every series it wrote holds the value written last, whatever it held
    before, and every other series holds what it held: values are set,
    never added up, and no series is removed.  (The certificates written
    are those of the chain, all of them when their label values are valid
    UTF-8.) *)
Theorem series_are_keyed_stably_and_overwritten
    (w1 w2 : World) (timeout1 timeout2 : time.Duration)
    (svc namespace : string) (port : Z) (s1 s2 : State) (conn1 conn2 : Conn) :
  DialWithDialer w1 (dials s1) timeout1 (fullhostnameOf svc namespace port)
    = Ok conn1 ->
  WriteErr conn1 = None ->
  DialWithDialer w2 (dials s2) timeout2 (fullhostnameOf svc namespace port)
    = Ok conn2 ->
  WriteErr conn2 = None ->
  map Issuer (PeerCertificates conn1) = map Issuer (PeerCertificates conn2) ->
  let first := testTLS w1 timeout1 svc namespace port s1 in
  let second := testTLS w2 timeout2 svc namespace port s2 in
  let written := published namespace svc port (PeerCertificates conn2) in
  (exists evs1 evs2,
     trace (snd first) = trace s1 ++ evs1 /\
     trace (snd second) = trace s2 ++ evs2 /\
     map fst (expirationSets evs1) = map fst (expirationSets evs2)) /\
  (forall k,
     expiredCertsGauge (snd second) !! k
     = match lastWrite k (certWrites w2 namespace svc port (clock s2)
                            written) with
       | Some v => Some v
       | None => expiredCertsGauge s2 !! k
       end) /\
  (refused namespace svc port (PeerCertificates conn2) = None ->
   written = PeerCertificates conn2) /\
  (forall cert,
     labelValues "default" "api" 443 cert
     = ("default", "api", "443",
        CommonName (Issuer cert), SerialNumber (Issuer cert))).
Proof.
  intros Hd1 Hw1 Hd2 Hw2 Hissuers first second written.
  subst first second written.
  split; [| split; [| split; [apply published_all | reflexivity]]].
  - destruct (testTLS_handshaken_sets w1 timeout1 svc namespace port s1 conn1
                Hd1 Hw1) as (evs1 & Ht1 & Hs1).
    destruct (testTLS_handshaken_sets w2 timeout2 svc namespace port s2 conn2
                Hd2 Hw2) as (evs2 & Ht2 & Hs2).
    exists evs1, evs2. split; [exact Ht1 |]. split; [exact Ht2 |].
    rewrite Hs1, Hs2, !certWrites_keys, !labelValues_of_issuer.
    now rewrite (published_of_issuer _ _ _ _ _ Hissuers).
  - intros k. rewrite (testTLS_handshaken _ _ _ _ _ _ _ Hd2 Hw2).
    cbn [snd expiredCertsGauge]. apply fold_setSeries_lookup.
Qed.

Lemma series_are_keyed_stably_and_overwritten_witness :
  let s1 := initialState in
  let s2 := snd (testTLS exampleWorld 400000000 "api" "default" 443 s1) in
  let s3 := snd (testTLS exampleWorld 400000000 "api" "default" 443 s2) in
  expiredCertsGauge s3 !! ("default", "api", "443", "intermediate-ca", "7")
  = Some (time.Seconds
            (time.Sub (NotAfter leafCert) (Now exampleWorld 2))).
Proof.
  intros s1 s2 s3.
  destruct (series_are_keyed_stably_and_overwritten exampleWorld exampleWorld
              400000000 400000000 "api" "default" 443 s1 s2
              (mkConn [leafCert; intermediateCert] None)
              (mkConn [leafCert; intermediateCert] None)
              eq_refl eq_refl eq_refl eq_refl eq_refl) as (_ & Hset & _).
  subst s3. rewrite Hset. vm_compute. reflexivity.
Defined.

(** C5, as the code has it.  The value published for the [i]-th
    certificate of a probed chain is, within the rounding of [float64],
    [notAfter - now] in seconds whenever that difference fits in a
    [Duration]; a larger difference is published as the largest
    [Duration] and a smaller one as the smallest.  The value is positive
    when [notAfter] is after [now] and negative when it is before; a
    negative value is published like any other and the probe succeeds.
    (A certificate is published when the registry takes its label values
    and those of the certificates before it, and the probe succeeds when
    it takes those of the whole chain.) *)
Theorem published_lifetime
    (w : World) (tlsTimeout : time.Duration) (svc namespace : string)
    (port : Z) (s : State) (conn : Conn) (i : nat) (cert : Certificate) :
  DialWithDialer w (dials s) tlsTimeout (fullhostnameOf svc namespace port)
    = Ok conn ->
  WriteErr conn = None ->
  published namespace svc port (PeerCertificates conn) !! i = Some cert ->
  let now := Now w (clock s + i)%nat in
  let remaining := time.nanos (NotAfter cert) - time.nanos now in
  let seconds (d : Z) := (inject_Z d / inject_Z time.Second)%Q in
  let near (v x : Q) := (Qabs (v - x) <= Qabs x * tolerance)%Q in
  let probed := testTLS w tlsTimeout svc namespace port s in
  (refused namespace svc port (PeerCertificates conn) = None ->
   published namespace svc port (PeerCertificates conn)
   = PeerCertificates conn /\
   exists n, fst probed = Returns (true, n)) /\
  exists evs v,
    trace (snd probed) = trace s ++ evs /\
    expirationSets evs !! i = Some (labelValues namespace svc port cert, v) /\
    (time.minDuration <= remaining <= time.maxDuration ->
     near v (seconds remaining)) /\
    (time.maxDuration < remaining -> near v (seconds time.maxDuration)) /\
    (remaining < time.minDuration -> near v (seconds time.minDuration)) /\
    (time.After (NotAfter cert) now = true -> (0 < v)%Q) /\
    (time.Before (NotAfter cert) now = true -> (v < 0)%Q).
Proof.
  intros Hd Hw Hi now remaining seconds near probed. subst probed.
  split.
  { intros Hvalid. split; [now apply published_all |].
    rewrite (testTLS_succeeded _ _ _ _ _ _ _ Hd Hw Hvalid); eauto. }
  destruct (testTLS_handshaken_sets w tlsTimeout svc namespace port s conn
              Hd Hw) as (evs & Ht & Hsets).
  exists evs, (time.Seconds (time.Sub (NotAfter cert) now)).
  split; [exact Ht |].
  split; [rewrite Hsets; now apply certWrites_lookup |].
  subst near seconds. cbn beta.
  split; [intros Hfit; rewrite (Sub_exact _ _ Hfit); apply Seconds_near |].
  split; [intros Hbig; rewrite (Sub_above _ _ Hbig); apply Seconds_near |].
  split; [intros Hlow; rewrite (Sub_below _ _ Hlow); apply Seconds_near |].
  split.
  - intros Hafter. now apply Seconds_pos, Sub_pos.
  - intros Hbefore. now apply Seconds_neg, Sub_neg.
Qed.

Lemma published_lifetime_witness :
  exists n,
    fst (testTLS exampleWorld 400000000 "ledger" "payments" 443 initialState)
    = Returns (true, n).
Proof.
  exact (proj2 (proj1 (published_lifetime exampleWorld 400000000 "ledger"
                         "payments" 443 initialState
                         (mkConn [expiredCert] None) 0 expiredCert
                         eq_refl eq_refl eq_refl)
                      eq_refl)).
Defined.

(** A certificate that is not to expire before the year 9999, probed in
    2026: 251608723199 seconds remain, and the published lifetime is the
    largest [Duration] as a [float64], 9223372036.854776 seconds (some 292
    years), twenty-seven times less and far from any rounding of what
    remains. *)
Lemma far_future_lifetime_is_clamped :
  let probed :=
    testTLS exampleWorld 400000000 "hsm" "default" 443 initialState in
  let remaining :=
    time.nanos (NotAfter foreverCert) - time.nanos (Now exampleWorld 0) in
  let seconds := (inject_Z remaining / inject_Z time.Second)%Q in
  PeerCertificates (mkConn [foreverCert] None) = [foreverCert] /\
  (seconds == 251608723199 # 1)%Q /\
  exists v,
    expiredCertsGauge (snd probed)
      !! ("default", "hsm", "443", "device-ca", "42") = Some v /\
    (v == 4835703278458517 # 524288)%Q /\
    (v < 9223372037 # 1)%Q /\
    ~ (Qabs (v - seconds) <= Qabs seconds * tolerance)%Q.
Proof.
  split; [reflexivity |]. split; [reflexivity |].
  eexists. split; [vm_compute; reflexivity |].
  split; [reflexivity |]. split; [reflexivity |].
  vm_compute. intros H. apply H. reflexivity.
Qed.

(* ===================================================================== *)
(** * Further properties of the loop                                      *)
(* ===================================================================== *)

(** X1.  A probe that fails, at the dial or at the write, returns
    [(false, 0)], logs one line, an error, and leaves every metric as it
    was: the failure shows in the log only. *)
Theorem failed_probe_updates_nothing
    (w : World) (tlsTimeout : time.Duration) (svc namespace : string)
    (port : Z) (s : State) :
  probedChain w tlsTimeout (dials s) svc namespace port = None ->
  let probed := testTLS w tlsTimeout svc namespace port s in
  fst probed = Returns (false, 0) /\
  expiredCertsGauge (snd probed) = expiredCertsGauge s /\
  discoveredCertsGauge (snd probed) = discoveredCertsGauge s /\
  hearthbeatCounter (snd probed) = hearthbeatCounter s /\
  exists evs line,
    trace (snd probed) = trace s ++ evs /\
    logged evs = [EvErrorf line] /\
    expirationSets evs = [].
Proof.
  intros H probed. subst probed. unfold probedChain in H.
  destruct (DialWithDialer w (dials s) tlsTimeout
              (fullhostnameOf svc namespace port)) as [conn | err] eqn:Hd.
  - destruct (WriteErr conn) as [err |] eqn:Hw; [| discriminate].
    rewrite (testTLS_write_failed _ _ _ _ _ _ _ _ Hd Hw).
    cbn [fst snd expiredCertsGauge discoveredCertsGauge hearthbeatCounter
         trace].
    repeat split. eexists _, _. repeat split.
  - rewrite (testTLS_dial_failed _ _ _ _ _ _ _ Hd).
    cbn [fst snd expiredCertsGauge discoveredCertsGauge hearthbeatCounter
         trace].
    repeat split. eexists _, _. repeat split.
Qed.

Lemma failed_probe_updates_nothing_witness :
  fst (testTLS exampleWorld 400000000 "api" "default" 8080 initialState)
  = Returns (false, 0).
Proof.
  exact (proj1 (failed_probe_updates_nothing exampleWorld 400000000
                  "api" "default" 8080 initialState eq_refl)).
Defined.

(** X2.  In a world of valid names, as long as the service listing
    succeeds the loop never stops: after any number of cycles the process
    is still running and the heartbeat has advanced once per cycle,
    however many probes failed. *)
Theorem loop_runs_while_listing_succeeds
    (w : World) (discoverFrequency tlsTimeout : time.Duration)
    (skipNamespaceRegex : string) (r : regexp.Regexp) :
  ValidNames w ->
  forall (cycles : nat) (s : State),
  (forall i, (i < cycles)%nat ->
             exists items, List_ w (lists s + i)%nat = Ok items) ->
  exists s',
    scanLoop cycles w discoverFrequency tlsTimeout skipNamespaceRegex r s
      = Running s' /\
    hearthbeatCounter s' = hearthbeatCounter s + Z.of_nat cycles /\
    lists s' = (lists s + cycles)%nat.
Proof.
  intros Hnames. induction cycles as [| cycles IH]; intros s Hok.
  - exists s. cbn [scanLoop]. repeat split; lia.
  - destruct (Hok 0%nat ltac:(lia)) as [items Hitems].
    rewrite Nat.add_0_r in Hitems.
    set (s1 := snd (listServices w s)).
    assert (Hvalid : labelsValid (targetsOf skipNamespaceRegex r items)
              (probeOutcomes w tlsTimeout (dials s1)
                 (targetsOf skipNamespaceRegex r items)) = true)
      by (eapply ValidNames_labelsValid; eassumption).
    rewrite (scanLoop_cycle _ _ _ _ _ _ _ _ Hitems Hvalid). fold s1.
    destruct (scanCycle_spec w discoverFrequency tlsTimeout
                skipNamespaceRegex r items s1 Hvalid)
      as (_ & Hh & _ & Hl & _).
    set (s2 := snd (scanCycle w discoverFrequency tlsTimeout
                      skipNamespaceRegex r items s1)) in *.
    assert (Hl2 : lists s2 = S (lists s)) by (rewrite Hl; reflexivity).
    assert (Hh2 : hearthbeatCounter s2 = hearthbeatCounter s + 1)
      by (rewrite Hh; reflexivity).
    clearbody s2. clear Hh Hl Hvalid. clearbody s1.
    destruct (IH s2) as (s' & Hrun & Hh' & Hl').
    + intros i Hi. rewrite Hl2.
      replace (S (lists s) + i)%nat with (lists s + S i)%nat by lia.
      apply Hok. lia.
    + exists s'. split; [exact Hrun |]. split; lia.
Qed.

Lemma loop_runs_while_listing_succeeds_witness :
  exists s',
    scanLoop 3 exampleWorld 7200000000000 400000000 "^kube-" kubePrefix
             initialState = Running s' /\
    hearthbeatCounter s' = 3.
Proof.
  destruct (loop_runs_while_listing_succeeds exampleWorld 7200000000000
              400000000 "^kube-" kubePrefix ValidNames_exampleWorld 3
              initialState)
    as (s' & Hrun & Hh & _).
  - intros i _. exists exampleItems. reflexivity.
  - exists s'. split; [exact Hrun | exact Hh].
Defined.

Lemma dialled_app evs1 evs2 : dialled (evs1 ++ evs2) = dialled evs1 ++ dialled evs2.
Proof. apply flat_map_app. Qed.

Lemma dialled_writes ws : dialled (flat_map writeEvents ws) = [].
Proof. induction ws as [| kv ws IH]; [reflexivity | exact IH]. Qed.

(** A probe dials its address, once, however it ends. *)
Lemma testTLS_dialled w tlsTimeout svc namespace port s :
  exists evs,
    trace (snd (testTLS w tlsTimeout svc namespace port s)) = trace s ++ evs /\
    dialled evs = [fullhostnameOf svc namespace port].
Proof.
  probe_cases Hd Hw; cbn [snd trace];
    (eexists; split; [reflexivity |]); try reflexivity.
  rewrite !dialled_app, dialled_writes.
  destruct (refused _ _ _ _); reflexivity.
Qed.

Lemma rangePorts_dialled w tlsTimeout svcName ns : forall ports acc s,
  exists evs n,
    trace (snd (rangePorts w tlsTimeout svcName ns ports acc s))
      = trace s ++ evs /\
    (n <= length ports)%nat /\
    dialled evs = firstn n (map (fullhostnameOf svcName ns) ports) /\
    ((exists found,
        fst (rangePorts w tlsTimeout svcName ns ports acc s) = Returns found)
     -> n = length ports).
Proof.
  induction ports as [| port ports IH]; intros acc s.
  - exists [], 0%nat. cbn. rewrite app_nil_r. auto.
  - cbn [rangePorts]. rewrite bind_unfold.
    destruct (testTLS_dialled w tlsTimeout svcName ns port s)
      as (evs1 & Ht1 & Hd1).
    destruct (testTLS w tlsTimeout svcName ns port s)
      as [[[ok certsNum] | cause] s1]; cbn [fst snd] in Ht1 |- *.
    + destruct (IH (if ok then wrapInt (acc + certsNum) else acc) s1)
        as (evs2 & n & Ht2 & Hn & Hd2 & Hall).
      exists (evs1 ++ evs2), (S n). split; [| split; [| split]].
      * now rewrite Ht2, Ht1, <- app_assoc.
      * cbn [length]. lia.
      * now rewrite dialled_app, Hd1, Hd2.
      * intros Hret. cbn [length]. f_equal. now apply Hall.
    + exists evs1, 1%nat. split; [exact Ht1 |]. split; [cbn; lia |].
      split; [exact Hd1 |]. intros [found Hret]. discriminate.
Qed.

Lemma rangeServices_dialled w tlsTimeout skipNamespaceRegex r :
  forall items acc s,
  exists evs n,
    trace (snd (rangeServices w tlsTimeout skipNamespaceRegex r items acc s))
      = trace s ++ evs /\
    (n <= length (targetsOf skipNamespaceRegex r items))%nat /\
    dialled evs
    = firstn n (map addressOf (targetsOf skipNamespaceRegex r items)) /\
    ((exists found,
        fst (rangeServices w tlsTimeout skipNamespaceRegex r items acc s)
        = Returns found)
     -> n = length (targetsOf skipNamespaceRegex r items)).
Proof.
  induction items as [| svc items IH]; intros acc s.
  - exists [], 0%nat. cbn. rewrite app_nil_r. auto.
  - cbn [rangeServices targetsOf flat_map].
    fold (targetsOf skipNamespaceRegex r items).
    destruct (shouldSkip skipNamespaceRegex r (GetNamespace svc)).
    + rewrite bind_unfold. unfold Infof. cbn [emit fst].
      destruct (IH acc (snd (emit (EvInfof (Skipping (GetName svc)
                                             (GetNamespace svc))) s)))
        as (evs & n & Ht & Hn & Hd & Hall).
      exists (EvInfof (Skipping (GetName svc) (GetNamespace svc)) :: evs), n.
      split; [| auto].
      rewrite Ht. cbn [emit snd trace]. now rewrite <- app_assoc.
    + rewrite bind_unfold.
      destruct (rangePorts_dialled w tlsTimeout (GetName svc)
                  (GetNamespace svc) (Ports svc) acc s)
        as (evs1 & n1 & Ht1 & Hn1 & Hd1 & Hall1).
      set (here := map (fun port => (GetName svc, GetNamespace svc, port))
                       (Ports svc)).
      assert (Hhere : map addressOf here
                      = map (fullhostnameOf (GetName svc) (GetNamespace svc))
                            (Ports svc))
        by (subst here; now rewrite map_map).
      assert (Hlen : length here = length (Ports svc))
        by (subst here; apply length_map).
      destruct (rangePorts w tlsTimeout (GetName svc) (GetNamespace svc)
                  (Ports svc) acc s) as [[found | cause] s1];
        cbn [fst snd] in Ht1, Hall1 |- *; unfold Target in *.
      * destruct (IH found s1) as (evs2 & n2 & Ht2 & Hn2 & Hd2 & Hall2).
        specialize (Hall1 ltac:(eauto)). subst n1.
        exists (evs1 ++ evs2), (length here + n2)%nat.
        split; [now rewrite Ht2, Ht1, <- app_assoc |].
        split; [rewrite length_app; lia |].
        split.
        -- rewrite dialled_app, Hd1, Hd2, map_app, <- Hhere.
           rewrite firstn_all2 by (rewrite length_map; lia).
           replace (length here) with (length (map addressOf here))
             by apply length_map.
           now rewrite firstn_app_2.
        -- intros Hret. rewrite length_app. f_equal. now apply Hall2.
      * exists evs1, n1. split; [exact Ht1 |].
        split; [rewrite length_app; lia |].
        split.
        -- rewrite Hd1, map_app, <- Hhere, firstn_app, Hhere, length_map.
           replace (n1 - length (Ports svc))%nat with 0%nat by lia.
           cbn [firstn]. now rewrite app_nil_r.
        -- intros [found Hret]. discriminate.
Qed.

(** A cycle dials its targets in order, and all of them when it reaches
    its end. *)
Lemma scanCycle_dialled w discoverFrequency tlsTimeout skipNamespaceRegex r
    items s :
  exists evs n,
    trace (snd (scanCycle w discoverFrequency tlsTimeout skipNamespaceRegex
                          r items s)) = trace s ++ evs /\
    (n <= length (targetsOf skipNamespaceRegex r items))%nat /\
    dialled evs
    = firstn n (map addressOf (targetsOf skipNamespaceRegex r items)) /\
    (fst (scanCycle w discoverFrequency tlsTimeout skipNamespaceRegex r
                    items s) = Returns tt
     -> n = length (targetsOf skipNamespaceRegex r items)).
Proof.
  rewrite scanCycle_unfold. cbn zeta.
  set (s0 := snd (emit (EvInfof (Scanning (length items))) s)).
  destruct (rangeServices_dialled w tlsTimeout skipNamespaceRegex r items
              0 s0) as (evs & n & Ht & Hn & Hd & Hall).
  destruct (rangeServices w tlsTimeout skipNamespaceRegex r items 0 s0)
    as [[found | cause] s1]; cbn [fst snd] in Ht, Hall |- *.
  - rewrite Ht. subst s0. cbn [emit snd trace].
    exists (EvInfof (Scanning (length items)) :: evs
            ++ [EvDiscoveredSet (float64_of_int found); EvHeartbeatInc;
                EvInfof (Sleeping discoverFrequency);
                EvSleep discoverFrequency]), n.
    split; [now rewrite <- !app_assoc |]. split; [exact Hn |].
    split; [| intros _; apply Hall; eauto].
    change (dialled (EvInfof ?l :: ?rest)) with (dialled rest).
    rewrite dialled_app, Hd. cbn. now rewrite app_nil_r.
  - rewrite Ht. subst s0. cbn [emit snd trace].
    exists (EvInfof (Scanning (length items)) :: evs), n.
    split; [now rewrite <- !app_assoc |]. split; [exact Hn |].
    split; [exact Hd | discriminate].
Qed.

(** X3.  A scan cycle dials nothing but the addresses of the ports of the
    services whose namespace the filter lets through, each once at most
    and in listing order, and all of them when it reaches its end: a
    skipped namespace is never dialled.  The example cluster is dialled
    at three addresses, none of [kube-dns]. *)
Theorem cycle_dials_exactly_the_unskipped_targets
    (w : World) (discoverFrequency tlsTimeout : time.Duration)
    (skipNamespaceRegex : string) (r : regexp.Regexp)
    (items : list Service) (s : State) :
  let cycle := scanCycle w discoverFrequency tlsTimeout skipNamespaceRegex
                         r items s in
  let addresses :=
    map (fun target : Target =>
           let '(svc, ns, port) := target in
           svc +:+ "." +:+ ns +:+ ".svc.cluster.local:"
           +:+ strconv.Itoa port)
        (targetsOf skipNamespaceRegex r items) in
  (exists evs n,
     trace (snd cycle) = trace s ++ evs /\
     dialled evs = firstn n addresses /\
     (fst cycle = Returns tt -> dialled evs = addresses)) /\
  dialled (trace (snd (scanCycle exampleWorld discoverFrequency tlsTimeout
                                 "^kube-" kubePrefix exampleItems
                                 initialState)))
  = ["api.default.svc.cluster.local:443";
     "api.default.svc.cluster.local:8080";
     "ledger.payments.svc.cluster.local:443"].
Proof.
  intros cycle addresses. subst cycle. split; [| vm_compute; reflexivity].
  destruct (scanCycle_dialled w discoverFrequency tlsTimeout
              skipNamespaceRegex r items s) as (evs & n & Ht & Hn & Hd & Hall).
  assert (E : map addressOf (targetsOf skipNamespaceRegex r items)
              = addresses)
    by (apply map_ext; intros [[svc ns] port]; reflexivity).
  rewrite E in Hd.
  exists evs, n. split; [exact Ht |]. split; [exact Hd |].
  intros Hend. rewrite Hd, (Hall Hend).
  apply firstn_all2. subst addresses. now rewrite length_map.
Qed.

(* ===================================================================== *)
(** * Invariants of the two inner loops                                   *)
(* ===================================================================== *)

(** A relation between states that every probe and every skip keeps, and
    that composes, is kept by the loop over the ports of a service and by
    the loop over the services.  The relation may tell a step that
    returned from one that panicked, after which nothing follows. *)
Section InnerLoops.

Variable R : bool -> State -> State -> Prop.
Variable w : World.
Variable tlsTimeout : time.Duration.

Hypothesis R_refl : forall s, R false s s.
Hypothesis R_trans : forall b s1 s2 s3,
  R false s1 s2 -> R b s2 s3 -> R b s1 s3.
Hypothesis R_probe : forall svc ns port s,
  R (panicked (fst (testTLS w tlsTimeout svc ns port s)))
    s (snd (testTLS w tlsTimeout svc ns port s)).
Hypothesis R_skip : forall svcName ns s,
  R false s (snd (Infof (Skipping svcName ns) s)).

Lemma rangePorts_keeps svcName ns : forall ports acc s,
  R (panicked (fst (rangePorts w tlsTimeout svcName ns ports acc s)))
    s (snd (rangePorts w tlsTimeout svcName ns ports acc s)).
Proof.
  induction ports as [| port ports IH]; intros acc s; [apply R_refl |].
  cbn [rangePorts]. rewrite bind_unfold.
  pose proof (R_probe svcName ns port s) as Hp.
  destruct (testTLS w tlsTimeout svcName ns port s)
    as [[[ok certsNum] | cause] s1];
    cbn [fst snd panicked] in Hp |- *; [| exact Hp].
  eapply R_trans; [exact Hp | apply IH].
Qed.

Lemma rangeServices_keeps skipNamespaceRegex r : forall items acc s,
  R (panicked (fst (rangeServices w tlsTimeout skipNamespaceRegex r items
                                  acc s)))
    s (snd (rangeServices w tlsTimeout skipNamespaceRegex r items acc s)).
Proof.
  induction items as [| svc items IH]; intros acc s; [apply R_refl |].
  cbn [rangeServices].
  destruct (shouldSkip skipNamespaceRegex r (GetNamespace svc)).
  - rewrite bind_unfold. cbn [Infof emit fst].
    eapply R_trans; [apply (R_skip (GetName svc) (GetNamespace svc)) |].
    apply IH.
  - rewrite bind_unfold.
    pose proof (rangePorts_keeps (GetName svc) (GetNamespace svc)
                  (Ports svc) acc s) as Hp.
    destruct (rangePorts w tlsTimeout (GetName svc) (GetNamespace svc)
                (Ports svc) acc s) as [[found | cause] s1];
      cbn [fst snd panicked] in Hp |- *; [| exact Hp].
    eapply R_trans; [exact Hp | apply IH].
Qed.

End InnerLoops.

(** Inside a cycle nothing is done but dialling, probing and logging,
    however the cycle ends. *)
Lemma rangeServices_frame w tlsTimeout skipNamespaceRegex r items acc s :
  exists n,
    Framed s (snd (rangeServices w tlsTimeout skipNamespaceRegex r items
                                 acc s)) n.
Proof.
  apply (rangeServices_keeps (fun _ s s' => exists n, Framed s s' n)).
  - intros s0. exists 0%nat. apply Framed_refl.
  - intros _ s1 s2 s3 [n Hn] [m Hm]. exists (n + m)%nat.
    eapply Framed_trans; eassumption.
  - intros svc ns port s0. exists 1%nat. apply testTLS_frame.
  - intros svcName ns s0. exists 0%nat.
    eapply (Framed_emit_within s0 (EvInfof (Skipping svcName ns)));
      [reflexivity | apply Framed_refl].
Qed.

(** A cycle, however it ends: the listing count and, unless the cycle
    reaches its end, the heartbeat and the total are left as they were. *)
Lemma scanCycle_ends w discoverFrequency tlsTimeout skipNamespaceRegex r
    items s :
  let cycle := scanCycle w discoverFrequency tlsTimeout skipNamespaceRegex
                         r items s in
  lists (snd cycle) = lists s /\
  match fst cycle with
  | Returns _ => hearthbeatCounter (snd cycle) = hearthbeatCounter s + 1
  | Panics cause =>
      hearthbeatCounter (snd cycle) = hearthbeatCounter s /\
      discoveredCertsGauge (snd cycle) = discoveredCertsGauge s /\
      exists val, cause = InvalidLabelValue val
                  /\ utf8.ValidString val = false
  end.
Proof.
  intros cycle. subst cycle. rewrite scanCycle_unfold. cbn zeta.
  set (s0 := snd (emit (EvInfof (Scanning (length items))) s)).
  destruct (rangeServices_frame w tlsTimeout skipNamespaceRegex r items 0 s0)
    as (n & _ & Hl & Hh & Hg & _).
  pose proof (rangeServices_panics w tlsTimeout skipNamespaceRegex r
                (match fst (rangeServices w tlsTimeout skipNamespaceRegex r
                                          items 0 s0) with
                 | Panics cause => cause
                 | Returns _ => ListFailed ""
                 end) items 0 s0) as Hp.
  destruct (rangeServices w tlsTimeout skipNamespaceRegex r items 0 s0)
    as [[found | cause] s1]; cbn [fst snd lists hearthbeatCounter] in *;
    change (lists s0) with (lists s) in Hl;
    change (hearthbeatCounter s0) with (hearthbeatCounter s) in Hh;
    change (discoveredCertsGauge s0) with (discoveredCertsGauge s) in Hg.
  - split; [exact Hl | lia].
  - split; [exact Hl |]. split; [exact Hh |]. split; [exact Hg |].
    now apply Hp.
Qed.

(* ===================================================================== *)
(** * The order of the actions                                            *)
(* ===================================================================== *)

Lemma run_app w discoverFrequency tlsTimeout : forall evs1 evs2 m,
  run w discoverFrequency tlsTimeout m (evs1 ++ evs2)
  = match run w discoverFrequency tlsTimeout m evs1 with
    | Some m' => run w discoverFrequency tlsTimeout m' evs2
    | None => None
    end.
Proof.
  induction evs1 as [| e evs1 IH]; intros evs2 m; [reflexivity |].
  cbn [app run]. destruct (step w discoverFrequency tlsTimeout m e); auto.
Qed.

Lemma issuedBy_labelValues namespace svc port cert :
  issuedBy (labelValues namespace svc port cert) cert = true.
Proof. unfold issuedBy, labelValues. now rewrite !String.eqb_refl. Qed.

(** The watcher follows the publication of a chain, certificate by
    certificate, up to the first one that is not published. *)
Lemma run_reading w discoverFrequency tlsTimeout addr namespace svc port
    l d : forall certs tick,
  run w discoverFrequency tlsTimeout (mkWatch (Reading addr certs) l d)
      (flat_map writeEvents
         (certWrites w namespace svc port tick
            (published namespace svc port certs)))
  = Some (mkWatch
            (Reading addr
               (skipn (length (published namespace svc port certs)) certs))
            l d).
Proof.
  induction certs as [| cert certs IH]; intros tick; [reflexivity |].
  cbn [published].
  destruct (invalidLabelValue (labelValues namespace svc port cert));
    [reflexivity |].
  cbn [certWrites flat_map writeEvents app fst snd length skipn run step
       phase listed dialed].
  rewrite issuedBy_labelValues. apply IH.
Qed.

(** What is left of a chain when its publication stops. *)
Lemma unpublished_None namespace svc port : forall certs,
  refused namespace svc port certs = None ->
  skipn (length (published namespace svc port certs)) certs = [].
Proof.
  intros certs H. rewrite (published_all _ _ _ _ H). apply skipn_all.
Qed.

Lemma unpublished_Some namespace svc port : forall certs val,
  refused namespace svc port certs = Some val ->
  exists cert rest,
    skipn (length (published namespace svc port certs)) certs = cert :: rest.
Proof.
  induction certs as [| cert certs IH]; intros val H; [discriminate |].
  cbn [refused published] in *.
  destruct (invalidLabelValue (labelValues namespace svc port cert)).
  - exists cert, certs. reflexivity.
  - cbn [length skipn]. eapply IH, H.
Qed.

Lemma Watched_refl w discoverFrequency tlsTimeout s :
  Watched w discoverFrequency tlsTimeout false s s.
Proof. exists []. split; [now rewrite app_nil_r | reflexivity]. Qed.

Lemma Watched_trans w discoverFrequency tlsTimeout b s1 s2 s3 :
  Watched w discoverFrequency tlsTimeout false s1 s2 ->
  Watched w discoverFrequency tlsTimeout b s2 s3 ->
  Watched w discoverFrequency tlsTimeout b s1 s3.
Proof.
  intros (evs1 & Ht1 & Hr1) (evs2 & Ht2 & Hr2). exists (evs1 ++ evs2).
  split; [now rewrite Ht2, Ht1, <- app_assoc |].
  now rewrite run_app, Hr1.
Qed.

(** Follow the watcher over the events spelled out in the goal. *)
Ltac follow_steps :=
  repeat (progress (rewrite ?Z.eqb_refl, ?String.eqb_refl, ?Nat.eqb_refl;
                    cbn [run step phase listed dialed andb app])).

Lemma testTLS_Watched discoverFrequency w tlsTimeout svc namespace port s :
  Watched w discoverFrequency tlsTimeout
          (panicked (fst (testTLS w tlsTimeout svc namespace port s)))
          s (snd (testTLS w tlsTimeout svc namespace port s)).
Proof.
  unfold Watched, watching.
  probe_cases Hd Hw; cbn [fst snd trace panicked lists dials];
    (eexists; split; [reflexivity |]).
  - follow_steps. rewrite Hd. follow_steps. rewrite Hw. follow_steps.
    reflexivity.
  - follow_steps. rewrite Hd. follow_steps. rewrite Hw.
    rewrite run_app, run_reading.
    destruct (refused namespace svc port (PeerCertificates conn))
      as [val |] eqn:Hr.
    + destruct (unpublished_Some _ _ _ _ _ Hr) as (cert & rest & ->).
      follow_steps. reflexivity.
    + rewrite (unpublished_None _ _ _ _ Hr). follow_steps. reflexivity.
  - follow_steps. rewrite Hd. follow_steps. reflexivity.
Qed.

(** A cycle, from the listing that gave [items] to the end of the sleep,
    or to the panic. *)
Lemma scanCycle_in_order w discoverFrequency tlsTimeout skipNamespaceRegex r
    items s :
  let cycle := scanCycle w discoverFrequency tlsTimeout skipNamespaceRegex
                         r items s in
  exists evs,
    trace (snd cycle) = trace s ++ evs /\
    run w discoverFrequency tlsTimeout (watching (Listed items) s) evs
    = Some (watching (if panicked (fst cycle) then Crashed else Idle)
                     (snd cycle)).
Proof.
  intros cycle. subst cycle. rewrite scanCycle_unfold. cbn zeta.
  set (s0 := snd (emit (EvInfof (Scanning (length items))) s)).
  pose proof (rangeServices_keeps
                (Watched w discoverFrequency tlsTimeout) w tlsTimeout
                (Watched_refl w discoverFrequency tlsTimeout)
                (Watched_trans w discoverFrequency tlsTimeout)
                (testTLS_Watched discoverFrequency w tlsTimeout)
                (fun svcName ns s =>
                   ex_intro _ [EvInfof (Skipping svcName ns)]
                            (conj eq_refl eq_refl))
                skipNamespaceRegex r items 0 s0) as (evs & Ht & Hr).
  destruct (rangeServices w tlsTimeout skipNamespaceRegex r items 0 s0)
    as [[found | cause] s1]; cbn [fst snd panicked] in Ht, Hr |- *.
  - exists (EvInfof (Scanning (length items)) :: evs
            ++ [EvDiscoveredSet (float64_of_int found); EvHeartbeatInc;
                EvInfof (Sleeping discoverFrequency);
                EvSleep discoverFrequency]).
    split; [rewrite Ht; subst s0; cbn [emit snd trace];
            now rewrite <- !app_assoc |].
    unfold watching in *. follow_steps.
    change (lists s) with (lists s0). change (dials s) with (dials s0).
    rewrite run_app, Hr. follow_steps. reflexivity.
  - exists (EvInfof (Scanning (length items)) :: evs).
    split; [rewrite Ht; subst s0; cbn [emit snd trace];
            now rewrite <- !app_assoc |].
    unfold watching in *. follow_steps.
    change (lists s) with (lists s0). change (dials s) with (dials s0).
    exact Hr.
Qed.

(** X4.  Whatever the world answers, the actions of the loop come in one
    order only: a listing; then, when it succeeded, for each target a dial
    with the configured timeout and without certificate verification,
    followed by the error line of that dial when it failed and otherwise
    by one write of the payload on that connection, then by the error
    line of the write when it failed and otherwise by one clock reading
    and one gauge update per certificate of the chain and the success
    line, and in both cases by the close of that same connection before
    anything else is dialled; then the total, the heartbeat right after
    it, and a sleep of the configured frequency.  A run still going is
    between two cycles with no connection open; a run that panicked
    stopped right after a listing that failed, or after a clock reading
    with no gauge update and the close of the connection it was
    measuring. *)
Theorem actions_come_in_order
    (w : World) (discoverFrequency tlsTimeout : time.Duration)
    (skipNamespaceRegex : string) (r : regexp.Regexp) :
  forall (cycles : nat) (s : State),
  match scanLoop cycles w discoverFrequency tlsTimeout skipNamespaceRegex r s
  with
  | Running s' =>
      exists evs,
        trace s' = trace s ++ evs /\
        run w discoverFrequency tlsTimeout (watching Idle s) evs
        = Some (watching Idle s')
  | Panicked cause s' =>
      exists evs,
        trace s' = trace s ++ evs /\
        run w discoverFrequency tlsTimeout (watching Idle s) evs
        = Some (watching (match cause with
                          | ListFailed _ => Dead
                          | _ => Crashed
                          end) s')
  end.
Proof.
  induction cycles as [| cycles IH]; intros s.
  - exists []. split; [now rewrite app_nil_r | reflexivity].
  - rewrite scanLoop_step.
    destruct (List_ w (lists s)) as [items | err] eqn:Hl.
    + cbn zeta.
      destruct (scanCycle_in_order w discoverFrequency tlsTimeout
                  skipNamespaceRegex r items (snd (listServices w s)))
        as (evs1 & Ht1 & Hr1).
      pose proof (scanCycle_ends w discoverFrequency tlsTimeout
                    skipNamespaceRegex r items (snd (listServices w s)))
        as [_ Hend].
      cbn zeta in Ht1, Hr1, Hend.
      assert (Hfirst : run w discoverFrequency tlsTimeout (watching Idle s)
                           [EvList]
                       = Some (watching (Listed items)
                                        (snd (listServices w s)))).
      { unfold watching. cbn [run step phase listed dialed]. now rewrite Hl. }
      destruct (scanCycle w discoverFrequency tlsTimeout skipNamespaceRegex
                          r items (snd (listServices w s)))
        as [[[] | cause] s2]; cbn [fst snd panicked] in Ht1, Hr1, Hend |- *.
      * specialize (IH s2).
        destruct (scanLoop cycles _ _ _ _ _ s2) as [cause s' | s'];
          destruct IH as (evs2 & Ht2 & Hr2);
          exists ([EvList] ++ evs1 ++ evs2);
          (split;
           [rewrite Ht2, Ht1; cbn [listServices snd trace];
            now rewrite <- !app_assoc
           | now rewrite run_app, Hfirst, run_app, Hr1]).
      * destruct Hend as (_ & _ & val & -> & _).
        exists ([EvList] ++ evs1). split.
        -- rewrite Ht1. cbn [listServices snd trace].
           now rewrite <- !app_assoc.
        -- now rewrite run_app, Hfirst.
    + exists [EvList]. split; [reflexivity |].
      unfold watching. cbn [run step phase listed dialed]. now rewrite Hl.
Qed.

(** The watcher does refuse: a gauge update that follows the close of its
    connection, and a second dial before the close of the first. *)
Example update_after_close_is_out_of_order :
  run exampleWorld 7200000000000 400000000 (mkWatch Probing 1 0)
      [EvDial 400000000 "tcp" "api.default.svc.cluster.local:443" true;
       EvWrite "api.default.svc.cluster.local:443" ping;
       EvClose "api.default.svc.cluster.local:443";
       EvNow] = None
  /\ run exampleWorld 7200000000000 400000000 (mkWatch Probing 1 0)
      [EvDial 400000000 "tcp" "api.default.svc.cluster.local:443" true;
       EvDial 400000000 "tcp" "api.default.svc.cluster.local:8080" true]
     = None
  /\ run exampleWorld 7200000000000 400000000 (mkWatch Probing 1 0)
      [EvDial 400000000 "tcp" "api.default.svc.cluster.local:443" true;
       EvErrorf (CouldNotStart "api.default.svc.cluster.local:443"
                               "connection refused")]
     = None.
Proof. repeat split; vm_compute; reflexivity. Qed.

(* ===================================================================== *)
(** * The registry over the cycles                                        *)
(* ===================================================================== *)

Lemma Replayed_refl s : Replayed s s.
Proof. exists []. split; [now rewrite app_nil_r | reflexivity]. Qed.

Lemma Replayed_trans s1 s2 s3 :
  Replayed s1 s2 -> Replayed s2 s3 -> Replayed s1 s3.
Proof.
  intros (evs1 & Ht1 & Hg1) (evs2 & Ht2 & Hg2). exists (evs1 ++ evs2).
  split; [now rewrite Ht2, Ht1, <- app_assoc |].
  now rewrite expirationSets_app, fold_left_app, <- Hg1.
Qed.

Lemma testTLS_Replayed w tlsTimeout svc namespace port s :
  Replayed s (snd (testTLS w tlsTimeout svc namespace port s)).
Proof.
  unfold Replayed.
  probe_cases Hd Hw; cbn [snd trace expiredCertsGauge];
    (eexists; split; [reflexivity |]); try reflexivity.
  rewrite !expirationSets_app, expirationSets_writes.
  destruct (refused namespace svc port (PeerCertificates conn));
    cbn; now rewrite app_nil_r.
Qed.

Lemma scanCycle_Replayed w discoverFrequency tlsTimeout skipNamespaceRegex r
    items s :
  Replayed s (snd (scanCycle w discoverFrequency tlsTimeout
                             skipNamespaceRegex r items s)).
Proof.
  rewrite scanCycle_unfold. cbn zeta.
  set (s0 := snd (emit (EvInfof (Scanning (length items))) s)).
  assert (H0 : Replayed s s0)
    by (exists [EvInfof (Scanning (length items))]; split; reflexivity).
  pose proof (rangeServices_keeps (fun _ => Replayed) w tlsTimeout
                Replayed_refl (fun _ => Replayed_trans)
                (testTLS_Replayed w tlsTimeout)
                (fun svcName ns s =>
                   ex_intro _ [EvInfof (Skipping svcName ns)]
                            (conj eq_refl eq_refl))
                skipNamespaceRegex r items 0 s0) as H1.
  cbn beta in H1.
  destruct (rangeServices w tlsTimeout skipNamespaceRegex r items 0 s0)
    as [[found | cause] s1]; cbn [fst snd] in H1 |- *.
  - eapply Replayed_trans; [exact H0 |].
    eapply Replayed_trans; [exact H1 |].
    exists [EvDiscoveredSet (float64_of_int found); EvHeartbeatInc;
            EvInfof (Sleeping discoverFrequency); EvSleep discoverFrequency].
    split; reflexivity.
  - eapply Replayed_trans; [exact H0 | exact H1].
Qed.

Lemma scanLoop_Replayed w discoverFrequency tlsTimeout skipNamespaceRegex r :
  forall cycles s,
  match scanLoop cycles w discoverFrequency tlsTimeout skipNamespaceRegex r s
  with
  | Running s' | Panicked _ s' => Replayed s s'
  end.
Proof.
  induction cycles as [| cycles IH]; intros s; [apply Replayed_refl |].
  rewrite scanLoop_step.
  assert (Hl : Replayed s (snd (listServices w s)))
    by (exists [EvList]; split; reflexivity).
  destruct (List_ w (lists s)) as [items | err]; [| exact Hl].
  cbn zeta.
  pose proof (scanCycle_Replayed w discoverFrequency tlsTimeout
                skipNamespaceRegex r items (snd (listServices w s))) as Hc.
  destruct (scanCycle w discoverFrequency tlsTimeout skipNamespaceRegex r
                      items (snd (listServices w s)))
    as [[[] | cause] s2]; cbn [fst snd] in Hc |- *.
  - specialize (IH s2).
    destruct (scanLoop cycles _ _ _ _ _ s2) as [cause s' | s'];
      (eapply Replayed_trans; [exact Hl |]);
      (eapply Replayed_trans; [exact Hc | exact IH]).
  - eapply Replayed_trans; [exact Hl | exact Hc].
Qed.

(** X5.  However long the loop runs and however it ends, each series of
    the expiration gauge holds the value of the latest update made under
    its labels since the start, and a series that was not updated holds
    what it held at the start: updates overwrite, and no series is ever
    removed, so the value last published for a service that has gone
    stays. *)
Theorem series_are_never_removed
    (w : World) (discoverFrequency tlsTimeout : time.Duration)
    (skipNamespaceRegex : string) (r : regexp.Regexp)
    (cycles : nat) (s : State) :
  match scanLoop cycles w discoverFrequency tlsTimeout skipNamespaceRegex r s
  with
  | Running s' | Panicked _ s' =>
      exists evs,
        trace s' = trace s ++ evs /\
        (forall k,
           expiredCertsGauge s' !! k
           = match lastWrite k (expirationSets evs) with
             | Some v => Some v
             | None => expiredCertsGauge s !! k
             end) /\
        dom (expiredCertsGauge s) ⊆ dom (expiredCertsGauge s')
  end.
Proof.
  pose proof (scanLoop_Replayed w discoverFrequency tlsTimeout
                skipNamespaceRegex r cycles s) as H.
  assert (Hgoal : forall s', Replayed s s' ->
            exists evs,
              trace s' = trace s ++ evs /\
              (forall k,
                 expiredCertsGauge s' !! k
                 = match lastWrite k (expirationSets evs) with
                   | Some v => Some v
                   | None => expiredCertsGauge s !! k
                   end) /\
              dom (expiredCertsGauge s) ⊆ dom (expiredCertsGauge s')).
  { intros s' (evs & Ht & Hg). exists evs. split; [exact Ht |].
    assert (Hk : forall k,
              expiredCertsGauge s' !! k
              = match lastWrite k (expirationSets evs) with
                | Some v => Some v
                | None => expiredCertsGauge s !! k
                end)
      by (intros k; rewrite Hg; apply fold_setSeries_lookup).
    split; [exact Hk |].
    intros k Hin. apply elem_of_dom. apply elem_of_dom in Hin.
    rewrite Hk. destruct (lastWrite k (expirationSets evs)); eauto. }
  destruct (scanLoop cycles _ _ _ _ _ _); auto.
Qed.

(* ===================================================================== *)
(** * Cycles one after the other                                          *)
(* ===================================================================== *)

(** X6.  The discovered-certificates gauge is per cycle, not cumulative:
    after one more cycle that reaches its end it holds the number of
    certificates found by the successful probes of that cycle alone,
    whatever the cycles before it found.  (The number is taken to be at
    most [2^53], and the label values of that cycle to be valid UTF-8,
    without which the cycle does not reach its end.) *)
Theorem discovered_gauge_is_per_cycle
    (w : World) (discoverFrequency tlsTimeout : time.Duration)
    (skipNamespaceRegex : string) (r : regexp.Regexp)
    (n : nat) (s sn : State) (items : list Service) :
  scanLoop n w discoverFrequency tlsTimeout skipNamespaceRegex r s
    = Running sn ->
  List_ w (lists sn) = Ok items ->
  let targets := targetsOf skipNamespaceRegex r items in
  let outcomes := probeOutcomes w tlsTimeout (dials sn) targets in
  let total :=
    fold_right Z.add 0
      (map (fun certs => Z.of_nat (length certs)) (successfulChains outcomes)) in
  labelsValid targets outcomes = true ->
  total <= maxExactFloat ->
  exists s',
    scanLoop (S n) w discoverFrequency tlsTimeout skipNamespaceRegex r s
      = Running s' /\
    discoveredCertsGauge s' = float64_of_int total.
Proof.
  intros Hn Hitems targets outcomes total Hvalid Htotal.
  replace (S n) with (n + 1)%nat by lia.
  rewrite scanLoop_add, Hn.
  rewrite (scanLoop_cycle 0 w discoverFrequency tlsTimeout
             skipNamespaceRegex r sn items Hitems Hvalid).
  cbn [scanLoop]. eexists. split; [reflexivity |].
  destruct (scanCycle_spec w discoverFrequency tlsTimeout skipNamespaceRegex
              r items (snd (listServices w sn)) Hvalid) as (_ & _ & Hg & _).
  rewrite Hg. change (dials (snd (listServices w sn))) with (dials sn).
  fold targets. fold outcomes. f_equal. apply wrapInt_id.
  pose proof (certsFound_nonneg outcomes) as Hpos.
  unfold inIntRange, maxInt. unfold maxExactFloat in Htotal.
  unfold certsFound in *. fold total in Hpos |- *. lia.
Qed.

Lemma discovered_gauge_is_per_cycle_witness :
  exists s',
    scanLoop 2 exampleWorld 7200000000000 400000000 "^kube-" kubePrefix
             initialState = Running s' /\
    discoveredCertsGauge s' = float64_of_int 3.
Proof.
  destruct (discovered_gauge_is_per_cycle exampleWorld 7200000000000
              400000000 "^kube-" kubePrefix 1 initialState
              (ended (scanLoop 1 exampleWorld 7200000000000 400000000
                               "^kube-" kubePrefix initialState))
              exampleItems
              (running_ended
                 (scanLoop 1 exampleWorld 7200000000000 400000000 "^kube-"
                           kubePrefix initialState)
                 ltac:(vm_compute; reflexivity))
              eq_refl
              ltac:(vm_compute; reflexivity)
              ltac:(vm_compute; discriminate))
    as (s' & Hrun & Hg).
  exists s'. split; [exact Hrun |]. rewrite Hg. vm_compute. reflexivity.
Defined.

(* ===================================================================== *)
(** * How the process dies                                                *)
(* ===================================================================== *)

(** The loop panics on the first listing that fails or in the first cycle
    that meets a label value that is not valid UTF-8, after as many
    heartbeats as cycles were completed. *)
Lemma scanLoop_panic_inv w discoverFrequency tlsTimeout skipNamespaceRegex r :
  forall cycles s cause s',
  scanLoop cycles w discoverFrequency tlsTimeout skipNamespaceRegex r s
    = Panicked cause s' ->
  exists k,
    (k < cycles)%nat /\
    (forall i, (i < k)%nat ->
               exists items, List_ w (lists s + i)%nat = Ok items) /\
    hearthbeatCounter s' = hearthbeatCounter s + Z.of_nat k /\
    ((exists err,
        cause = ListFailed err /\ List_ w (lists s + k)%nat = Err err) \/
     (exists val items,
        cause = InvalidLabelValue val /\ utf8.ValidString val = false /\
        List_ w (lists s + k)%nat = Ok items)).
Proof.
  induction cycles as [| cycles IH]; intros s cause s' H; [discriminate |].
  rewrite scanLoop_step in H.
  destruct (List_ w (lists s)) as [items | err] eqn:Hl.
  - cbn zeta in H.
    pose proof (scanCycle_ends w discoverFrequency tlsTimeout
                  skipNamespaceRegex r items (snd (listServices w s)))
      as [Hlists Hend].
    cbn zeta in Hlists, Hend.
    destruct (scanCycle w discoverFrequency tlsTimeout skipNamespaceRegex r
                        items (snd (listServices w s)))
      as [[[] | c] s2]; cbn [fst snd] in H, Hlists, Hend.
    + apply IH in H as (k & Hk & Hok & Hhb & Hcause).
      rewrite Hlists in Hok, Hcause. rewrite Hend in Hhb.
      cbn [listServices snd lists hearthbeatCounter] in Hok, Hcause, Hhb.
      exists (S k). split; [lia |]. split; [| split; [lia |]].
      * intros [| i] Hi.
        -- exists items. now rewrite Nat.add_0_r.
        -- replace (lists s + S i)%nat with (S (lists s) + i)%nat by lia.
           apply Hok. lia.
      * replace (lists s + S k)%nat with (S (lists s) + k)%nat by lia.
        exact Hcause.
    + inversion H; subst.
      destruct Hend as (Hhb & _ & val & -> & Hval).
      exists 0%nat. rewrite Nat.add_0_r.
      split; [lia |]. split; [intros i Hi; lia |].
      cbn [listServices snd hearthbeatCounter] in Hhb.
      split; [lia |]. right. exists val, items. auto.
  - inversion H; subst. exists 0%nat. rewrite Nat.add_0_r.
    split; [lia |]. split; [intros i Hi; lia |].
    cbn [listServices snd hearthbeatCounter]. split; [lia |].
    left. eauto.
Qed.

(** X7.  The process dies in five ways and no other: outside a cluster,
    without a client, on a skip pattern that is not empty and does not
    compile (all three before anything was done), on the first listing
    that fails, or in the first cycle in which a chain brings a label
    value that is not valid UTF-8; in the last two cases every listing
    before had succeeded and the heartbeat counts the cycles completed.
    A failed dial or a failed write never stops it. *)
Theorem process_dies_of_five_causes_only
    (w : World) (discoverFrequency tlsTimeout : time.Duration)
    (skipNamespaceRegex : string) (cycles : nat) (s s' : State)
    (cause : PanicCause) :
  discoverServices cycles w discoverFrequency tlsTimeout skipNamespaceRegex s
    = Panicked cause s' ->
  (exists err,
     InClusterConfig w = Some err /\
     cause = InClusterConfigFailed err /\ s' = s) \/
  (exists err,
     InClusterConfig w = None /\ NewForConfig w = Some err /\
     cause = NewForConfigFailed err /\ s' = s) \/
  (exists err,
     InClusterConfig w = None /\ NewForConfig w = None /\
     skipNamespaceRegex <> "" /\
     regexp.Compile (RegexpRest w) skipNamespaceRegex
       = regexp.CompileError err /\
     cause = RegexpCompileFailed err /\ s' = s) \/
  (exists k,
     InClusterConfig w = None /\ NewForConfig w = None /\
     (k < cycles)%nat /\
     (forall i, (i < k)%nat ->
                exists items, List_ w (lists s + i)%nat = Ok items) /\
     hearthbeatCounter s' = hearthbeatCounter s + Z.of_nat k /\
     ((exists err,
         cause = ListFailed err /\ List_ w (lists s + k)%nat = Err err) \/
      (exists val items,
         cause = InvalidLabelValue val /\ utf8.ValidString val = false /\
         List_ w (lists s + k)%nat = Ok items))).
Proof.
  unfold discoverServices. intros H.
  destruct (InClusterConfig w) as [e1 |];
    [inversion H; subst; left; eauto |].
  destruct (NewForConfig w) as [e2 |];
    [inversion H; subst; right; left; eauto |].
  assert (Hloop : forall re,
            scanLoop cycles w discoverFrequency tlsTimeout
                     skipNamespaceRegex re s = Panicked cause s' ->
            exists k,
              @None string = None /\ @None string = None /\
              (k < cycles)%nat /\
              (forall i, (i < k)%nat ->
                         exists items, List_ w (lists s + i)%nat = Ok items) /\
              hearthbeatCounter s' = hearthbeatCounter s + Z.of_nat k /\
              ((exists err,
                  cause = ListFailed err
                  /\ List_ w (lists s + k)%nat = Err err) \/
               (exists val items,
                  cause = InvalidLabelValue val
                  /\ utf8.ValidString val = false
                  /\ List_ w (lists s + k)%nat = Ok items))).
  { intros re Hre.
    apply scanLoop_panic_inv in Hre as (k & Hk & Hok & Hh & Hc).
    exists k. repeat split; auto. }
  destruct (regexp.Compile (RegexpRest w) skipNamespaceRegex)
    as [re | err] eqn:Hc.
  - right; right; right. eapply Hloop, H.
  - destruct (String.eqb skipNamespaceRegex "") eqn:Hb; cbn [negb] in H.
    + right; right; right. eapply Hloop, H.
    + inversion H; subst. right; right; left. exists err.
      repeat split. now apply String.eqb_neq.
Qed.

Lemma process_dies_of_five_causes_only_witness :
  exists k, (k < 1)%nat /\
            List_ outageWorld (2 + k) = Err "etcdserver: request timed out".
Proof.
  destruct (process_dies_of_five_causes_only outageWorld 7200000000000
              400000000 "^kube-" 1 (mkState ∅ 0%Q 2 [] 2 0 0)
              (snd (listServices outageWorld (mkState ∅ 0%Q 2 [] 2 0 0)))
              (ListFailed "etcdserver: request timed out") eq_refl)
    as [(err & H & _)
       | [(err & _ & H & _) | [(err & _ & _ & _ & _ & H & _) | H]]];
    try discriminate.
  destruct H as (k & _ & _ & Hk & _ & _ & [(err & Hc & Hf) | (v & i & Hc & _)]);
    [| discriminate].
  inversion Hc; subst. exists k. split; [exact Hk | exact Hf].
Defined.

(* ===================================================================== *)
(** * Series and targets                                                  *)
(* ===================================================================== *)

(** The decimal form tells the number. *)
Lemma Itoa_inj (a b : Z) : strconv.Itoa a = strconv.Itoa b -> a = b.
Proof.
  unfold strconv.Itoa. intros H. apply DecimalZ.to_int_inj.
  assert (Hback : forall z,
            NilZero.int_of_string (NilZero.string_of_int (Z.to_int z))
            = Some (Z.to_int z)).
  { intros z. apply NilZero.isi; destruct z; cbn; try discriminate;
      intros [= E]; exact (DecimalPos.Unsigned.to_uint_nonnil _ E). }
  pose proof (Hback a) as Ha. rewrite H, Hback in Ha. congruence.
Qed.

(** The label values tell the target and the issuer. *)
Lemma labelValues_inj namespace svc port cert namespace' svc' port' cert' :
  labelValues namespace svc port cert = labelValues namespace' svc' port' cert'
  -> namespace = namespace' /\ svc = svc' /\ port = port' /\
     Issuer cert = Issuer cert'.
Proof.
  unfold labelValues. intros [= Hn Hs Hp Hc Hr].
  apply Itoa_inj in Hp. repeat split; auto.
  destruct (Issuer cert), (Issuer cert'). cbn in *. congruence.
Qed.

Lemma lastWrite_None (k : Labels) : forall ws,
  (forall kv, In kv ws -> fst kv <> k) -> lastWrite k ws = None.
Proof.
  induction ws as [| [k' v] ws IH]; intros H; [reflexivity |].
  cbn [lastWrite]. rewrite IH by (intros kv Hin; apply H; now right).
  destruct (decide (k' = k)) as [E | _]; [| reflexivity].
  exfalso. exact (H (k', v) (or_introl eq_refl) E).
Qed.

Lemma certWrites_In w namespace svc port : forall certs tick kv,
  In kv (certWrites w namespace svc port tick certs) ->
  exists cert, In cert certs /\ fst kv = labelValues namespace svc port cert.
Proof.
  induction certs as [| c certs IH]; intros tick kv H; [destruct H |].
  destruct H as [<- | H].
  - exists c. split; [now left | reflexivity].
  - destruct (IH _ _ H) as (cert & Hin & Hk). exists cert.
    split; [now right | exact Hk].
Qed.

(** X8.  A probe touches the series of its own target only: whatever it
    finds, and however it ends, the series of every other (namespace,
    service, port) hold after it what they held before. *)
Theorem probe_leaves_other_targets_alone
    (w : World) (tlsTimeout : time.Duration) (svc namespace : string)
    (port : Z) (s : State) (svc' namespace' : string) (port' : Z)
    (cert' : Certificate) :
  (namespace, svc, port) <> (namespace', svc', port') ->
  expiredCertsGauge (snd (testTLS w tlsTimeout svc namespace port s))
    !! labelValues namespace' svc' port' cert'
  = expiredCertsGauge s !! labelValues namespace' svc' port' cert'.
Proof.
  intros Hne.
  probe_cases Hd Hw; cbn [snd expiredCertsGauge]; try reflexivity.
  rewrite fold_setSeries_lookup, lastWrite_None; [reflexivity |].
  intros kv Hin Hk. apply certWrites_In in Hin as (cert & _ & Hkv).
  rewrite Hkv in Hk.
  apply labelValues_inj in Hk as (-> & -> & -> & _). now apply Hne.
Qed.

Lemma probe_leaves_other_targets_alone_witness :
  expiredCertsGauge
    (snd (testTLS exampleWorld 400000000 "api" "default" 443 initialState))
    !! labelValues "payments" "ledger" 443 expiredCert
  = None.
Proof.
  rewrite (probe_leaves_other_targets_alone exampleWorld 400000000
             "api" "default" 443 initialState "ledger" "payments" 443
             expiredCert ltac:(discriminate)).
  reflexivity.
Defined.

Lemma dom_fold_setSeries : forall ws (m : gmap Labels float64),
  dom (fold_left setSeries ws m)
  = dom m ∪ (list_to_set (map fst ws) : gset Labels).
Proof.
  induction ws as [| [k v] ws IH]; intros m.
  - cbn [fold_left map]. now rewrite list_to_set_nil, (right_id_L ∅ (∪)).
  - cbn [fold_left map]. rewrite IH. unfold setSeries. cbn [fst snd].
    rewrite dom_insert_L, list_to_set_cons.
    now rewrite (comm_L (∪) {[k]} (dom m)), (assoc_L (∪)).
Qed.

Lemma difference_subseteq (X Y : gset Labels) : X ∖ Y ⊆ X.
Proof. intros x Hx. now apply elem_of_difference in Hx as [Hx _]. Qed.

Lemma size_list_to_set_le (l : list Labels) :
  (size (list_to_set l : gset Labels) <= length l)%nat.
Proof.
  induction l as [| k l IH]; [rewrite list_to_set_nil, size_empty; lia |].
  rewrite list_to_set_cons, size_union_alt, size_singleton. cbn [length].
  pose proof (subseteq_size _ _
                (difference_subseteq (list_to_set l) {[k]})).
  lia.
Qed.

Lemma size_list_to_set_repeated (l : list Labels) :
  ~ NoDup l -> (size (list_to_set l : gset Labels) < length l)%nat.
Proof.
  induction l as [| k l IH]; intros Hdup.
  - exfalso. apply Hdup. constructor.
  - cbn [length]. destruct (decide (k ∈ l)) as [Hin | Hout].
    + assert (Hsame : (list_to_set (k :: l) : gset Labels)
                      = list_to_set l).
      { rewrite list_to_set_cons. apply subseteq_union_1_L.
        intros x Hx. apply elem_of_singleton in Hx. subst.
        now apply elem_of_list_to_set. }
      rewrite Hsame. pose proof (size_list_to_set_le l). lia.
    + assert (Hl : ~ NoDup l)
        by (intros Hl; apply Hdup; now constructor).
      specialize (IH Hl).
      rewrite list_to_set_cons, size_union_alt, size_singleton.
      pose proof (subseteq_size _ _
                    (difference_subseteq (list_to_set l) {[k]})).
      lia.
Qed.

Lemma size_union_le (X Y : gset Labels) :
  (size (X ∪ Y) <= size X + size Y)%nat.
Proof.
  rewrite size_union_alt.
  pose proof (subseteq_size _ _ (difference_subseteq Y X)). lia.
Qed.

Lemma lookup_map {A B : Type} (f : A -> B) : forall (l : list A) i x,
  l !! i = Some x -> map f l !! i = Some (f x).
Proof.
  induction l as [| a l IH]; intros [| i] x H; try discriminate.
  - now inversion H.
  - exact (IH i x H).
Qed.

(** X9.  A probe whose handshake and write succeeded adds to the registry
    the series of the label values of the certificates it publishes and
    no other; a successful probe publishes its whole chain.  The series
    are one per issuer, not one per certificate: the registry grows by
    at most the number of certificates published, and by fewer as soon
    as two of them have the same issuer, which then share one series. *)
Theorem one_series_per_issuer
    (w : World) (tlsTimeout : time.Duration) (svc namespace : string)
    (port : Z) (s : State) (conn : Conn) :
  DialWithDialer w (dials s) tlsTimeout (fullhostnameOf svc namespace port)
    = Ok conn ->
  WriteErr conn = None ->
  let certs := PeerCertificates conn in
  let written := published namespace svc port certs in
  let probe := testTLS w tlsTimeout svc namespace port s in
  let s' := snd probe in
  (refused namespace svc port certs = None ->
   written = certs /\
   fst probe = Returns (true, wrapInt (Z.of_nat (length certs)))) /\
  dom (expiredCertsGauge s')
  = dom (expiredCertsGauge s)
    ∪ (list_to_set (map (labelValues namespace svc port) written)
       : gset Labels) /\
  (size (expiredCertsGauge s')
   <= size (expiredCertsGauge s) + length written)%nat /\
  (forall i j ci cj,
     i <> j ->
     written !! i = Some ci -> written !! j = Some cj ->
     Issuer ci = Issuer cj ->
     (size (expiredCertsGauge s')
      < size (expiredCertsGauge s) + length written)%nat).
Proof.
  intros Hd Hw certs written probe s'. subst s' probe.
  split.
  { intros Hr. split; [now apply published_all |].
    now rewrite (testTLS_succeeded _ _ _ _ _ _ _ Hd Hw Hr). }
  rewrite (testTLS_handshaken _ _ _ _ _ _ _ Hd Hw).
  cbn [snd expiredCertsGauge]. fold certs. fold written.
  set (ws := certWrites w namespace svc port (clock s) written).
  assert (Hkeys : map fst ws = map (labelValues namespace svc port) written)
    by apply certWrites_keys.
  assert (Hdom : dom (fold_left setSeries ws (expiredCertsGauge s))
                 = dom (expiredCertsGauge s)
                   ∪ (list_to_set (map (labelValues namespace svc port)
                                       written)
                      : gset Labels))
    by (rewrite dom_fold_setSeries, Hkeys; reflexivity).
  split; [exact Hdom |].
  rewrite <- !(size_dom (D := gset Labels)), Hdom.
  pose proof (size_union_le (dom (expiredCertsGauge s))
                (list_to_set (map (labelValues namespace svc port) written)))
    as Hu.
  pose proof (size_list_to_set_le
                (map (labelValues namespace svc port) written)) as Hle.
  rewrite length_map in Hle.
  split; [lia |].
  intros i j ci cj Hij Hi Hj Hiss.
  pose proof (size_list_to_set_repeated
                (map (labelValues namespace svc port) written)) as Hlt.
  rewrite length_map in Hlt.
  enough (~ NoDup (map (labelValues namespace svc port) written))
    by (specialize (Hlt H); lia).
  intros Hnd. apply Hij.
  eapply (proj1 (NoDup_alt _) Hnd i j (labelValues namespace svc port ci)).
  - now apply lookup_map.
  - replace (labelValues namespace svc port ci)
      with (labelValues namespace svc port cj)
      by (unfold labelValues; now rewrite Hiss).
    now apply lookup_map.
Qed.

Lemma one_series_per_issuer_witness :
  (size (expiredCertsGauge
           (snd (testTLS exampleWorld 400000000%Z "api" "default" 443%Z
                         initialState))) <= 2)%nat.
Proof.
  exact (proj1 (proj2 (proj2 (one_series_per_issuer exampleWorld 400000000
                         "api" "default" 443 initialState
                         (mkConn [leafCert; intermediateCert] None)
                         eq_refl eq_refl)))).
Defined.

(* ===================================================================== *)
(** * What is probed, and when                                            *)
(* ===================================================================== *)

(** X10.  What the probes find has no bearing on what is probed next:
    two runs of the loop in worlds that give the same service listings
    and present valid UTF-8 names only, and differ in every other answer
    of the network and of the clock, end the same way (both still
    running, or both dead of the same failed listing) after the same
    number of heartbeats and listings, having dialled the same addresses
    in the same order.  A target that failed is neither retried within
    the cycle nor left out of the next. *)
Theorem schedule_is_blind_to_probe_results
    (w1 w2 : World) (discoverFrequency tlsTimeout : time.Duration)
    (skipNamespaceRegex : string) (r : regexp.Regexp) :
  ValidNames w1 -> ValidNames w2 ->
  (forall n, List_ w1 n = List_ w2 n) ->
  forall (cycles : nat) (s1 s2 : State),
  lists s1 = lists s2 ->
  hearthbeatCounter s1 = hearthbeatCounter s2 ->
  match
    scanLoop cycles w1 discoverFrequency tlsTimeout skipNamespaceRegex r s1,
    scanLoop cycles w2 discoverFrequency tlsTimeout skipNamespaceRegex r s2
  with
  | Running s1', Running s2' => SameSchedule s1 s2 s1' s2'
  | Panicked cause1 s1', Panicked cause2 s2' =>
      cause1 = cause2 /\ SameSchedule s1 s2 s1' s2'
  | _, _ => False
  end.
Proof.
  intros Hv1 Hv2 Hlist.
  induction cycles as [| cycles IH]; intros s1 s2 Hl Hh.
  - cbn [scanLoop]. split; [exact Hh |]. split; [exact Hl |].
    exists [], []. now rewrite !app_nil_r.
  - destruct (List_ w2 (lists s2)) as [items | err] eqn:Hitems2.
    + assert (Hitems1 : List_ w1 (lists s1) = Ok items)
        by (now rewrite Hlist, Hl).
      set (t1 := snd (listServices w1 s1)).
      set (t2 := snd (listServices w2 s2)).
      assert (Hvalid1 : labelsValid (targetsOf skipNamespaceRegex r items)
                (probeOutcomes w1 tlsTimeout (dials t1)
                   (targetsOf skipNamespaceRegex r items)) = true)
        by (eapply ValidNames_labelsValid; eassumption).
      assert (Hvalid2 : labelsValid (targetsOf skipNamespaceRegex r items)
                (probeOutcomes w2 tlsTimeout (dials t2)
                   (targetsOf skipNamespaceRegex r items)) = true)
        by (eapply ValidNames_labelsValid; eassumption).
      rewrite (scanLoop_cycle _ _ _ _ _ _ _ _ Hitems1 Hvalid1).
      rewrite (scanLoop_cycle _ _ _ _ _ _ _ _ Hitems2 Hvalid2).
      fold t1. fold t2.
      destruct (scanCycle_spec w1 discoverFrequency tlsTimeout
                  skipNamespaceRegex r items t1 Hvalid1)
        as (Hr1 & Hh1 & _ & Hl1 & _).
      destruct (scanCycle_spec w2 discoverFrequency tlsTimeout
                  skipNamespaceRegex r items t2 Hvalid2)
        as (Hr2 & Hh2 & _ & Hl2 & _).
      destruct (scanCycle_dialled w1 discoverFrequency tlsTimeout
                  skipNamespaceRegex r items t1)
        as (c1 & n1 & Ht1 & _ & Hd1 & Hn1).
      destruct (scanCycle_dialled w2 discoverFrequency tlsTimeout
                  skipNamespaceRegex r items t2)
        as (c2 & n2 & Ht2 & _ & Hd2 & Hn2).
      rewrite (Hn1 Hr1), <- (length_map addressOf), firstn_all in Hd1.
      rewrite (Hn2 Hr2), <- (length_map addressOf), firstn_all in Hd2.
      clear Hr1 Hr2 Hn1 Hn2 Hvalid1 Hvalid2.
      set (a := snd (scanCycle w1 discoverFrequency tlsTimeout
                       skipNamespaceRegex r items t1)) in *.
      set (b := snd (scanCycle w2 discoverFrequency tlsTimeout
                       skipNamespaceRegex r items t2)) in *.
      subst t1 t2.
      cbn [listServices snd lists hearthbeatCounter trace]
        in Hh1, Hl1, Hh2, Hl2, Ht1, Ht2.
      clearbody a b.
      specialize (IH a b ltac:(congruence) ltac:(congruence)).
      assert (Hjoin : forall a' b', SameSchedule a b a' b' ->
                                    SameSchedule s1 s2 a' b').
      { intros a' b' (Hha & Hla & e1 & e2 & Hta & Htb & Hde).
        split; [exact Hha |]. split; [exact Hla |].
        exists (EvList :: c1 ++ e1), (EvList :: c2 ++ e2).
        split; [rewrite Hta, Ht1; now rewrite <- !app_assoc |].
        split; [rewrite Htb, Ht2; now rewrite <- !app_assoc |].
        change (dialled (EvList :: ?l)) with (dialled l).
        now rewrite !dialled_app, Hd1, Hd2, Hde. }
      destruct (scanLoop cycles w1 discoverFrequency tlsTimeout
                         skipNamespaceRegex r a) as [? a' | a'],
               (scanLoop cycles w2 discoverFrequency tlsTimeout
                         skipNamespaceRegex r b) as [? b' | b'];
        try exact IH.
      * destruct IH as [Hc IH]. split; [exact Hc | now apply Hjoin].
      * now apply Hjoin.
    + rewrite !scanLoop_step, Hlist, Hl, Hitems2.
      split; [reflexivity |].
      cbn [listServices snd lists hearthbeatCounter trace].
      split; [exact Hh |]. split; [now rewrite Hl |].
      exists [EvList], [EvList]. repeat split.
Qed.

Lemma schedule_is_blind_to_probe_results_witness :
  match
    scanLoop 1 exampleWorld 7200000000000 400000000 "^kube-" kubePrefix
             initialState,
    scanLoop 1 unreachableWorld 7200000000000 400000000 "^kube-" kubePrefix
             initialState
  with
  | Running s1', Running s2' => SameSchedule initialState initialState s1' s2'
  | Panicked cause1 s1', Panicked cause2 s2' =>
      cause1 = cause2 /\ SameSchedule initialState initialState s1' s2'
  | _, _ => False
  end.
Proof.
  exact (schedule_is_blind_to_probe_results exampleWorld unreachableWorld
           7200000000000 400000000 "^kube-" kubePrefix
           ValidNames_exampleWorld ValidNames_unreachableWorld
           (fun n => eq_refl) 1 initialState initialState eq_refl eq_refl).
Defined.

Lemma rangeServices_nothing w tlsTimeout skipNamespaceRegex r :
  forall items acc s,
  (forall svc, In svc items ->
     shouldSkip skipNamespaceRegex r (GetNamespace svc) = true \/
     Ports svc = []) ->
  exists evs,
    rangeServices w tlsTimeout skipNamespaceRegex r items acc s
    = (Returns acc,
       mkState (expiredCertsGauge s) (discoveredCertsGauge s)
               (hearthbeatCounter s) (trace s ++ evs)
               (lists s) (dials s) (clock s)) /\
    dialled evs = [].
Proof.
  induction items as [| svc items IH]; intros acc s H.
  - exists []. cbn. unfold ret. destruct s; cbn. now rewrite app_nil_r.
  - cbn [rangeServices].
    assert (Hrest : forall svc', In svc' items ->
              shouldSkip skipNamespaceRegex r (GetNamespace svc') = true \/
              Ports svc' = []) by (intros svc' Hin; apply H; now right).
    destruct (shouldSkip skipNamespaceRegex r (GetNamespace svc)) eqn:Hskip.
    + rewrite bind_unfold. unfold Infof. cbn [emit fst].
      destruct (IH acc (snd (emit (EvInfof (Skipping (GetName svc)
                                             (GetNamespace svc))) s)) Hrest)
        as (evs & Heq & Hd).
      exists (EvInfof (Skipping (GetName svc) (GetNamespace svc)) :: evs).
      split; [| exact Hd].
      cbn [emit snd] in Heq |- *. rewrite Heq.
      cbn [expiredCertsGauge discoveredCertsGauge
           hearthbeatCounter trace lists dials clock].
      now rewrite <- app_assoc.
    + destruct (H svc (or_introl eq_refl)) as [Habs | Hports];
        [rewrite Hskip in Habs; discriminate |].
      rewrite bind_unfold, Hports. cbn [rangePorts ret fst snd].
      exact (IH acc s Hrest).
Qed.

(** X11.  A cycle with nothing to probe (the cluster lists no service,
    or every listed service is in a skipped namespace or has no port)
    reaches its end, makes no network call and reads no clock, leaves
    the expiration series as they are, sets the discovered-certificates
    gauge to zero whatever the cycle before had found, and still
    advances the heartbeat. *)
Theorem cycle_with_nothing_to_probe
    (w : World) (discoverFrequency tlsTimeout : time.Duration)
    (skipNamespaceRegex : string) (r : regexp.Regexp)
    (items : list Service) (s : State) :
  (forall svc, In svc items ->
     shouldSkip skipNamespaceRegex r (GetNamespace svc) = true \/
     Ports svc = []) ->
  let cycle := scanCycle w discoverFrequency tlsTimeout skipNamespaceRegex
                         r items s in
  let s' := snd cycle in
  expiredCertsGauge s' = expiredCertsGauge s /\
  discoveredCertsGauge s' = 0%Q /\
  hearthbeatCounter s' = hearthbeatCounter s + 1 /\
  dials s' = dials s /\ clock s' = clock s /\
  dialled (skipn (length (trace s)) (trace s')) = [] /\
  fst cycle = Returns tt.
Proof.
  intros H cycle s'. subst s' cycle. rewrite scanCycle_unfold. cbn zeta.
  destruct (rangeServices_nothing w tlsTimeout skipNamespaceRegex r items 0
              (snd (emit (EvInfof (Scanning (length items))) s)) H)
    as (evs & -> & Hd).
  cbn [fst snd emit expiredCertsGauge discoveredCertsGauge hearthbeatCounter
       trace lists dials clock].
  repeat split.
  rewrite <- !app_assoc, skipn_app, skipn_all, Nat.sub_diag.
  cbn [skipn app]. change (dialled (EvInfof ?l :: ?rest)) with (dialled rest).
  rewrite dialled_app, Hd. reflexivity.
Qed.

Lemma cycle_with_nothing_to_probe_witness :
  discoveredCertsGauge
    (snd (scanCycle exampleWorld 7200000000000 400000000 "^kube-" kubePrefix
                    [mkService "kube-dns" "kube-system" [53];
                     mkService "headless" "default" []]
                    (mkState ∅ 7%Q 4 [] 4 9 11)))
  = 0%Q.
Proof.
  refine (proj1 (proj2 (cycle_with_nothing_to_probe exampleWorld
                          7200000000000 400000000 "^kube-" kubePrefix
                          [mkService "kube-dns" "kube-system" [53];
                           mkService "headless" "default" []]
                          (mkState ∅ 7%Q 4 [] 4 9 11) _))).
  intros svc [<- | [<- | []]]; [left | right]; reflexivity.
Defined.

(** X12.  The line logged for a successful probe lists ten empty entries
    before the expiry dates: the slice of dates is made with ten
    elements and the dates are appended to it, so that for a chain of
    [N] certificates the list has [N + 10] entries, the dates being the
    last [N], leaf first.  The line is the last thing logged before the
    connection is closed.  (A probe succeeds when the dial and the write
    succeed and the registry refuses no label value of the chain.) *)
Theorem success_line_starts_with_ten_blanks
    (w : World) (tlsTimeout : time.Duration) (svc namespace : string)
    (port : Z) (s : State) (conn : Conn) :
  DialWithDialer w (dials s) tlsTimeout (fullhostnameOf svc namespace port)
    = Ok conn ->
  WriteErr conn = None ->
  let certs := PeerCertificates conn in
  let fullhostname := fullhostnameOf svc namespace port in
  refused namespace svc port certs = None ->
  exists evs certsExpiryDates,
    trace (snd (testTLS w tlsTimeout svc namespace port s))
    = trace s ++ evs
      ++ [EvInfof (ConnectionSuccessful fullhostname certsExpiryDates);
          EvClose fullhostname] /\
    length certsExpiryDates = (length certs + 10)%nat /\
    firstn 10 certsExpiryDates = repeat None 10 /\
    skipn 10 certsExpiryDates = map (fun c => Some (NotAfter c)) certs.
Proof.
  intros Hd Hw certs fullhostname Hr.
  rewrite (testTLS_succeeded _ _ _ _ _ _ _ Hd Hw Hr). cbn [snd trace].
  fold certs. fold fullhostname.
  exists ([EvDial tlsTimeout "tcp" fullhostname true;
           EvWrite fullhostname ping]
          ++ flat_map writeEvents
               (certWrites w namespace svc port (clock s) certs)),
         (repeat None 10 ++ map (fun c => Some (NotAfter c)) certs).
  split; [now rewrite <- !app_assoc |].
  split; [rewrite length_app, length_map; cbn; lia |].
  split; reflexivity.
Qed.

Lemma success_line_starts_with_ten_blanks_witness :
  exists evs certsExpiryDates,
    trace (snd (testTLS exampleWorld 400000000 "api" "default" 443
                        initialState))
    = evs
      ++ [EvInfof (ConnectionSuccessful "api.default.svc.cluster.local:443"
                     certsExpiryDates);
          EvClose "api.default.svc.cluster.local:443"] /\
    length certsExpiryDates = 12%nat.
Proof.
  destruct (success_line_starts_with_ten_blanks exampleWorld 400000000
              "api" "default" 443 initialState
              (mkConn [leafCert; intermediateCert] None) eq_refl eq_refl
              eq_refl)
    as (evs & dates & Ht & Hlen & _).
  exists evs, dates. split; [exact Ht | exact Hlen].
Defined.

(* ===================================================================== *)
(** * ASCII bytes in a text read rune by rune                             *)
(* ===================================================================== *)

Section AsciiInRunes.
Import utf8.
Local Open Scope N_scope.

Ltac bounds :=
  unfold continuation, second3, second4, rune2, rune3, rune4, RuneError in *;
  repeat match goal with
         | H : (_ && _)%bool = true |- _ => apply andb_true_iff in H as [? ?]
         | H : (_ <? _) = false |- _ => apply N.ltb_ge in H
         | H : (_ <? _) = true |- _ => apply N.ltb_lt in H
         | H : (_ <=? _) = true |- _ => apply N.leb_le in H
         | H : context [if ?a =? ?b then _ else _] |- _ =>
             destruct (N.eqb_spec a b)
         end.

Ltac invalid_byte :=
  exists 1%nat, RuneError;
  split; [lia |]; split; [cbn [length]; lia |];
  split; [reflexivity |]; unfold RuneError; lia.

(** One step of the decoding loop: it takes one to four bytes, and a
    rune below [0x80] comes from the one byte that is that rune. *)
Lemma runes_step (b0 : N) (p1 : list N) :
  exists (k : nat) (x : rune),
    (1 <= k <= 4)%nat /\ (k <= S (length p1))%nat /\
    runes (b0 :: p1) = x :: runes (skipn k (b0 :: p1)) /\
    (x < 128 -> k = 1%nat /\ x = b0).
Proof.
  cbn [runes].
  destruct (b0 <? 128) eqn:H1.
  { exists 1%nat, b0. repeat split; cbn [length]; lia. }
  destruct (b0 <? 194) eqn:H2; [invalid_byte |].
  destruct (b0 <? 224) eqn:H3.
  { destruct p1 as [| b1 p2]; [invalid_byte |].
    destruct (continuation b1) eqn:Hc; [| invalid_byte].
    exists 2%nat, (rune2 b0 b1).
    split; [lia |]. split; [cbn [length]; lia |].
    split; [reflexivity |]. bounds. lia. }
  destruct (b0 <? 240) eqn:H4.
  { destruct p1 as [| b1 [| b2 p3]]; [invalid_byte | invalid_byte |].
    destruct (second3 b0 b1 && continuation b2)%bool eqn:Hc;
      [| invalid_byte].
    exists 3%nat, (rune3 b0 b1 b2).
    split; [lia |]. split; [cbn [length]; lia |].
    split; [reflexivity |]. bounds; lia. }
  destruct (b0 <? 245) eqn:H5; [| invalid_byte].
  destruct p1 as [| b1 [| b2 [| b3 p4]]];
    [invalid_byte | invalid_byte | invalid_byte |].
  destruct (second4 b0 b1 && continuation b2 && continuation b3)%bool eqn:Hc;
    [| invalid_byte].
  exists 4%nat, (rune4 b0 b1 b2 b3).
  split; [lia |]. split; [cbn [length]; lia |].
  split; [reflexivity |]. bounds; lia.
Qed.

Lemma runes_cons (b0 : N) (p1 : list N) :
  runes (b0 :: p1) =
  let invalid := RuneError :: runes p1 in
  if b0 <? 128 then b0 :: runes p1
  else if b0 <? 194 then invalid
  else if b0 <? 224 then
    match p1 with
    | b1 :: p2 =>
        if continuation b1 then rune2 b0 b1 :: runes p2 else invalid
    | _ => invalid
    end
  else if b0 <? 240 then
    match p1 with
    | b1 :: b2 :: p3 =>
        if (second3 b0 b1 && continuation b2)%bool
        then rune3 b0 b1 b2 :: runes p3 else invalid
    | _ => invalid
    end
  else if b0 <? 245 then
    match p1 with
    | b1 :: b2 :: b3 :: p4 =>
        if (second4 b0 b1 && continuation b2 && continuation b3)%bool
        then rune4 b0 b1 b2 b3 :: runes p4 else invalid
    | _ => invalid
    end
  else invalid.
Proof. reflexivity. Qed.

(** An ASCII byte ends whatever encoding was being read before it: the
    text decodes as what comes before the byte, the byte, and what comes
    after it. *)
Lemma runes_app_ascii (c : N) (q : list N) :
  c < 128 ->
  forall (n : nat) (p : list N),
  (length p <= n)%nat ->
  runes (p ++ c :: q) = runes p ++ c :: runes q.
Proof.
  intros Hc.
  assert (Hhead : forall l, runes (c :: l) = c :: runes l).
  { intros l. rewrite runes_cons. cbn zeta.
    now replace (c <? 128) with true by (symmetry; apply N.ltb_lt, Hc). }
  assert (Hcont : continuation c = false).
  { unfold continuation. apply andb_false_iff. left. apply N.leb_gt. lia. }
  assert (Hs3 : forall b0, second3 b0 c = false).
  { intros b0. unfold second3. apply andb_false_iff. left. apply N.leb_gt.
    destruct (b0 =? 224); lia. }
  assert (Hs4 : forall b0, second4 b0 c = false).
  { intros b0. unfold second4. apply andb_false_iff. left. apply N.leb_gt.
    destruct (b0 =? 240); lia. }
  induction n as [| n IH]; intros p Hlen.
  { destruct p; [apply Hhead | cbn [length] in Hlen; lia]. }
  destruct p as [| b0 p1]; [apply Hhead |].
  cbn [length] in Hlen.
  assert (IH1 : forall p', (length p' <= length p1)%nat ->
            runes (p' ++ c :: q) = runes p' ++ c :: runes q)
    by (intros p' Hp'; apply IH; lia).
  clear IH. cbn [app]. rewrite !(runes_cons b0). cbn zeta.
  destruct p1 as [| b1 [| b2 [| b3 p4]]];
    destruct q as [| q1 [| q2 q3]]; cbn [app];
    rewrite ?Hcont, ?Hs3, ?Hs4, ?andb_false_r; cbn [andb];
    repeat match goal with
           | |- context [if ?b then _ else _] => destruct b
           end;
    cbn [app]; f_equal;
    match goal with
    | |- _ = runes ?p' ++ _ => apply (IH1 p'); cbn [length]; lia
    end.
Qed.

(** Conversely, an ASCII rune of the decoded text is a byte of the
    text, and the text splits there. *)
Lemma runes_find_ascii (c : N) :
  c < 128 ->
  forall (n : nat) (p : list N) (pre post : list rune),
  (length p <= n)%nat ->
  runes p = pre ++ c :: post ->
  exists p1 p2, p = p1 ++ c :: p2 /\ runes p1 = pre /\ runes p2 = post.
Proof.
  intros Hc. induction n as [| n IH]; intros p pre post Hlen H.
  { destruct p; [| cbn [length] in Hlen; lia].
    destruct pre; discriminate H. }
  destruct p as [| b0 p1]; [destruct pre; discriminate H |].
  cbn [length] in Hlen.
  destruct (runes_step b0 p1) as (k & x & Hk & Hkl & Hstep & Hascii).
  rewrite Hstep in H. destruct pre as [| x' pre'].
  - cbn [app] in H. injection H as -> Hpost.
    destruct (Hascii Hc) as [-> ->]. exists [], p1. auto.
  - cbn [app] in H. injection H as -> Htail.
    apply IH in Htail as (q1 & q2 & Hsplit & Hq1 & Hq2);
      [| rewrite length_skipn; cbn [length]; lia].
    exists (firstn k (b0 :: p1) ++ q1), q2.
    assert (Hp : b0 :: p1 = (firstn k (b0 :: p1) ++ q1) ++ c :: q2)
      by (now rewrite <- app_assoc, <- Hsplit, firstn_skipn).
    split; [exact Hp |]. split; [| exact Hq2].
    pose proof (runes_app_ascii c q2 Hc _ (firstn k (b0 :: p1) ++ q1)
                  (Nat.le_refl _)) as Happ.
    rewrite <- Hp, Hstep, Hsplit in Happ.
    rewrite (runes_app_ascii c q2 Hc _ q1 (Nat.le_refl _)), Hq1 in Happ.
    change (x' :: pre' ++ c :: runes q2)
      with ((x' :: pre') ++ c :: runes q2) in Happ.
    apply app_inv_tail in Happ. now symmetry.
Qed.

(** A text that decodes to ASCII runes first begins with these bytes. *)
Lemma runes_ascii_prefix : forall (rs : list N) (p : list N) (post : list rune),
  Forall (fun c => c < 128) rs ->
  runes p = rs ++ post ->
  exists p3, p = rs ++ p3 /\ runes p3 = post.
Proof.
  induction rs as [| c rs IH]; intros p post Hrs H.
  - exists p. auto.
  - inversion Hrs as [| c0 rs0 Hc Hrest]; subst.
    destruct p as [| b0 p1]; [discriminate H |].
    destruct (runes_step b0 p1) as (k & x & Hk & Hkl & Hstep & Hascii).
    rewrite Hstep in H. cbn [app] in H. injection H as -> Htail.
    destruct (Hascii Hc) as [-> <-].
    change (skipn 1 (c :: p1)) with p1 in Htail.
    apply IH in Htail as (p3 & -> & Hp3); [| exact Hrest].
    exists p3. auto.
Qed.

Lemma runes_ascii_app : forall (rs : list N) (p3 : list N),
  Forall (fun c => c < 128) rs ->
  runes (rs ++ p3) = rs ++ runes p3.
Proof.
  induction rs as [| c rs IH]; intros p3 Hrs; [reflexivity |].
  inversion Hrs as [| c0 rs0 Hc Hrest]; subst.
  cbn [app]. rewrite runes_cons. cbn zeta.
  replace (c <? 128) with true by (symmetry; now apply N.ltb_lt).
  now rewrite IH.
Qed.

(** A word of ASCII bytes is in the decoded text exactly where it is in
    the text. *)
Lemma runes_contain_ascii (rs : list N) (p : list N) :
  rs <> [] ->
  Forall (fun c => c < 128) rs ->
  (exists pre post, runes p = pre ++ rs ++ post) <->
  (exists p1 p3, p = p1 ++ rs ++ p3).
Proof.
  intros Hne Hrs. destruct rs as [| c rs]; [congruence |].
  inversion Hrs as [| c0 rs0 Hc Hrest]; subst. split.
  - intros (pre & post & H). cbn [app] in H.
    apply (runes_find_ascii c Hc _ p pre (rs ++ post) (Nat.le_refl _)) in H
      as (p1 & p2 & -> & _ & Hp2).
    apply runes_ascii_prefix in Hp2 as (p3 & -> & _); [| exact Hrest].
    exists p1, p3. reflexivity.
  - intros (p1 & p3 & ->). exists (runes p1), (runes p3). cbn [app].
    rewrite (runes_app_ascii c _ Hc _ p1 (Nat.le_refl _)).
    now rewrite runes_ascii_app.
Qed.

End AsciiInRunes.

(* ===================================================================== *)
(** * Plain patterns                                                      *)
(* ===================================================================== *)

Lemma parse_plainByte c rest cur stack lastRepeat :
  plainByte c = true ->
  syntax.parse (c :: rest) cur stack lastRepeat
  = syntax.parse rest (syntax.push (syntax.literal c) cur) stack false.
Proof.
  destruct c as [[] [] [] [] [] [] [] []]; intros H;
    try discriminate H; reflexivity.
Qed.

Lemma parse_plain : forall s cur lastRepeat,
  forallb plainByte s = true ->
  s <> [] ->
  syntax.parse s cur [] lastRepeat
  = syntax.Parsed
      (syntax.closeFrame
         (syntax.mkFrame (syntax.alts cur)
                         (rev (map syntax.literal s) ++ syntax.cat cur))).
Proof.
  induction s as [| c s IH]; intros cur lastRepeat Hs Hne; [congruence |].
  cbn [forallb] in Hs. apply andb_true_iff in Hs as [Hc Hs].
  rewrite (parse_plainByte _ _ _ _ _ Hc).
  destruct s as [| c' s].
  - reflexivity.
  - rewrite IH by (auto; discriminate).
    cbn [syntax.push syntax.alts syntax.cat map rev].
    now rewrite <- !app_assoc.
Qed.

Section LiteralMatches.
Import syntax regexp.
Local Open Scope nat_scope.
Variable t : list utf8.rune.

Lemma Matches_concatOf_cons r earlier i j :
  Matches t (concatOf (r :: earlier)) i j <->
  exists m, Matches t (concatOf earlier) i m /\ Matches t r m j.
Proof.
  destruct earlier as [| r' earlier].
  - cbn [concatOf]. split.
    + intros H. exists i. split; [| exact H].
      constructor. apply Matches_bounds in H. lia.
    + intros (m & Hm & H). inversion Hm; subst. exact H.
  - change (concatOf (r :: r' :: earlier))
      with (Concat (concatOf (r' :: earlier)) r).
    split.
    + intros H. inversion H; subst. eauto.
    + intros (m & Hm & H). econstructor; eauto.
Qed.

Lemma Matches_literals : forall (cs : list utf8.rune) i j,
  Matches t (concatOf (rev (map (fun c => Char (Literal c)) cs))) i j <->
  exists pre post,
    t = pre ++ cs ++ post /\ length pre = i /\ j = i + length cs.
Proof.
  induction cs as [| c cs IH] using rev_ind; intros i j.
  - cbn [map rev concatOf app length]. split.
    + intros H. inversion H as [i0 Hi0 | | | | | | | | | | | |].
      exists (firstn j t), (skipn j t).
      rewrite firstn_skipn, length_firstn. subst. repeat split; lia.
    + intros (pre & post & Ht & Hi & ->). rewrite Nat.add_0_r.
      constructor. subst. rewrite length_app. lia.
  - rewrite map_app, rev_app_distr. cbn [map rev app].
    rewrite Matches_concatOf_cons. split.
    + intros (m & Hm & Hc). apply IH in Hm as (pre & post & Ht & Hi & Hm).
      inversion Hc as [| cls i0 c0 Hnth Hcls | | | | | | | | | | |].
      cbn [inClass] in Hcls. apply N.eqb_eq in Hcls.
      subst c0 i0 j m.
      assert (Hpost : nth_error post 0 = Some c).
      { rewrite Ht, app_assoc, nth_error_app2 in Hnth
          by (rewrite length_app; lia).
        rewrite length_app in Hnth.
        now replace (i + length cs - (length pre + length cs)) with 0
          in Hnth by lia. }
      destruct post as [| c0 post]; [discriminate |].
      inversion Hpost; subst c0.
      exists pre, post. rewrite <- !app_assoc. cbn [app].
      split; [exact Ht |]. split; [exact Hi |].
      rewrite length_app. cbn [length]. lia.
    + intros (pre & post & Ht & Hi & Hj).
      exists (i + length cs). split.
      * apply IH. exists pre, (c :: post).
        rewrite <- app_assoc in Ht. cbn [app] in Ht. auto.
      * rewrite length_app in Hj. cbn [length] in Hj.
        replace j with (S (i + length cs)) by lia.
        apply (MChar t (Literal c) (i + length cs) c);
          [| apply N.eqb_refl].
        rewrite Ht, <- app_assoc, app_assoc, nth_error_app2
          by (rewrite length_app; lia).
        rewrite length_app.
        now replace (i + length cs - (length pre + length cs)) with 0 by lia.
Qed.

End LiteralMatches.

Lemma list_ascii_of_string_app (a b : string) :
  list_ascii_of_string (a +:+ b)
  = list_ascii_of_string a ++ list_ascii_of_string b.
Proof.
  induction a as [| c a IH]; [reflexivity |].
  change (c :: list_ascii_of_string (a +:+ b)
          = c :: (list_ascii_of_string a ++ list_ascii_of_string b)).
  now rewrite IH.
Qed.

Lemma list_ascii_of_string_inj (a b : string) :
  list_ascii_of_string a = list_ascii_of_string b -> a = b.
Proof.
  intros H. rewrite <- (string_of_list_ascii_of_string a),
              <- (string_of_list_ascii_of_string b).
  now rewrite H.
Qed.

Lemma bytes_app (a b : string) :
  utf8.bytes (a +:+ b) = utf8.bytes a ++ utf8.bytes b.
Proof. unfold utf8.bytes. now rewrite list_ascii_of_string_app, map_app. Qed.

Lemma bytes_inj (a b : string) : utf8.bytes a = utf8.bytes b -> a = b.
Proof.
  unfold utf8.bytes. intros H. apply list_ascii_of_string_inj.
  revert H. generalize (list_ascii_of_string a), (list_ascii_of_string b).
  induction l as [| x l IH]; intros [| y l'] H; try discriminate;
    [reflexivity |].
  injection H as Hxy Hl. f_equal; [| now apply IH].
  rewrite <- (ascii_N_embedding x), <- (ascii_N_embedding y). now rewrite Hxy.
Qed.

(** A list of bytes is the bytes of a string when it is part of the
    bytes of a string. *)
Lemma bytes_split (s : string) (p1 p2 : list N) :
  utf8.bytes s = p1 ++ p2 ->
  exists a b, s = a +:+ b /\ utf8.bytes a = p1 /\ utf8.bytes b = p2.
Proof.
  unfold utf8.bytes. intros H.
  apply map_eq_app in H as (l1 & l2 & Hs & H1 & H2).
  exists (string_of_list_ascii l1), (string_of_list_ascii l2).
  rewrite !list_ascii_of_string_of_list_ascii. split; [| auto].
  apply list_ascii_of_string_inj.
  now rewrite list_ascii_of_string_app, !list_ascii_of_string_of_list_ascii.
Qed.

Lemma plain_bytes_ascii (cs : list ascii) :
  forallb plainByte cs = true ->
  Forall (fun c => (c < 128)%N) (map N_of_ascii cs).
Proof.
  induction cs as [| c cs IH]; intros H; [constructor |].
  cbn [forallb] in H. apply andb_true_iff in H as [Hc H].
  cbn [map]. constructor; [| now apply IH].
  unfold plainByte, syntax.isASCII in Hc.
  apply andb_true_iff in Hc as [Hc _]. now apply N.ltb_lt.
Qed.

(** X13.  The filter searches, it does not compare: a skip pattern of
    fewer than 500 bytes, plain ASCII bytes only (no operator of the
    syntax, say a word of letters, digits and hyphens) compiles, and
    skips exactly the namespaces that contain it somewhere, whatever
    their bytes, so that the pattern [kube] also skips a namespace
    called [my-kube-tools]. *)
Theorem plain_pattern_skips_what_contains_it
    (rest : regexp.Rest) (pattern ns : string) :
  pattern <> "" ->
  (String.length pattern < 500)%nat ->
  forallb plainByte (list_ascii_of_string pattern) = true ->
  exists re,
    regexp.Compile rest pattern = regexp.Compiled re /\
    (shouldSkip pattern re ns = true <->
     exists before after, ns = before +:+ pattern +:+ after).
Proof.
  intros Hne Hlen Hplain.
  set (cs := list_ascii_of_string pattern) in *.
  assert (Hcs : cs <> [])
    by (subst cs; destruct pattern; [congruence | discriminate]).
  exists (regexp.Program (syntax.concatOf (rev (map syntax.literal cs)))).
  split.
  - unfold regexp.Compile, syntax.Parse.
    replace (500 <=? String.length pattern)%nat with false
      by (symmetry; apply Nat.leb_gt; exact Hlen).
    fold cs. rewrite parse_plain; [| exact Hplain | exact Hcs].
    cbn [syntax.emptyFrame syntax.alts syntax.cat syntax.closeFrame
         syntax.alternateOf]. now rewrite app_nil_r.
  - unfold shouldSkip.
    replace (negb (String.eqb pattern "")) with true
      by (symmetry; apply negb_true_iff, String.eqb_neq, Hne).
    cbn [andb]. rewrite Match_spec. cbn [regexp.MatchesAnywhere].
    replace (map syntax.literal cs)
      with (map (fun c => syntax.Char (syntax.Literal c))
                (map N_of_ascii cs))
      by (now rewrite map_map).
    change (map N_of_ascii cs) with (utf8.bytes pattern).
    assert (Hword : (exists pre post,
                       utf8.runes (utf8.bytes ns)
                       = pre ++ utf8.bytes pattern ++ post) <->
                    (exists p1 p3,
                       utf8.bytes ns = p1 ++ utf8.bytes pattern ++ p3)).
    { apply runes_contain_ascii.
      - unfold utf8.bytes. fold cs. destruct cs; [congruence | discriminate].
      - now apply plain_bytes_ascii. }
    split.
    + intros (i & j & H).
      apply Matches_literals in H as (pre & post & Ht & _).
      destruct (proj1 Hword (ex_intro _ pre (ex_intro _ post Ht)))
        as (p1 & p3 & Hns).
      apply bytes_split in Hns as (before & rest' & -> & <- & Hrest).
      apply bytes_split in Hrest as (word & after & -> & Hw & <-).
      apply bytes_inj in Hw. subst word. eauto.
    + intros (before & after & ->).
      destruct (proj2 Hword) as (pre & post & Ht).
      { exists (utf8.bytes before), (utf8.bytes after).
        now rewrite !bytes_app. }
      exists (length pre), (length pre + length (utf8.bytes pattern))%nat.
      apply Matches_literals. exists pre, post. auto.
Qed.

Lemma plain_pattern_skips_what_contains_it_witness :
  exists re,
    regexp.Compile exampleRest "kube" = regexp.Compiled re /\
    shouldSkip "kube" re "my-kube-tools" = true.
Proof.
  destruct (plain_pattern_skips_what_contains_it exampleRest "kube"
              "my-kube-tools" ltac:(discriminate) ltac:(cbn; lia) eq_refl)
    as (re & Hc & Hiff).
  exists re. split; [exact Hc |].
  apply Hiff. exists "my-", "-tools". reflexivity.
Defined.

(* ===================================================================== *)
(** * A label value that the registry refuses                             *)
(* ===================================================================== *)

Lemma length_published namespace svc port : forall certs val,
  refused namespace svc port certs = Some val ->
  (length (published namespace svc port certs) < length certs)%nat.
Proof.
  induction certs as [| cert certs IH]; intros val H; [discriminate |].
  cbn [refused published] in *.
  destruct (invalidLabelValue (labelValues namespace svc port cert)).
  - cbn [length]. lia.
  - cbn [length]. specialize (IH val H). lia.
Qed.

Lemma logged_writes ws : logged (flat_map writeEvents ws) = [].
Proof. induction ws as [| [k v] ws IH]; [reflexivity | exact IH]. Qed.

(** X14.  A probe whose handshake and write succeeded dies when the
    chain holds a certificate with a label value that is not valid
    UTF-8 (the issuer's common name or serial number, say): it panics
    with that value, having published the certificates before that one
    and no other, read the clock once more and logged nothing; the
    connection is closed all the same, and that is the last thing
    done. *)
Theorem invalid_label_value_panics_the_probe
    (w : World) (tlsTimeout : time.Duration) (svc namespace : string)
    (port : Z) (s : State) (conn : Conn) (val : string) :
  DialWithDialer w (dials s) tlsTimeout (fullhostnameOf svc namespace port)
    = Ok conn ->
  WriteErr conn = None ->
  refused namespace svc port (PeerCertificates conn) = Some val ->
  let certs := PeerCertificates conn in
  let written := published namespace svc port certs in
  let fullhostname := fullhostnameOf svc namespace port in
  let probe := testTLS w tlsTimeout svc namespace port s in
  fst probe = Panics (InvalidLabelValue val) /\
  utf8.ValidString val = false /\
  (length written < length certs)%nat /\
  written = firstn (length written) certs /\
  expiredCertsGauge (snd probe)
  = fold_left setSeries (certWrites w namespace svc port (clock s) written)
              (expiredCertsGauge s) /\
  discoveredCertsGauge (snd probe) = discoveredCertsGauge s /\
  hearthbeatCounter (snd probe) = hearthbeatCounter s /\
  exists evs,
    trace (snd probe)
    = trace s
      ++ [EvDial tlsTimeout "tcp" fullhostname true;
          EvWrite fullhostname ping]
      ++ evs ++ [EvNow; EvClose fullhostname] /\
    expirationSets evs = certWrites w namespace svc port (clock s) written /\
    logged evs = [].
Proof.
  intros Hd Hw Hr certs written fullhostname probe. subst probe.
  rewrite (testTLS_handshaken _ _ _ _ _ _ _ Hd Hw), Hr.
  cbn [fst snd expiredCertsGauge discoveredCertsGauge hearthbeatCounter
       trace].
  fold certs. fold written. fold fullhostname.
  split; [reflexivity |].
  split; [now apply refused_invalid in Hr as [Hv _] |].
  split; [now apply length_published with (val := val) |].
  split.
  { subst written. clear. induction certs as [| cert certs IH];
      [reflexivity |].
    cbn [published].
    destruct (invalidLabelValue (labelValues namespace svc port cert));
      [reflexivity |].
    cbn [length firstn]. now rewrite <- IH. }
  repeat split.
  exists (flat_map writeEvents
            (certWrites w namespace svc port (clock s) written)).
  split; [reflexivity |].
  split; [apply expirationSets_writes | apply logged_writes].
Qed.

Lemma invalid_label_value_panics_the_probe_witness :
  fst (testTLS legacyWorld 400000000 "legacy" "default" 443 initialState)
  = Panics (InvalidLabelValue (CommonName (Issuer latin1Cert))) /\
  published "default" "legacy" 443 [leafCert; latin1Cert; intermediateCert]
  = [leafCert].
Proof.
  split; [| reflexivity].
  exact (proj1 (invalid_label_value_panics_the_probe legacyWorld 400000000
                  "legacy" "default" 443 initialState
                  (mkConn [leafCert; latin1Cert; intermediateCert] None)
                  (CommonName (Issuer latin1Cert)) eq_refl eq_refl eq_refl)).
Defined.

(** X15.  A scan cycle reaches its end exactly when every label value
    that its successful probes publish is valid UTF-8.  Otherwise it
    panics inside a probe, with the first value that is not: the targets
    after that one are not dialled, the total of the cycle is not
    published, the heartbeat does not advance and the process does not
    sleep; the loop around it stops there.  In a cluster where [legacy]
    presents a certificate issued under a Latin-1 name the process dies
    in its first cycle, without a heartbeat. *)
Theorem invalid_label_value_ends_the_loop
    (w : World) (discoverFrequency tlsTimeout : time.Duration)
    (skipNamespaceRegex : string) (r : regexp.Regexp)
    (items : list Service) (s : State) :
  let targets := targetsOf skipNamespaceRegex r items in
  let outcomes := probeOutcomes w tlsTimeout (dials s) targets in
  let cycle := scanCycle w discoverFrequency tlsTimeout skipNamespaceRegex
                         r items s in
  (fst cycle = Returns tt <-> labelsValid targets outcomes = true) /\
  (forall cause,
     fst cycle = Panics cause ->
     (exists val,
        cause = InvalidLabelValue val /\ utf8.ValidString val = false) /\
     hearthbeatCounter (snd cycle) = hearthbeatCounter s /\
     discoveredCertsGauge (snd cycle) = discoveredCertsGauge s /\
     (exists evs n,
        trace (snd cycle) = trace s ++ evs /\
        forallb withinCycle evs = true /\
        (n <= length targets)%nat /\
        dialled evs = firstn n (map addressOf targets)) /\
     forall cycles s0,
       List_ w (lists s0) = Ok items -> snd (listServices w s0) = s ->
       scanLoop (S cycles) w discoverFrequency tlsTimeout skipNamespaceRegex
                r s0
       = Panicked cause (snd cycle)) /\
  (let died := discoverServices 3 legacyWorld 7200000000000 400000000
                                "^kube-" initialState in
   running died = false /\
   hearthbeatCounter (ended died) = 0 /\
   dialled (trace (ended died))
   = ["api.default.svc.cluster.local:443";
      "api.default.svc.cluster.local:8080";
      "ledger.payments.svc.cluster.local:443";
      "legacy.default.svc.cluster.local:443"]).
Proof.
  intros targets outcomes cycle. subst cycle. split; [| split].
  - split.
    + apply scanCycle_returns.
    + intros Hv.
      now destruct (scanCycle_spec w discoverFrequency tlsTimeout
                      skipNamespaceRegex r items s Hv) as [Hret _].
  - intros cause Hc.
    pose proof (scanCycle_ends w discoverFrequency tlsTimeout
                  skipNamespaceRegex r items s) as [_ Hend].
    cbn zeta in Hend. rewrite Hc in Hend.
    destruct Hend as (Hh & Hg & Hval).
    split; [exact Hval |]. split; [exact Hh |]. split; [exact Hg |].
    split.
    + destruct (scanCycle_dialled w discoverFrequency tlsTimeout
                  skipNamespaceRegex r items s)
        as (evs & n & Ht & Hn & Hd & _).
      exists evs, n. split; [exact Ht |]. split; [| split; assumption].
      revert Hc Ht. rewrite scanCycle_unfold. cbn zeta.
      destruct (rangeServices_frame w tlsTimeout skipNamespaceRegex r items 0
                  (snd (emit (EvInfof (Scanning (length items))) s)))
        as (m & _ & _ & _ & _ & evs' & Ht' & Hf').
      destruct (rangeServices _ _ _ _ _ _ _) as [[found | c] s1];
        cbn [fst snd] in *; [discriminate |].
      intros _ Ht. rewrite Ht' in Ht. cbn [emit snd trace] in Ht.
      rewrite <- app_assoc in Ht. apply app_inv_head in Ht. subst evs.
      cbn [app forallb withinCycle andb]. exact Hf'.
    + intros cycles s0 Hitems <-. rewrite scanLoop_step, Hitems.
      cbn zeta. now rewrite Hc.
  - vm_compute. repeat split.
Qed.
